(** * sh-stat: statistical comparison of two labelled measurement series

    A shallow embedding of the analysis core of [main.go]: the Welch
    t-test, the confidence interval, the segment analysis and the series
    partitioning, with the properties its specification states about them.

    Conventions of the embedding.
    - [float64] is Rocq's primitive binary64 [float]; Go's arithmetic,
      comparisons, [math.Sqrt] and [math.Abs] are the IEEE 754 operations
      of [PrimFloat].
    - [int] is [Z]; slices are lists; Go maps are [gmap]s.
    - [time.Time] is an instant in nanoseconds since the Unix epoch, read
      in UTC (what [time.Parse] yields for a layout without a zone).
    - Calls into code that is not part of the repository and whose values
      the properties do not fix ([math.Pow], and the [Survival] and
      [Quantile] methods of gonum's [distuv.StudentsT]) are explicit
      events of a small free monad [Prog]; a [handler] answers them and
      may panic.
    - gonum's [stat.Mean], [stat.Variance] and [stat.StdDev] are modelled
      after the library's documentation for unweighted samples.  The sum
      they start from is taken from left to right; gonum's kernels may add
      the values in another order (several accumulators), which can change
      the last bits of the sum of four values or more.  The properties
      below do not depend on that order: they take the sample statistics
      as given, or compute them on small samples whose sums are the same
      in every order.

    The file has three parts: the program, the definitions the
    properties are stated with, and the properties. *)

From Stdlib Require Import ZArith Floats Uint63 List Lia DecimalString.
From Stdlib Require Import Reals Lra Psatz.
From stdpp Require Import gmap strings list.

Set Warnings "-inexact-float".
Local Open Scope Z_scope.

(** ** float64 *)

Definition float64 := float.

(** The conversion [float64(n)] of an [int]. *)
Definition float64_of_int (n : Z) : float64 :=
  if n <? 0 then (- of_uint63 (Uint63.of_Z (- n)))%float
  else of_uint63 (Uint63.of_Z n).

(** [math.Sqrt] and [math.Abs] are the IEEE operations. *)
Module math.
Definition Sqrt (x : float64) : float64 := PrimFloat.sqrt x.
Definition Abs (x : float64) : float64 := PrimFloat.abs x.
End math.

(** [len(x)] as an [int]. *)
Definition len {A} (x : list A) : Z := Z.of_nat (length x).

(** ** time.Time *)

Definition Time := Z.

Definition nanosPerSecond : Z := 1000000000.
Definition nanosPerHour : Z := 3600 * nanosPerSecond.
Definition nanosPerDay : Z := 24 * nanosPerHour.

(** [t.Hour()], in 0..23. *)
Definition Hour (t : Time) : Z := (t `mod` nanosPerDay) `div` nanosPerHour.

(** [int(t.Weekday())], Sunday = 0; the epoch was a Thursday. *)
Definition Weekday (t : Time) : Z := (t `div` nanosPerDay + 4) `mod` 7.

(** [t.Before(u)] and [t.After(u)]. *)
Definition Before (t u : Time) : bool := t <? u.
Definition After (t u : Time) : bool := u <? t.

(** [time.Time{}]: January 1, year 1, 00:00:00 UTC. *)
Definition zeroTime : Time := -62135596800 * nanosPerSecond.

(** ** The data model *)

Module Measurement.
Record t := mk { Date : Time; Value : float64; Label : string }.
End Measurement.

Module TimeSeries.
Record t := mk {
  Label : string;
  Measurements : list Measurement.t;
  MinDate : Time;
  MaxDate : Time }.
End TimeSeries.

Module AnalysisResult.
Record t := mk {
  Mean : float64;
  Count : Z;
  StdDev : float64;
  ConfidenceInterval : float64 * float64 }.
End AnalysisResult.

Module TimeSegmentAnalysis.
Record t := mk {
  Benchmark : AnalysisResult.t;
  Experiment : AnalysisResult.t;
  Difference : float64;
  PValue : float64;
  Significant : bool }.
End TimeSegmentAnalysis.

(** ** Calls that leave the repository *)

(** [distuv.StudentsT]; a composite literal [StudentsT{Nu: df}] leaves
    [Mu] and [Sigma] at Go's zero value. *)
Module StudentsT.
Record t := mk { Mu : float64; Sigma : float64; Nu : float64 }.
Definition withNu (df : float64) : t := mk 0%float 0%float df.
End StudentsT.

Inductive call : Type :=
| math_Pow (x y : float64)
| Survival (dist : StudentsT.t) (x : float64)
| Quantile (dist : StudentsT.t) (p : float64).

(** A computation that returns an [A] after a finite number of calls. *)
Inductive Prog (A : Type) : Type :=
| Ret (a : A)
| Call (c : call) (k : float64 -> Prog A).
Arguments Ret {A} a.
Arguments Call {A} c k.

Fixpoint bind {A B} (p : Prog A) (f : A -> Prog B) : Prog B :=
  match p with
  | Ret a => f a
  | Call c k => Call c (fun v => bind (k v) f)
  end.

Definition invoke (c : call) : Prog float64 := Call c Ret.

#[global] Instance Prog_ret : MRet Prog := @Ret.
#[global] Instance Prog_bind : MBind Prog := fun A B f p => bind p f.

(** The library as the program sees it: an answer to every call, or a
    panic ([None]), which the program never recovers from. *)
Definition handler := call -> option float64.

Fixpoint run {A} (h : handler) (p : Prog A) : option A :=
  match p with
  | Ret a => Some a
  | Call c k => match h c with
                | Some v => run h (k v)
                | None => None
                end
  end.

(** The calls a run makes, in order, up to its end or its panic. *)
Fixpoint calls {A} (h : handler) (p : Prog A) : list call :=
  match p with
  | Ret _ => []
  | Call c k => c :: match h c with
                     | Some v => calls h (k v)
                     | None => []
                     end
  end.

(** A library that answers every call with the same value. *)
Definition answering (v : float64) : handler := fun _ => Some v.

(** ** gonum/floats and gonum/stat, unweighted *)

(** [floats.Sum]: the values added from left to right.  (The library does
    not fix the order of the additions; see the conventions above.) *)
Module floats.
Definition Sum (s : list float64) : float64 := fold_left PrimFloat.add s 0%float.
End floats.

Module stat.

(** [stat.Mean(x, nil)]: the sum over the number of values. *)
Definition Mean (x : list float64) : float64 :=
  (floats.Sum x / float64_of_int (len x))%float.

(** [stat.Variance(x, nil)]: the unbiased sample variance, by the
    corrected two-pass algorithm, normalised by [len(x) - 1]. *)
Definition Variance (x : list float64) : float64 :=
  let mean := Mean x in
  let '(ss, compensation) :=
    fold_left (fun '(ss, compensation) v =>
                 let d := (v - mean)%float in
                 ((ss + d * d)%float, (compensation + d)%float))
              x (0%float, 0%float) in
  ((ss - compensation * compensation / float64_of_int (len x))
   / (float64_of_int (len x) - 1))%float.

(** [stat.StdDev(x, nil)]: the square root of [Variance]. *)
Definition StdDev (x : list float64) : float64 := math.Sqrt (Variance x).

End stat.

(** ** main.go *)

Definition welchTTest (x y : list float64) : Prog (float64 * float64) :=
  let nx := float64_of_int (len x) in
  let ny := float64_of_int (len y) in
  if (nx <? 2)%float || (ny <? 2)%float then Ret (0%float, 1%float)
  else
    let meanX := stat.Mean x in
    let meanY := stat.Mean y in
    let varX := stat.Variance x in
    let varY := stat.Variance y in
    let t := ((meanX - meanY) / math.Sqrt (varX / nx + varY / ny))%float in
    a ← invoke (math_Pow (varX / nx + varY / ny)%float 2%float);
    b ← invoke (math_Pow (varX / nx)%float 2%float);
    c ← invoke (math_Pow (varY / ny)%float 2%float);
    let df := (a / (b / (nx - 1) + c / (ny - 1)))%float in
    let dist := StudentsT.withNu df in
    s ← invoke (Survival dist (math.Abs t));
    let p := (2 * s)%float in
    Ret (t, p).

Definition measurementsToValues (measurements : list Measurement.t) : list float64 :=
  map Measurement.Value measurements.

Definition confidenceInterval (values : list float64) (confidenceLevel : float64)
  : Prog (float64 * float64) :=
  let mean := stat.Mean values in
  let stdErr := (stat.StdDev values / math.Sqrt (float64_of_int (len values)))%float in
  let dist := StudentsT.withNu (float64_of_int (len values - 1)) in
  tValue ← invoke (Quantile dist ((1 + confidenceLevel) / 2)%float);
  let margin := (tValue * stdErr)%float in
  Ret ((mean - margin)%float, (mean + margin)%float).

Definition analyzeSegment (benchmark experiment : list Measurement.t)
    (confidenceLevel : float64) : Prog TimeSegmentAnalysis.t :=
  let benchValues := measurementsToValues benchmark in
  let expValues := measurementsToValues experiment in
  let benchMean := stat.Mean benchValues in
  let expMean := stat.Mean expValues in
  let benchStdDev := stat.StdDev benchValues in
  let expStdDev := stat.StdDev expValues in
  '(_, pValue) ← welchTTest benchValues expValues;
  benchCI ← confidenceInterval benchValues confidenceLevel;
  expCI ← confidenceInterval expValues confidenceLevel;
  Ret {| TimeSegmentAnalysis.Benchmark :=
           {| AnalysisResult.Mean := benchMean;
              AnalysisResult.Count := len benchValues;
              AnalysisResult.StdDev := benchStdDev;
              AnalysisResult.ConfidenceInterval := benchCI |};
         TimeSegmentAnalysis.Experiment :=
           {| AnalysisResult.Mean := expMean;
              AnalysisResult.Count := len expValues;
              AnalysisResult.StdDev := expStdDev;
              AnalysisResult.ConfidenceInterval := expCI |};
         TimeSegmentAnalysis.Difference := ((expMean - benchMean) / benchMean * 100)%float;
         TimeSegmentAnalysis.PValue := pValue;
         TimeSegmentAnalysis.Significant := (pValue <? 1 - confidenceLevel)%float |}.

(** [fmt.Sprintf("%d", n)] and [fmt.Sprintf("%02d", n)]. *)
Definition Sprintf_d (n : Z) : string := NilZero.string_of_int (Z.to_int n).

Definition Sprintf_02d (n : Z) : string :=
  let s := Sprintf_d n in
  if (String.length s <? 2)%nat then "0" +:+ s else s.

(** [getUniqueLabels] collects the labels in a Go map used as a set and
    ranges over it; Go leaves the order of that iteration unspecified, and
    [elements] fixes one. *)
Definition labelMap (data : list Measurement.t) : gset string :=
  fold_left (fun labelMap m => {[ Measurement.Label m ]} ∪ labelMap) data ∅.

Definition getUniqueLabels (data : list Measurement.t) : list string :=
  elements (labelMap data).

Fixpoint containsLabel (labels : list string) (target : string) : bool :=
  match labels with
  | [] => false
  | label :: rest => if String.eqb label target then true else containsLabel rest target
  end.

(** [filterByLabel]; [now] is the value [time.Now()] returns. *)
Definition filterByLabel (now : Time) (data : list Measurement.t) (label : string)
  : TimeSeries.t :=
  let '(filtered, minDate, maxDate) :=
    fold_left
      (fun '(filtered, minDate, maxDate) m =>
         if String.eqb (Measurement.Label m) label then
           (filtered ++ [m],
            if Before (Measurement.Date m) minDate then Measurement.Date m else minDate,
            if After (Measurement.Date m) maxDate then Measurement.Date m else maxDate)
         else (filtered, minDate, maxDate))
      data ([], now, zeroTime) in
  {| TimeSeries.Label := label;
     TimeSeries.Measurements := filtered;
     TimeSeries.MinDate := minDate;
     TimeSeries.MaxDate := maxDate |}.

(** [grouped[k] = append(grouped[k], m)]: a missing key reads as [nil]. *)
Definition appendAt (k : Z) (m : Measurement.t) (grouped : gmap Z (list Measurement.t))
  : gmap Z (list Measurement.t) :=
  <[ k := default [] (grouped !! k) ++ [m] ]> grouped.

Definition groupByHour (measurements : list Measurement.t) : gmap Z (list Measurement.t) :=
  fold_left (fun grouped m => appendAt (Hour (Measurement.Date m)) m grouped)
            measurements ∅.

Definition groupByDayOfWeek (measurements : list Measurement.t) : gmap Z (list Measurement.t) :=
  fold_left (fun grouped m => appendAt (Weekday (Measurement.Date m)) m grouped)
            measurements ∅.

(** [for i := lo; i < lo + n; i++ { s = body(i, s) }]. *)
Fixpoint forRange {S} (lo : Z) (n : nat) (body : Z -> S -> Prog S) (s : S) : Prog S :=
  match n with
  | O => Ret s
  | Datatypes.S n' => s' ← body lo s; forRange (lo + 1) n' body s'
  end.

(** The body that the hourly and the daily loop share: analyse bucket [i]
    when both sides have it, and store the result under [key i]. *)
Definition analyzeBucket (key : Z -> string)
    (benchBuckets expBuckets : gmap Z (list Measurement.t))
    (confidenceLevel : float64) (i : Z)
    (results : gmap string TimeSegmentAnalysis.t)
  : Prog (gmap string TimeSegmentAnalysis.t) :=
  match benchBuckets !! i with
  | Some b =>
      match expBuckets !! i with
      | Some e =>
          r ← analyzeSegment b e confidenceLevel;
          Ret (<[ key i := r ]> results)
      | None => Ret results
      end
  | None => Ret results
  end.

Definition hourKey (hour : Z) : string := "hour_" +:+ Sprintf_02d hour.
Definition dayKey (day : Z) : string := "day_" +:+ Sprintf_d day.

Definition analyzeTimeSeries (benchmark experiment : TimeSeries.t)
    (confidenceLevel : float64) : Prog (gmap string TimeSegmentAnalysis.t) :=
  overall ← analyzeSegment (TimeSeries.Measurements benchmark)
                           (TimeSeries.Measurements experiment) confidenceLevel;
  let results : gmap string TimeSegmentAnalysis.t := <[ "overall" := overall ]> ∅ in
  let hourlyBench := groupByHour (TimeSeries.Measurements benchmark) in
  let hourlyExp := groupByHour (TimeSeries.Measurements experiment) in
  results ← forRange 0 24 (analyzeBucket hourKey hourlyBench hourlyExp confidenceLevel)
                     results;
  let dailyBench := groupByDayOfWeek (TimeSeries.Measurements benchmark) in
  let dailyExp := groupByDayOfWeek (TimeSeries.Measurements experiment) in
  forRange 0 7 (analyzeBucket dayKey dailyBench dailyExp confidenceLevel) results.


(** ** Errors, panics and output *)

(** Go's [error] values: [io.EOF], and any other error, with its text. *)
Inductive error : Type :=
| io_EOF
| errorString (text : string).

(** How a call that can fail ends: with a value, with an error, or in a
    panic. *)
Inductive outcome (A : Type) : Type :=
| Returned (a : A)
| Failed (err : error)
| Panicked.
Arguments Returned {A} a.
Arguments Failed {A} err.
Arguments Panicked {A}.

#[global] Instance outcome_ret : MRet outcome := @Returned.
#[global] Instance outcome_bind : MBind outcome := fun A B f o =>
  match o with
  | Returned a => f a
  | Failed err => Failed err
  | Panicked => Panicked
  end.

(** [v, err := f(...); if err != nil { return nil, err }]. *)
Definition try {A} (r : A + error) : outcome A :=
  match r with
  | inl a => Returned a
  | inr err => Failed err
  end.

(** [s[i]]: an index out of range panics. *)
Definition index {A} (s : list A) (i : nat) : outcome A :=
  match s !! i with
  | Some a => Returned a
  | None => Panicked
  end.

(** The arguments of a formatted print, and what the program writes to
    its standard output.  Format strings are kept as the source writes
    them, escapes included. *)
Inductive arg : Type :=
| a_int (n : Z)
| a_float (v : float64)
| a_string (s : string)
| a_error (err : error).

Inductive output : Type :=
| fmt_Println (s : string)
| fmt_Printf (format : string) (args : list arg).

(** The attributes of [fatih/color] the program uses. *)
Inductive Attribute : Type := FgGreen | FgRed.

(** ** encoding/csv *)

Module csv.

(** A [csv.Reader] on an open file, as the results its [Read] returns
    from here on: records and errors; past the last of them [Read]
    returns [io.EOF]. *)
Definition Reader := list (list string + error).

Definition Read (reader : Reader) : (list string + error) * Reader :=
  match reader with
  | [] => (inr io_EOF, [])
  | result :: rest => (result, rest)
  end.

End csv.

(** The options of the command line; [InputFile] is [Args.InputFile]. *)
Module Options.
Record t := mk {
  Baseline : string;
  Experiment : string;
  Confidence : float64;
  Threshold : float64;
  NoColor : bool;
  InputFile : string }.
End Options.

(** ** The world outside the program

    What a run of the program gets from its environment and from the
    libraries whose results the properties leave open. *)
Record World := {
  (** [parser.Parse()] of go-flags: the options, or an error. *)
  flags_Parse : Options.t + error;
  (** [os.Open] followed by [csv.NewReader] with [Comma = ';']. *)
  os_Open : string -> csv.Reader + error;
  time_Parse : string -> string -> Time + error;
  strconv_ParseFloat : string -> Z -> float64 + error;
  strings_TrimSpace : string -> string;
  (** The order in which this run ranges over a map with the given keys. *)
  rangeOrder : list string -> list string;
  (** The value of the [n]-th call of [time.Now()]. *)
  time_Now : nat -> Time;
  (** [os.Stdout.Stat()], as the mode bits of the file. *)
  os_Stdout_Stat : Z + error;
  fmt_Sprintf : string -> list arg -> string;
  color_Sprintf : Attribute -> string -> list arg -> string;
  (** [math.Pow] and gonum's Student's t distribution. *)
  library : handler }.

(** [t.Sub(u)]: the difference as a [time.Duration], a signed 64-bit
    count of nanoseconds that saturates. *)
Definition minDuration : Z := - 2 ^ 63.
Definition maxDuration : Z := 2 ^ 63 - 1.

Definition Sub (t u : Time) : Z :=
  if t - u <? minDuration then minDuration
  else if maxDuration <? t - u then maxDuration
  else t - u.

(** [os.ModeCharDevice]. *)
Definition ModeCharDevice : Z := 2 ^ 21.

(** [strings.Join] and [strings.Repeat]. *)
Definition strings_Join (elems : list string) (sep : string) : string :=
  String.concat sep elems.

Fixpoint strings_Repeat (s : string) (count : nat) : string :=
  match count with
  | O => ""
  | S count' => s +:+ strings_Repeat s count'
  end.

(** ** main.go, continued *)

(** The loop of [readCSV]: [reader.Read()] until [io.EOF]. *)
Fixpoint readRecords (w : World) (reader : csv.Reader) (measurements : list Measurement.t)
  : outcome (list Measurement.t) :=
  match reader with
  | [] | inr io_EOF :: _ => Returned measurements
  | inr err :: _ => Failed err
  | inl record :: reader =>
      field0 ← index record 0;
      date ← try (time_Parse w "2006-01-02 15:04:05" field0);
      field1 ← index record 1;
      value ← try (strconv_ParseFloat w (strings_TrimSpace w field1) 64);
      field2 ← index record 2;
      readRecords w reader
        (measurements ++ [ {| Measurement.Date := date;
                              Measurement.Value := value;
                              Measurement.Label := field2 |} ])
  end.

Definition readCSV (w : World) (filename : string) : outcome (list Measurement.t) :=
  reader ← try (os_Open w filename);
  (* Skip header *)
  let '(header, reader) := csv.Read reader in
  _ ← try header;
  readRecords w reader [].

(** The closure [formatDifference] of [printResults]. *)
Definition formatDifference (w : World) (threshold : float64) (useColor : bool)
    (diff : float64) : string :=
  if negb useColor then fmt_Sprintf w "%.2f%%" [a_float diff]
  else if (math.Abs diff <=? threshold)%float then fmt_Sprintf w "%.2f%%" [a_float diff]
  else if (diff <? 0)%float then color_Sprintf w FgGreen "%.2f%%" [a_float diff]
  else color_Sprintf w FgRed "%.2f%%" [a_float diff].

(** Go's zero value of a [TimeSegmentAnalysis]: what reading a missing
    key of the result map yields. *)
Definition zeroResult : AnalysisResult.t :=
  {| AnalysisResult.Mean := 0%float; AnalysisResult.Count := 0;
     AnalysisResult.StdDev := 0%float;
     AnalysisResult.ConfidenceInterval := (0%float, 0%float) |}.

Definition zeroAnalysis : TimeSegmentAnalysis.t :=
  {| TimeSegmentAnalysis.Benchmark := zeroResult;
     TimeSegmentAnalysis.Experiment := zeroResult;
     TimeSegmentAnalysis.Difference := 0%float;
     TimeSegmentAnalysis.PValue := 0%float;
     TimeSegmentAnalysis.Significant := false |}.

Definition days : list string :=
  [ "Sunday"; "Monday"; "Tuesday"; "Wednesday"; "Thursday"; "Friday"; "Saturday" ].

(** [printResults], as the lines it writes. *)
Definition printResults (w : World) (results : gmap string TimeSegmentAnalysis.t)
    (showHourly showDaily : bool) (threshold : float64) (useColor : bool) : list output :=
  let overall := default zeroAnalysis (results !! "overall") in
  [ fmt_Println "\nOverall Analysis Results:";
    fmt_Println (strings_Repeat "-" 50);
    fmt_Printf "Benchmark mean: %.4f (n=%d)\n"
      [ a_float (AnalysisResult.Mean (TimeSegmentAnalysis.Benchmark overall));
        a_int (AnalysisResult.Count (TimeSegmentAnalysis.Benchmark overall)) ];
    fmt_Printf "Experiment mean: %.4f (n=%d)\n"
      [ a_float (AnalysisResult.Mean (TimeSegmentAnalysis.Experiment overall));
        a_int (AnalysisResult.Count (TimeSegmentAnalysis.Experiment overall)) ];
    fmt_Printf "Difference: %s\n"
      [ a_string (formatDifference w threshold useColor
                    (TimeSegmentAnalysis.Difference overall)) ];
    fmt_Printf "P-value: %.4f\n" [ a_float (TimeSegmentAnalysis.PValue overall) ] ]
  ++ (if showHourly then
        [ fmt_Println "\nHourly Breakdown:"; fmt_Println (strings_Repeat "-" 50) ]
        ++ (hour ← seqZ 0 24;
            let key := "hour_" +:+ Sprintf_02d hour in
            match results !! key with
            | Some analysis =>
                [ fmt_Printf "Hour %02d: %s\n"
                    [ a_int hour;
                      a_string (formatDifference w threshold useColor
                                  (TimeSegmentAnalysis.Difference analysis)) ] ]
            | None => []
            end)
      else [])
  ++ (if showDaily then
        [ fmt_Println "\nDay of Week Breakdown:"; fmt_Println (strings_Repeat "-" 50) ]
        ++ (day ← seqZ 0 7;
            let key := "day_" +:+ Sprintf_d day in
            match results !! key with
            | Some analysis =>
                [ fmt_Printf "%s: %s\n"
                    [ a_string (default "" (days !! Z.to_nat day));
                      a_string (formatDifference w threshold useColor
                                  (TimeSegmentAnalysis.Difference analysis)) ] ]
            | None => []
            end)
      else []).

Definition isTerminal (w : World) : bool :=
  match os_Stdout_Stat w with
  | inr _ => false
  | inl mode => negb (Z.land mode ModeCharDevice =? 0)
  end.

(** How [main] ends: it returns, or the process is ended by [os.Exit],
    by [log.Fatalf] or by a panic. *)
Inductive ending : Type :=
| returns
| os_Exit (code : Z)
| log_Fatalf (format : string) (args : list arg)
| panics.

(** The labels [main] settles on, with what it prints while doing so:
    the [if] / [else if] chain on [opts.Baseline] and [opts.Experiment]. *)
Definition selectLabels (opts : Options.t) (labels : list string)
  : outcome (list output * string * string) :=
  if String.eqb (Options.Baseline opts) "" && String.eqb (Options.Experiment opts) "" then
    baseline ← index labels 0;
    experiment ← index labels 1;
    Returned ([ fmt_Printf "Auto-selected baseline: %s, experiment: %s\n"
                  [ a_string baseline; a_string experiment ] ],
              baseline, experiment)
  else if String.eqb (Options.Baseline opts) "" then
    match find (fun label => negb (String.eqb label (Options.Experiment opts))) labels with
    | Some label =>
        Returned ([ fmt_Printf "Auto-selected baseline: %s\n" [ a_string label ] ],
                  label, Options.Experiment opts)
    | None => Returned ([], Options.Baseline opts, Options.Experiment opts)
    end
  else if String.eqb (Options.Experiment opts) "" then
    match find (fun label => negb (String.eqb label (Options.Baseline opts))) labels with
    | Some label =>
        Returned ([ fmt_Printf "Auto-selected experiment: %s\n" [ a_string label ] ],
                  Options.Baseline opts, label)
    | None => Returned ([], Options.Baseline opts, Options.Experiment opts)
    end
  else Returned ([], Options.Baseline opts, Options.Experiment opts).

(** [main]: what it writes to the standard output, and how it ends. *)
Definition main (w : World) : list output * ending :=
  match flags_Parse w with
  | inr _ => ([], os_Exit 1)
  | inl opts =>
  if String.eqb (Options.InputFile opts) "" then ([], os_Exit 1) else
  match readCSV w (Options.InputFile opts) with
  | Panicked => ([], panics)
  | Failed err => ([], log_Fatalf "Error reading CSV: %v" [ a_error err ])
  | Returned data =>
  let labels := rangeOrder w (getUniqueLabels data) in
  if negb (len labels =? 2)
     && (String.eqb (Options.Baseline opts) "" || String.eqb (Options.Experiment opts) "")
  then ([], log_Fatalf
              "Found %d labels in data. When more than 2 labels exist, --baseline and --experiment must be specified.\nAvailable labels: %v"
              [ a_int (len labels); a_string (strings_Join labels ", ") ])
  else
  match selectLabels opts labels with
  | Panicked | Failed _ => ([], panics)
  | Returned (selected, baselineLabel, experimentLabel) =>
  if negb (containsLabel labels baselineLabel) || negb (containsLabel labels experimentLabel)
  then (selected,
        log_Fatalf "Specified labels not found in data. Available labels: %v"
                   [ a_string (strings_Join labels ", ") ])
  else
  let baseline := filterByLabel (time_Now w 0) data baselineLabel in
  let experiment := filterByLabel (time_Now w 1) data experimentLabel in
  if (len (TimeSeries.Measurements baseline) =? 0)
     || (len (TimeSeries.Measurements experiment) =? 0)
  then (selected, log_Fatalf "No data found for one or both labels" [])
  else
  match run (library w) (analyzeTimeSeries baseline experiment (Options.Confidence opts)) with
  | None => (selected, panics)
  | Some analysis =>
  let timeRange := Sub (TimeSeries.MaxDate baseline) (TimeSeries.MinDate baseline) in
  let showHourly := 24 * nanosPerHour <=? timeRange in
  let showDaily := 7 * 24 * nanosPerHour <=? timeRange in
  let useColor := negb (Options.NoColor opts) && isTerminal w in
  (selected ++ printResults w analysis showHourly showDaily (Options.Threshold opts) useColor,
   returns)
  end end end end.

(** * Definitions for the properties *)

Definition values := measurementsToValues.

Definition hasLabel (label : string) (m : Measurement.t) : Prop :=
  Measurement.Label m = label.

#[global] Instance hasLabel_dec label m : Decision (hasLabel label m).
Proof. unfold hasLabel. apply _. Defined.

(** The sum of a list of [int]s. *)
Definition total (l : list Z) : Z := foldr Z.add 0 l.

Definition sampleData : list Measurement.t :=
  [ Measurement.mk 0 10%float "base"; Measurement.mk 60 11%float "exp";
    Measurement.mk 120 12%float "base" ].

(** The keys the specification allows. *)
Definition segment_keys : list string :=
  [ "overall";
    "hour_00"; "hour_01"; "hour_02"; "hour_03"; "hour_04"; "hour_05";
    "hour_06"; "hour_07"; "hour_08"; "hour_09"; "hour_10"; "hour_11";
    "hour_12"; "hour_13"; "hour_14"; "hour_15"; "hour_16"; "hour_17";
    "hour_18"; "hour_19"; "hour_20"; "hour_21"; "hour_22"; "hour_23";
    "day_0"; "day_1"; "day_2"; "day_3"; "day_4"; "day_5"; "day_6" ].

(** Buckets: the measurements whose projection [f] is [i]. *)
Definition inBucket (f : Time -> Z) (i : Z) (m : Measurement.t) : Prop :=
  f (Measurement.Date m) = i.

#[global] Instance inBucket_dec f i m : Decision (inBucket f i m).
Proof. unfold inBucket. apply _. Defined.

(** The loop of [groupByHour] and [groupByDayOfWeek], for a projection
    [f] of the date and from a map [acc]. *)
Definition groupBy (f : Time -> Z) (measurements : list Measurement.t)
    (acc : gmap Z (list Measurement.t)) : gmap Z (list Measurement.t) :=
  fold_left (fun grouped m => appendAt (f (Measurement.Date m)) m grouped)
            measurements acc.

Definition bothHave (benchBuckets expBuckets : gmap Z (list Measurement.t)) (i : Z)
  : Prop :=
  is_Some (benchBuckets !! i) /\ is_Some (expBuckets !! i).

Definition hasHour (series : TimeSeries.t) (hour : Z) : Prop :=
  exists m, m ∈ TimeSeries.Measurements series /\ Hour (Measurement.Date m) = hour.

Definition hasDay (series : TimeSeries.t) (day : Z) : Prop :=
  exists m, m ∈ TimeSeries.Measurements series /\ Weekday (Measurement.Date m) = day.

(** The baseline of [sampleData]: two measurements, in the same hour of
    the same day. *)
Definition sampleBaseline : TimeSeries.t := filterByLabel 1000 sampleData "base".

(** The t statistic as the specification writes it:
    [(mean(x) - mean(y)) / sqrt(var(x)/n_x + var(y)/n_y)]. *)
Definition tStatistic (x y : list float64) : float64 :=
  ((stat.Mean x - stat.Mean y)
   / math.Sqrt (stat.Variance x / float64_of_int (len x)
                + stat.Variance y / float64_of_int (len y)))%float.

(** The Welch-Satterthwaite degrees of freedom, from the three squares
    [a = (var(x)/n_x + var(y)/n_y)^2], [b = (var(x)/n_x)^2] and
    [c = (var(y)/n_y)^2]. *)
Definition degreesOfFreedom (a b c : float64) (x y : list float64) : float64 :=
  (a / (b / (float64_of_int (len x) - 1) + c / (float64_of_int (len y) - 1)))%float.

(** Both samples pass the guard of [welchTTest]. *)
Definition bothPassGuard (x y : list float64) : Prop :=
  (float64_of_int (len x) <? 2)%float || (float64_of_int (len y) <? 2)%float = false.

(** The standard error of the mean, and the margin of the confidence
    interval as the specification writes it:
    [t_critical * std_dev(values) / sqrt(n)]. *)
Definition stdErr (vals : list float64) : float64 :=
  (stat.StdDev vals / math.Sqrt (float64_of_int (len vals)))%float.

Definition specMargin (t_critical : float64) (vals : list float64) : float64 :=
  (t_critical * stdErr vals)%float.

(** The quantile call of [confidenceInterval]. *)
Definition quantileCall (vals : list float64) (confidenceLevel : float64) : call :=
  Quantile (StudentsT.withNu (float64_of_int (len vals - 1)))
           ((1 + confidenceLevel) / 2)%float.

(** The deviations from the mean, and the variance written with the two
    sums gonum's loop accumulates. *)
Definition deviations (x : list float64) : list float64 :=
  map (fun v => (v - stat.Mean x)%float) x.

Definition squares (d : list float64) : list float64 :=
  map (fun v => (v * v)%float) d.

Definition unbiasedVariance (x : list float64) : float64 :=
  ((floats.Sum (squares (deviations x))
    - floats.Sum (deviations x) * floats.Sum (deviations x) / float64_of_int (len x))
   / (float64_of_int (len x) - 1))%float.

(** The variance and the standard deviation with denominator [n], as the
    specification words them. *)
Definition varianceOverN (x : list float64) : float64 :=
  (floats.Sum (squares (deviations x)) / float64_of_int (len x))%float.

Definition stdDevOverN (x : list float64) : float64 := math.Sqrt (varianceOverN x).

(** Samples for the examples: one whose sum overflows, two constant ones. *)
Definition hugeSample : list float64 := [1e308; 1e308]%float.
Definition fives : list float64 := [5; 5]%float.
Definition tens : list float64 := [10; 10; 10; 10]%float.
Definition elevens : list float64 := [11; 11; 11; 11]%float.

(** The distribution [confidenceInterval] builds for a sample:
    [distuv.StudentsT{Nu: float64(len(values) - 1)}]. *)
Definition intervalDist (vals : list float64) : StudentsT.t :=
  StudentsT.withNu (float64_of_int (len vals - 1)).

(** Degrees of freedom that are not positive. *)
Definition degenerate (dist : StudentsT.t) : bool := (StudentsT.Nu dist <=? 0)%float.

(** A library that panics when it is asked for the quantile at [p] of a
    distribution whose degrees of freedom are not positive. *)
Definition refuses (h : handler) (p : float64) : Prop :=
  forall dist, degenerate dist = true -> h (Quantile dist p) = None.

(** The quantile of the distribution [dist], from the quantile [y] of the
    standard distribution of its degrees of freedom: scaled by [Sigma] and
    shifted by [Mu]. *)
Definition scaled (dist : StudentsT.t) (y : float64) : float64 :=
  (y * StudentsT.Sigma dist + StudentsT.Mu dist)%float.

(** A library for the examples.  Its quantile panics on degrees of
    freedom that are not positive and is otherwise the standard quantile,
    scaled and shifted; for the standard quantile it has the critical
    values of two degrees of freedom at 0.95, 0.975 and 0.995.  Its
    survival function is 0.01 and its square is the product. *)
Definition standardQuantile (p : float64) : float64 :=
  if (p <? 0.96)%float then 2.919985580355516%float
  else if (p <? 0.98)%float then 4.302652729911275%float
  else 9.92484320091807%float.

Definition sampleLibrary : handler :=
  fun c => match c with
           | math_Pow x _ => Some (x * x)%float
           | Survival _ _ => Some 0.01%float
           | Quantile dist p =>
               if degenerate dist then None else Some (scaled dist (standardQuantile p))
           end.

(** The scenario of a baseline with a single measurement. *)
Definition oneMeasurement : list Measurement.t := [ Measurement.mk 0 100%float "a" ].

Definition twoMeasurements : list Measurement.t :=
  [ Measurement.mk 0 90%float "b"; Measurement.mk 3600 110%float "b" ].

(** ** Series, buckets and samples *)

Definition dates (ms : list Measurement.t) : list Time := map Measurement.Date ms.

(** The earliest of [t] and the instants [l], and the latest. *)
Definition earliest (t : Time) (l : list Time) : Time := fold_left Z.min l t.
Definition latest (t : Time) (l : list Time) : Time := fold_left Z.max l t.

(** The measurements of a series that fall in bucket [i] of [f]. *)
Definition bucketOf (f : Time -> Z) (i : Z) (series : TimeSeries.t) : list Measurement.t :=
  filter (inBucket f i) (TimeSeries.Measurements series).

(** Series for the examples: one of mean zero, and two of different
    means. *)
Definition zeros : list Measurement.t :=
  [ Measurement.mk 0 0%float "a"; Measurement.mk 60 0%float "a" ].

Definition slower : list Measurement.t :=
  [ Measurement.mk 0 10%float "a"; Measurement.mk 60 12%float "a";
    Measurement.mk 120 14%float "a" ].

Definition faster : list Measurement.t :=
  [ Measurement.mk 0 9%float "b"; Measurement.mk 60 8%float "b";
    Measurement.mk 120 10%float "b" ].

(** The standard error of the difference of the two means: the divisor
    of the t statistic. *)
Definition pooledError (x y : list float64) : float64 :=
  math.Sqrt (stat.Variance x / float64_of_int (len x)
             + stat.Variance y / float64_of_int (len y))%float.

(** Zero, or a number of sign [s] ([true] for negative); not NaN. *)
Definition has_sign (s : bool) (x : spec_float) : bool :=
  match x with
  | S754_zero _ => true
  | S754_infinity s' | S754_finite s' _ _ => Bool.eqb s s'
  | S754_nan => false
  end.

(** ** Reading, printing and [main] *)

(** The layout [readCSV] parses dates with. *)
Definition dateLayout : string := "2006-01-02 15:04:05".

(** A record of the file reads as the measurement [m]: its first field
    parses to the date, its second, trimmed, to the value, and its third is
    the label. *)
Definition parsesTo (w : World) (record : list string) (m : Measurement.t) : Prop :=
  exists field0 field1,
    record !! 0%nat = Some field0 /\
    time_Parse w dateLayout field0 = inl (Measurement.Date m) /\
    record !! 1%nat = Some field1 /\
    strconv_ParseFloat w (strings_TrimSpace w field1) 64 = inl (Measurement.Value m) /\
    record !! 2%nat = Some (Measurement.Label m).

(** The reader is at the end of its input: [Read] returns [io.EOF]. *)
Definition atEOF (reader : csv.Reader) : Prop :=
  match reader with
  | [] | inr io_EOF :: _ => True
  | _ => False
  end.

(** How the result [bad] of a [Read] makes [readCSV] return the error
    [err]: it is that error, or a record whose date or whose value does
    not parse. *)
Definition failsWith (w : World) (bad : list string + error) (err : error) : Prop :=
  match bad with
  | inr e => e = err /\ e <> io_EOF
  | inl record =>
      exists field0, record !! 0%nat = Some field0 /\
        match time_Parse w dateLayout field0 with
        | inr e => e = err
        | inl _ =>
            exists field1, record !! 1%nat = Some field1 /\
              strconv_ParseFloat w (strings_TrimSpace w field1) 64 = inr err
        end
  end.


(** The line of the hourly breakdown for [hour], and the line of the
    daily breakdown for the day called [name], with the text [s] for the
    difference. *)
Definition hourLine (hour : Z) (s : string) : output :=
  fmt_Printf "Hour %02d: %s\n" [ a_int hour; a_string s ].

Definition dayLine (name s : string) : output :=
  fmt_Printf "%s: %s\n" [ a_string name; a_string s ].

(** The messages of the calls of [log.Fatalf] that [main] can reach. *)
Definition reachableFatals : list string :=
  [ "Error reading CSV: %v";
    "Found %d labels in data. When more than 2 labels exist, --baseline and --experiment must be specified.\nAvailable labels: %v";
    "Specified labels not found in data. Available labels: %v" ].

(** A world for the examples.  A date is read as so many nanoseconds
    after the epoch as the field has characters, unless the field is
    ["?"]; every value is 1; the files are [data.csv] (a header and four
    records of two labels), [short.csv] (two columns), [broken.csv] (its
    second record has no date) and [empty.csv]; the options name the file
    and nothing else. *)
Definition sampleFiles (filename : string) : csv.Reader + error :=
  if String.eqb filename "data.csv" then
    inl [ inl ["date"; "value"; "label"]; inl ["a"; "1"; "base"];
          inl ["bb"; "1"; "exp"]; inl ["ccc"; "1"; "base"]; inl ["dddd"; "1"; "exp"] ]
  else if String.eqb filename "short.csv" then
    inl [ inl ["date"; "value"]; inl ["a"; "1"] ]
  else if String.eqb filename "broken.csv" then
    inl [ inl ["date"; "value"; "label"]; inl ["a"; "1"; "base"]; inl ["?"; "1"; "exp"] ]
  else if String.eqb filename "empty.csv" then inl []
  else inr (errorString "no such file").

Definition sampleWorld (filename : string) : World :=
  {| flags_Parse := inl (Options.mk "" "" 0.95%float 3%float true filename);
     os_Open := sampleFiles;
     time_Parse := fun _ s =>
       if String.eqb s "?" then inr (errorString "cannot parse")
       else inl (Z.of_nat (String.length s));
     strconv_ParseFloat := fun _ _ => inl 1%float;
     strings_TrimSpace := fun s => s;
     rangeOrder := fun keys => keys;
     time_Now := fun _ => 1000;
     os_Stdout_Stat := inl 0;
     fmt_Sprintf := fun format _ => format;
     color_Sprintf := fun _ format _ => format;
     library := sampleLibrary |}.

(** ** Binary64 rounding

    What the specification of the primitive floats ([SpecFloat]) computes
    when it rounds, written on integers, and the value of a number as a
    real; the properties of the arithmetic are stated with them. *)

(** The record after [k >= 1] shifts of an exact mantissa [m]. *)
Definition shifted (m k : Z) : shr_record :=
  Build_shr_record (m / 2 ^ k) (Z.odd (m / 2 ^ (k - 1)))
                   (negb (m mod 2 ^ (k - 1) =? 0)).

(** Rounding [m / 2 ^ n] to the nearest integer, ties to even. *)
Definition rne (m n : Z) : Z :=
  let mt := m / 2 ^ n in
  let rem := m mod 2 ^ n in
  if 2 * rem <? 2 ^ n then mt
  else if 2 * rem =? 2 ^ n then (if Z.even mt then mt else mt + 1)
  else mt + 1.

(** The exponent of the format for a number of magnitude [2 ^ e]. *)
Definition fexp64 (e : Z) : Z := fexp prec emax e.

(** The mantissa and the exponent [binary_round_aux] arrives at before
    it checks for overflow, for an exact positive input [mx * 2 ^ ex]
    that is not shorter than the format allows. *)
Definition rounded (mx ex : Z) : Z * Z :=
  let e1 := fexp64 (Zdigits2 mx + ex) in
  let mr := rne mx (e1 - ex) in
  if mr =? 2 ^ 53 then (2 ^ 52, e1 + 1) else (mr, e1).

Definition overflow_check (sx : bool) (m e : Z) : spec_float :=
  match m with
  | Z0 => S754_zero sx
  | Zpos p => if e <=? emax - prec then S754_finite sx p e else S754_infinity sx
  | Zneg _ => S754_nan
  end.

(** [binary_round] first brings the exponent down to the one of the
    format, exactly. *)
Definition aligned (mx ex : Z) : Z * Z :=
  let ez := Z.min ex (fexp64 (Zdigits2 mx + ex)) in
  (mx * 2 ^ (ex - ez), ez).

Definition round_mag (mx ex : Z) : Z * Z :=
  rounded (aligned mx ex).1 (aligned mx ex).2.

Definition bpow (e : Z) : R := powerRZ 2 e.

Definition F2R (m e : Z) : R := (IZR m * bpow e)%R.

(** The value of a number; the infinities sit at [2 ^ 1024], just beyond
    every finite number. *)
Definition xval (x : spec_float) : R :=
  match x with
  | S754_zero _ => 0%R
  | S754_nan => 0%R
  | S754_infinity s => if s then (- bpow 1024)%R else bpow 1024
  | S754_finite s m e => F2R (cond_Zopp s (Z.pos m)) e
  end.

Definition is_nan_SF (x : spec_float) : bool :=
  match x with S754_nan => true | _ => false end.

(** Zero or finite: a number with a real value. *)
Definition is_real (x : spec_float) : bool :=
  match x with
  | S754_zero _ | S754_finite _ _ _ => true
  | _ => false
  end.

Definition is_zero_SF (x : spec_float) : bool :=
  match x with S754_zero _ => true | _ => false end.

(** Positive: finite and above zero, or the positive infinity. *)
Definition is_positive_SF (x : spec_float) : bool :=
  match x with
  | S754_finite false _ _ | S754_infinity false => true
  | _ => false
  end.

(** Rounding as a function on values: to nearest, ties to even, and to
    an infinity from [2 ^ 1024] on. *)
Definition saturate (v : R) : R := Rmin v (bpow 1024).

Definition xround_mag (mx ex : Z) : R :=
  saturate (F2R (round_mag mx ex).1 (round_mag mx ex).2).

Definition xround (M e : Z) : R :=
  match M with
  | Z0 => 0%R
  | Zpos p => xround_mag (Z.pos p) e
  | Zneg p => (- xround_mag (Z.pos p) e)%R
  end.

(** A [float64] that is zero or finite, one that is not NaN, and the value
    of a [float64]. *)
Definition finite64 (x : float64) : bool := is_real (Prim2SF x).
Definition not_nan (x : float64) : bool := negb (is_nan_SF (Prim2SF x)).
Definition fval (x : float64) : R := xval (Prim2SF x).

(** * Properties *)

(** ** Binary64 rounding: mantissas and exponents *)

Lemma digits2_pos_bounds (p : positive) :
  2 ^ (Z.pos (digits2_pos p) - 1) <= Z.pos p < 2 ^ Z.pos (digits2_pos p).
Proof.
  induction p as [p IH | p IH |]; simpl digits2_pos.
  - rewrite Pos2Z.inj_succ.
    replace (Z.succ (Z.pos (digits2_pos p)) - 1) with (Z.pos (digits2_pos p) - 1 + 1) by lia.
    rewrite Z.pow_add_r by lia. rewrite Z.pow_succ_r by lia. lia.
  - rewrite Pos2Z.inj_succ.
    replace (Z.succ (Z.pos (digits2_pos p)) - 1) with (Z.pos (digits2_pos p) - 1 + 1) by lia.
    rewrite Z.pow_add_r by lia. rewrite Z.pow_succ_r by lia. lia.
  - simpl. lia.
Qed.

Lemma Zdigits2_bounds m : 0 < m -> 2 ^ (Zdigits2 m - 1) <= m < 2 ^ Zdigits2 m.
Proof. destruct m as [| p | p]; try lia. intros _. apply digits2_pos_bounds. Qed.

Lemma Zdigits2_pos m : 0 < m -> 0 < Zdigits2 m.
Proof. destruct m; simpl; lia. Qed.

Lemma Zdigits2_unique m k : 2 ^ (k - 1) <= m < 2 ^ k -> 0 < k -> Zdigits2 m = k.
Proof.
  intros [Hlo Hhi] Hk.
  assert (Hm : 0 < m) by (pose proof (Z.pow_pos_nonneg 2 (k - 1)); lia).
  pose proof (Zdigits2_bounds m Hm) as [Hlo' Hhi'].
  pose proof (Zdigits2_pos m Hm) as Hd.
  destruct (Z.lt_trichotomy (Zdigits2 m) k) as [Hlt | [Heq | Hgt]]; [| exact Heq |].
  - assert (2 ^ Zdigits2 m <= 2 ^ (k - 1)) by (apply Z.pow_le_mono_r; lia). lia.
  - assert (2 ^ k <= 2 ^ (Zdigits2 m - 1)) by (apply Z.pow_le_mono_r; lia). lia.
Qed.

Lemma Zdigits2_le m1 m2 : 0 < m1 -> m1 <= m2 -> Zdigits2 m1 <= Zdigits2 m2.
Proof.
  intros H1 H12.
  pose proof (Zdigits2_bounds m1 H1) as [Hlo1 _].
  pose proof (Zdigits2_bounds m2 ltac:(lia)) as [_ Hhi2].
  destruct (Z_lt_le_dec (Zdigits2 m2) (Zdigits2 m1)) as [Hlt | Hle]; [| exact Hle].
  assert (2 ^ Zdigits2 m2 <= 2 ^ (Zdigits2 m1 - 1)) by (apply Z.pow_le_mono_r; lia). lia.
Qed.

Lemma Zdigits2_mul_pow2 m k : 0 < m -> 0 <= k -> Zdigits2 (m * 2 ^ k) = Zdigits2 m + k.
Proof.
  intros Hm Hk. pose proof (Zdigits2_bounds m Hm) as [Hlo Hhi].
  pose proof (Zdigits2_pos m Hm).
  assert (Hp : 0 < 2 ^ k) by (apply Z.pow_pos_nonneg; lia).
  apply Zdigits2_unique; [| lia]. split.
  - replace (Zdigits2 m + k - 1) with (Zdigits2 m - 1 + k) by lia.
    rewrite Z.pow_add_r by lia. nia.
  - rewrite Z.pow_add_r by lia. nia.
Qed.

(** ** Shifting a mantissa right, with its round and sticky bits *)

Lemma iter_pos_nat {A} (f : A -> A) (p : positive) (x : A) :
  SpecFloat.iter_pos f p x = Nat.iter (Pos.to_nat p) f x.
Proof.
  revert x. induction p as [p IH | p IH |]; intros x; simpl SpecFloat.iter_pos.
  - rewrite !IH, Pos2Nat.inj_xI.
    replace (S (2 * Pos.to_nat p)) with (Pos.to_nat p + (Pos.to_nat p + 1))%nat by lia.
    rewrite !Nat.iter_add. reflexivity.
  - rewrite !IH, Pos2Nat.inj_xO.
    replace (2 * Pos.to_nat p)%nat with (Pos.to_nat p + Pos.to_nat p)%nat by lia.
    rewrite Nat.iter_add. reflexivity.
  - reflexivity.
Qed.

Lemma shr_1_nonneg m r s :
  0 <= m -> shr_1 (Build_shr_record m r s) = Build_shr_record (m / 2) (Z.odd m) (r || s).
Proof.
  intros Hm. destruct m as [| p | p]; [reflexivity | | lia].
  destruct p as [p | p |]; simpl shr_1.
  - assert (H : Z.pos p = Z.pos p~1 / 2).
    { rewrite Pos2Z.inj_xI. apply Z.div_unique with (r := 1); lia. }
    now rewrite <- H.
  - assert (H : Z.pos p = Z.pos p~0 / 2).
    { rewrite Pos2Z.inj_xO. apply Z.div_unique with (r := 0); lia. }
    now rewrite <- H.
  - reflexivity.
Qed.

Lemma shifted_step m k : 0 <= m -> 1 <= k -> shr_1 (shifted m k) = shifted m (k + 1).
Proof.
  intros Hm Hk. unfold shifted.
  assert (Hp : 0 < 2 ^ (k - 1)) by (apply Z.pow_pos_nonneg; lia).
  assert (Hpk : 2 ^ k = 2 ^ (k - 1) * 2).
  { replace k with (k - 1 + 1) at 1 by lia. rewrite Z.pow_add_r by lia. reflexivity. }
  rewrite shr_1_nonneg by (apply Z.div_pos; [lia | apply Z.pow_pos_nonneg; lia]).
  replace (k + 1 - 1) with k by lia.
  f_equal.
  - rewrite Z.div_div by (try apply Z.pow_pos_nonneg; lia).
    rewrite Z.pow_add_r by lia. reflexivity.
  - rewrite Hpk, Z.rem_mul_r by lia.
    pose proof (Z.mod_pos_bound m (2 ^ (k - 1)) Hp) as Hlow.
    pose proof (Zmod_odd (m / 2 ^ (k - 1))) as Hodd.
    destruct (Z.odd (m / 2 ^ (k - 1)));
      destruct (Z.eqb_spec (m mod 2 ^ (k - 1)) 0) as [H0 | H0]; simpl; symmetry;
      try (apply Bool.negb_true_iff; apply Z.eqb_neq);
      try (apply Bool.negb_false_iff; apply Z.eqb_eq); nia.
Qed.

Lemma shifted_iter m (j : nat) :
  0 <= m ->
  Nat.iter (S j) shr_1 (Build_shr_record m false false) = shifted m (Z.of_nat (S j)).
Proof.
  intros Hm. induction j as [| j IH].
  - rewrite Nat.iter_succ. change (Nat.iter 0 shr_1 ?x) with x.
    rewrite shr_1_nonneg by exact Hm. unfold shifted.
    change (Z.of_nat 1) with 1. change (1 - 1) with 0.
    rewrite Z.pow_0_r, Z.pow_1_r, Z.div_1_r, Z.mod_1_r. reflexivity.
  - rewrite Nat.iter_succ, IH, shifted_step by lia. f_equal. lia.
Qed.

Lemma shr_rne m e n :
  0 <= m -> 0 <= n ->
  let '(mrs, e') := shr (Build_shr_record m false false) e n in
  round_nearest_even (shr_m mrs) (loc_of_shr_record mrs) = rne m n /\
  e' = e + n /\ 0 <= shr_m mrs.
Proof.
  intros Hm Hn. destruct n as [| p | p]; [| | lia].
  - simpl. unfold rne. rewrite Z.pow_0_r, Z.div_1_r, Z.mod_1_r. simpl.
    repeat split; lia.
  - unfold shr. rewrite iter_pos_nat.
    destruct (Pos.to_nat p) as [| j] eqn:Hj; [lia |].
    rewrite shifted_iter by exact Hm.
    assert (Hp' : Z.of_nat (S j) = Z.pos p) by lia. rewrite Hp'.
    set (n := Z.pos p) in *. assert (Hn1 : 1 <= n) by lia.
    split; [| split; [reflexivity | unfold shifted; simpl; apply Z.div_pos; [lia |
      apply Z.pow_pos_nonneg; lia]]].
    unfold shifted, rne. cbn [shr_m loc_of_shr_record].
    assert (Hp : 0 < 2 ^ (n - 1)) by (apply Z.pow_pos_nonneg; lia).
    assert (Hpk : 2 ^ n = 2 ^ (n - 1) * 2).
    { replace n with (n - 1 + 1) at 1 by lia. rewrite Z.pow_add_r by lia. reflexivity. }
    rewrite Hpk, Z.rem_mul_r by lia.
    pose proof (Z.mod_pos_bound m (2 ^ (n - 1)) Hp) as Hlow.
    pose proof (Zmod_odd (m / 2 ^ (n - 1))) as Hodd. rewrite Hodd.
    generalize (m / (2 ^ (n - 1) * 2)). intros mt.
    set (low := m mod 2 ^ (n - 1)) in *. set (P := 2 ^ (n - 1)) in *.
    destruct (Z.odd (m / P)); destruct (Z.eqb_spec low 0) as [H0 | H0]; simpl negb; cbv iota;
      [ destruct (Z.ltb_spec (2 * (low + P * 1)) (P * 2));
        destruct (Z.eqb_spec (2 * (low + P * 1)) (P * 2))
      | destruct (Z.ltb_spec (2 * (low + P * 1)) (P * 2));
        destruct (Z.eqb_spec (2 * (low + P * 1)) (P * 2))
      | destruct (Z.ltb_spec (2 * (low + P * 0)) (P * 2));
        destruct (Z.eqb_spec (2 * (low + P * 0)) (P * 2))
      | destruct (Z.ltb_spec (2 * (low + P * 0)) (P * 2));
        destruct (Z.eqb_spec (2 * (low + P * 0)) (P * 2)) ];
      try lia; reflexivity.
Qed.

Section Rne.
Variables (m n : Z).
Hypotheses (Hm : 0 <= m) (Hn : 0 <= n).

Lemma rne_cases :
  let mt := m / 2 ^ n in
  let rem := m mod 2 ^ n in
  m = mt * 2 ^ n + rem /\ 0 <= rem < 2 ^ n /\ 0 <= mt /\
  ((rne m n = mt /\ 2 * rem <= 2 ^ n /\ (2 * rem = 2 ^ n -> Z.even mt = true)) \/
   (rne m n = mt + 1 /\ 2 ^ n <= 2 * rem /\ (2 * rem = 2 ^ n -> Z.even mt = false))).
Proof.
  intros mt rem.
  assert (Hpow : 0 < 2 ^ n) by (apply Z.pow_pos_nonneg; lia).
  pose proof (Z.div_mod m (2 ^ n) ltac:(lia)) as Hdm.
  pose proof (Z.mod_pos_bound m (2 ^ n) Hpow) as Hrem.
  assert (Hmt : 0 <= mt) by (apply Z.div_pos; lia).
  fold mt rem in Hdm, Hrem.
  split; [lia |]. split; [exact Hrem |]. split; [exact Hmt |].
  unfold rne. fold mt rem.
  destruct (Z.ltb_spec (2 * rem) (2 ^ n)); [left; repeat split; lia |].
  destruct (Z.eqb_spec (2 * rem) (2 ^ n)).
  - destruct (Z.even mt) eqn:Hev; [left | right]; repeat split; auto; lia.
  - right. repeat split; lia.
Qed.

Lemma rne_bounds : m / 2 ^ n <= rne m n <= m / 2 ^ n + 1.
Proof. destruct rne_cases as (_ & _ & _ & [(-> & _) | (-> & _)]); lia. Qed.

Lemma rne_le_grid K : m <= K * 2 ^ n -> rne m n <= K.
Proof.
  intros HK. destruct rne_cases as (Hdm & Hrem & Hmt & [(-> & _) | (-> & Hr & _)]); nia.
Qed.

Lemma rne_ge_grid K : K * 2 ^ n <= m -> K <= rne m n.
Proof.
  intros HK. destruct rne_cases as (Hdm & Hrem & Hmt & [(-> & _) | (-> & Hr & _)]); nia.
Qed.

Lemma rne_scale k : 0 <= k -> rne (m * 2 ^ k) (n + k) = rne m n.
Proof.
  intros Hk. unfold rne.
  assert (Hpow : 0 < 2 ^ n) by (apply Z.pow_pos_nonneg; lia).
  assert (Hpk : 0 < 2 ^ k) by (apply Z.pow_pos_nonneg; lia).
  rewrite Z.pow_add_r by lia.
  rewrite Z.div_mul_cancel_r by lia.
  rewrite Z.mul_mod_distr_r by lia.
  set (rem := m mod 2 ^ n).
  destruct (Z.ltb_spec (2 * rem) (2 ^ n));
    destruct (Z.ltb_spec (2 * (rem * 2 ^ k)) (2 ^ n * 2 ^ k));
    try (exfalso; nia); try reflexivity.
  destruct (Z.eqb_spec (2 * rem) (2 ^ n));
    destruct (Z.eqb_spec (2 * (rem * 2 ^ k)) (2 ^ n * 2 ^ k));
    try (exfalso; nia); reflexivity.
Qed.

End Rne.

Lemma rne_mono_same m1 m2 n :
  0 <= m1 -> m1 <= m2 -> 0 <= n -> rne m1 n <= rne m2 n.
Proof.
  intros H1 H12 Hn.
  destruct (rne_cases m1 n H1 Hn) as (Hd1 & Hr1 & Hq1 & Hc1).
  destruct (rne_cases m2 n ltac:(lia) Hn) as (Hd2 & Hr2 & Hq2 & Hc2).
  assert (Hp : 0 < 2 ^ n) by (apply Z.pow_pos_nonneg; lia).
  assert (Hq : m1 / 2 ^ n <= m2 / 2 ^ n) by (apply Z.div_le_mono; lia).
  destruct (Z.eq_dec (m1 / 2 ^ n) (m2 / 2 ^ n)) as [Heq | Hne].
  - rewrite Heq in *.
    destruct Hc1 as [(-> & _) | (-> & Hh1 & He1)];
      destruct Hc2 as [(-> & Hh2 & He2) | (-> & _)]; try lia.
    assert (2 * (m1 mod 2 ^ n) = 2 ^ n) by nia.
    assert (2 * (m2 mod 2 ^ n) = 2 ^ n) by nia.
    rewrite He1 in He2 by assumption. discriminate He2. assumption.
  - destruct Hc1 as [(-> & _) | (-> & _)]; destruct Hc2 as [(-> & _) | (-> & _)]; lia.
Qed.

Lemma rne_mono m1 n1 m2 n2 :
  0 <= m1 -> 0 <= m2 -> 0 <= n1 -> 0 <= n2 ->
  m1 * 2 ^ n2 <= m2 * 2 ^ n1 -> rne m1 n1 <= rne m2 n2.
Proof.
  intros H1 H2 Hn1 Hn2 Hle.
  rewrite <- (rne_scale m1 n1 Hn1 n2 Hn2), <- (rne_scale m2 n2 Hn2 n1 Hn1).
  rewrite (Z.add_comm n2 n1).
  assert (0 < 2 ^ n2) by (apply Z.pow_pos_nonneg; lia).
  apply rne_mono_same; nia.
Qed.

(** ** The binary64 format *)

Lemma fexp64_eq e : fexp64 e = Z.max (e - 53) (-1074).
Proof. reflexivity. Qed.

Lemma Pos_iter_xO (m d : positive) : Z.pos (Pos.iter xO m d) = Z.pos m * 2 ^ Z.pos d.
Proof.
  induction d as [| d IH] using Pos.peano_ind.
  - simpl. lia.
  - rewrite Pos.iter_succ, Pos2Z.inj_xO, IH, Pos2Z.inj_succ, Z.pow_succ_r by lia. lia.
Qed.

Lemma shl_align_spec (mx : positive) (ex ex' : Z) :
  let '(mz, ez) := shl_align mx ex ex' in
  ez = Z.min ex ex' /\ Z.pos mz = Z.pos mx * 2 ^ (ex - ez).
Proof.
  unfold shl_align. destruct (ex' - ex) as [| d | d] eqn:Hd.
  - split; [lia |]. replace (ex - ex) with 0 by lia. lia.
  - split; [lia |]. replace (ex - ex) with 0 by lia. lia.
  - split; [lia |]. rewrite Pos_iter_xO. f_equal. f_equal. lia.
Qed.

Lemma rne_lt_pow2 mx n k :
  0 <= mx -> 0 <= n -> 0 <= k -> mx < 2 ^ (n + k) -> rne mx n <= 2 ^ k.
Proof.
  intros Hm Hn Hk Hlt. apply rne_le_grid; try assumption.
  rewrite <- Z.pow_add_r by lia. rewrite Z.add_comm. lia.
Qed.

Lemma binary_round_aux_exact sx mx ex :
  0 < mx -> ex <= fexp64 (Zdigits2 mx + ex) ->
  binary_round_aux prec emax sx mx ex loc_Exact
  = overflow_check sx (rounded mx ex).1 (rounded mx ex).2.
Proof.
  intros Hm Hex. unfold binary_round_aux, shr_fexp, rounded.
  fold (fexp64 (Zdigits2 mx + ex)).
  set (e1 := fexp64 (Zdigits2 mx + ex)) in *.
  change (shr_record_of_loc mx loc_Exact) with (Build_shr_record mx false false).
  pose proof (shr_rne mx ex (e1 - ex) ltac:(lia) ltac:(lia)) as Hshr.
  destruct (shr _ ex (e1 - ex)) as [mrs' e'].
  destruct Hshr as (-> & -> & _).
  replace (ex + (e1 - ex)) with e1 by lia.
  set (mr := rne mx (e1 - ex)).
  pose proof (Zdigits2_bounds mx Hm) as [_ Hhi].
  pose proof (Zdigits2_pos mx Hm) as Hd.
  assert (He1 : -1074 <= e1 /\ Zdigits2 mx + ex - 53 <= e1)
    by (unfold e1; rewrite fexp64_eq; lia).
  assert (Hmr : 0 <= mr <= 2 ^ 53).
  { split.
    - pose proof (rne_bounds mx (e1 - ex) ltac:(lia) ltac:(lia)) as [Hlo _].
      assert (0 <= mx / 2 ^ (e1 - ex)) by (apply Z.div_pos; [lia | apply Z.pow_pos_nonneg; lia]).
      unfold mr. lia.
    - apply rne_lt_pow2; try lia.
      eapply Z.lt_le_trans; [exact Hhi |]. apply Z.pow_le_mono_r; lia. }
  change (shr_record_of_loc mr loc_Exact) with (Build_shr_record mr false false).
  destruct (Z.eqb_spec mr (2 ^ 53)) as [Heq | Hne].
  - rewrite Heq. change (Zdigits2 (2 ^ 53)) with 54.
    replace (fexp prec emax (54 + e1) - e1) with 1
      by (change (fexp prec emax (54 + e1)) with (fexp64 (54 + e1)); rewrite fexp64_eq; lia).
    reflexivity.
  - assert (Hn2 : fexp prec emax (Zdigits2 mr + e1) - e1 <= 0).
    { change (fexp prec emax (Zdigits2 mr + e1)) with (fexp64 (Zdigits2 mr + e1)).
      rewrite fexp64_eq.
      destruct (Z.eq_dec mr 0) as [-> | Hnz]; [simpl; lia |].
      assert (Zdigits2 mr <= 53); [| lia].
      pose proof (Zdigits2_bounds mr ltac:(lia)) as [Hlo' _].
      destruct (Z_lt_le_dec 53 (Zdigits2 mr)) as [Hgt | Hle]; [| exact Hle].
      assert (2 ^ 53 <= 2 ^ (Zdigits2 mr - 1)) by (apply Z.pow_le_mono_r; lia). lia. }
    unfold shr. destruct (fexp prec emax (Zdigits2 mr + e1) - e1); try lia; reflexivity.
Qed.

Lemma aligned_spec mx ex :
  0 < mx ->
  let '(mz, ez) := aligned mx ex in
  0 < mz /\ ez <= ex /\ mz = mx * 2 ^ (ex - ez) /\
  Zdigits2 mz + ez = Zdigits2 mx + ex /\
  ez <= fexp64 (Zdigits2 mz + ez) /\
  (-1074 <= ex -> -1074 <= ez).
Proof.
  intros Hm. unfold aligned.
  set (ez := Z.min ex (fexp64 (Zdigits2 mx + ex))).
  assert (Hez : ez <= ex) by (unfold ez; lia).
  assert (Hp : 0 < 2 ^ (ex - ez)) by (apply Z.pow_pos_nonneg; lia).
  assert (Hd : Zdigits2 (mx * 2 ^ (ex - ez)) + ez = Zdigits2 mx + ex)
    by (rewrite Zdigits2_mul_pow2; lia).
  repeat split; try lia.
  - rewrite Hd. unfold ez. lia.
  - unfold ez. rewrite fexp64_eq. lia.
Qed.

Lemma binary_round_spec sx (mx : positive) ex :
  binary_round prec emax sx mx ex
  = overflow_check sx (round_mag (Z.pos mx) ex).1 (round_mag (Z.pos mx) ex).2.
Proof.
  unfold binary_round, round_mag.
  pose proof (shl_align_spec mx ex (fexp prec emax (Z.pos (digits2_pos mx) + ex))) as Hal.
  destruct (shl_align _ _ _) as [mz ez]. destruct Hal as [Hez Hmz].
  pose proof (aligned_spec (Z.pos mx) ex ltac:(lia)) as Hsp.
  unfold aligned in *. change (Z.pos (digits2_pos mx)) with (Zdigits2 (Z.pos mx)) in Hez.
  fold (fexp64 (Zdigits2 (Z.pos mx) + ex)) in Hez. rewrite <- Hez in *.
  rewrite <- Hmz in *. cbn [fst snd] in *.
  destruct Hsp as (_ & _ & _ & _ & Hfe & _).
  apply binary_round_aux_exact; [lia | exact Hfe].
Qed.

Lemma rounded_range mz ez :
  0 < mz -> ez <= fexp64 (Zdigits2 mz + ez) ->
  let '(m, e) := rounded mz ez in
  0 <= m < 2 ^ 53 /\ -1074 <= e /\ (-1074 < e -> 2 ^ 52 <= m) /\ (-1074 <= ez -> 0 < m).
Proof.
  intros Hm Hez. unfold rounded.
  set (e1 := fexp64 (Zdigits2 mz + ez)) in *.
  pose proof (Zdigits2_bounds mz Hm) as [Hlo Hhi].
  pose proof (Zdigits2_pos mz Hm) as Hd.
  assert (He1 : -1074 <= e1 /\ Zdigits2 mz + ez - 53 <= e1 /\
                (-1074 < e1 -> e1 = Zdigits2 mz + ez - 53))
    by (unfold e1; rewrite fexp64_eq; lia).
  set (n := e1 - ez). assert (Hn : 0 <= n) by (unfold n; lia).
  assert (Hle : rne mz n <= 2 ^ 53).
  { apply rne_lt_pow2; try lia.
    eapply Z.lt_le_trans; [exact Hhi |]. apply Z.pow_le_mono_r; lia. }
  assert (Hnormal : -1074 < e1 -> 2 ^ 52 <= rne mz n).
  { intros Hgt. apply rne_ge_grid; try lia.
    rewrite <- Z.pow_add_r by lia.
    replace (52 + n) with (Zdigits2 mz - 1) by (unfold n; lia). exact Hlo. }
  assert (Hpos : -1074 <= ez -> 0 < rne mz n).
  { intros Hge. destruct (Z.eq_dec n 0) as [Hn0 | Hn0].
    - assert (H : mz * 2 ^ n <= mz) by (rewrite Hn0, Z.pow_0_r; lia).
      apply (rne_ge_grid mz n ltac:(lia) Hn) in H. lia.
    - assert (0 < 2 ^ 52) by (apply Z.pow_pos_nonneg; lia).
      assert (-1074 < e1) by (unfold n in *; lia). specialize (Hnormal H0). lia. }
  assert (H0 : 0 <= rne mz n).
  { pose proof (rne_bounds mz n ltac:(lia) Hn) as [Hb _].
    assert (0 <= mz / 2 ^ n) by (apply Z.div_pos; [lia | apply Z.pow_pos_nonneg; lia]). lia. }
  assert (H52 : 2 ^ 52 = 4503599627370496) by reflexivity.
  assert (H53 : 2 ^ 53 = 9007199254740992) by reflexivity.
  destruct (Z.eqb_spec (rne mz n) (2 ^ 53)) as [Heq | Hne].
  - repeat split; lia.
  - repeat split; try lia; auto.
Qed.

Lemma round_mag_range mx ex :
  0 < mx ->
  let '(m, e) := round_mag mx ex in
  0 <= m < 2 ^ 53 /\ -1074 <= e /\ (-1074 < e -> 2 ^ 52 <= m) /\ (-1074 <= ex -> 0 < m).
Proof.
  intros Hm. unfold round_mag.
  pose proof (aligned_spec mx ex Hm) as Hal. destruct (aligned mx ex) as [mz ez].
  destruct Hal as (Hmz & Hez & _ & _ & Hfe & Hmin). cbn [fst snd].
  pose proof (rounded_range mz ez Hmz Hfe) as Hr. destruct (rounded mz ez) as [m e].
  destruct Hr as (H1 & H2 & H3 & H4). repeat split; try lia; auto.
Qed.

(** ** Values *)

Section Values.
Local Open Scope R_scope.

Lemma bpow_pos e : 0 < bpow e.
Proof. apply powerRZ_lt. lra. Qed.

Lemma bpow_add a b : bpow (a + b) = bpow a * bpow b.
Proof. apply powerRZ_add. lra. Qed.

Lemma bpow_Z k : (0 <= k)%Z -> bpow k = IZR (2 ^ k).
Proof.
  intros Hk. unfold bpow. rewrite <- (Z2Nat.id k Hk) at 1.
  rewrite <- pow_powerRZ. rewrite pow_IZR. now rewrite Z2Nat.id.
Qed.

Lemma bpow_le a b : (a <= b)%Z -> bpow a <= bpow b.
Proof.
  intros Hab. assert (Hb : b = (a + (b - a))%Z) by lia.
  set (k := (b - a)%Z) in *. assert (Hk : (0 <= k)%Z) by (unfold k; lia).
  rewrite Hb, bpow_add, (bpow_Z k) by exact Hk.
  assert (1 <= IZR (2 ^ k)).
  { apply IZR_le. pose proof (Z.pow_pos_nonneg 2 k). lia. }
  pose proof (bpow_pos a). nra.
Qed.

Lemma bpow_lt a b : (a < b)%Z -> bpow a < bpow b.
Proof.
  intros Hab. assert (Hb : b = (a + (b - a))%Z) by lia.
  set (k := (b - a)%Z) in *. assert (Hk : (1 <= k)%Z) by (unfold k; lia).
  rewrite Hb, bpow_add, (bpow_Z k) by lia.
  assert (2 <= IZR (2 ^ k)).
  { apply IZR_le. assert (Hk1 : k = (1 + (k - 1))%Z) by lia. rewrite Hk1.
    rewrite Z.pow_add_r by lia. pose proof (Z.pow_pos_nonneg 2 (k - 1)). lia. }
  pose proof (bpow_pos a). nra.
Qed.

Lemma bpow_lt_inv a b : bpow a < bpow b -> (a < b)%Z.
Proof.
  intros H. destruct (Z_lt_le_dec a b) as [Hlt | Hge]; [exact Hlt |].
  apply bpow_le in Hge. lra.
Qed.

Lemma F2R_shift m e k : (0 <= k)%Z -> F2R (m * 2 ^ k) e = F2R m (e + k).
Proof.
  intros Hk. unfold F2R. rewrite mult_IZR, bpow_add, <- bpow_Z by exact Hk. ring.
Qed.

Lemma F2R_Z m e : (0 <= e)%Z -> F2R m e = IZR (m * 2 ^ e).
Proof. intros He. unfold F2R. rewrite mult_IZR, bpow_Z by exact He. reflexivity. Qed.

Lemma F2R_le_same m1 m2 e : F2R m1 e <= F2R m2 e <-> (m1 <= m2)%Z.
Proof.
  unfold F2R. pose proof (bpow_pos e). split.
  - intros Hle. apply le_IZR. nra.
  - intros Hle. apply IZR_le in Hle. nra.
Qed.

Lemma F2R_lt_same m1 m2 e : F2R m1 e < F2R m2 e <-> (m1 < m2)%Z.
Proof.
  unfold F2R. pose proof (bpow_pos e). split.
  - intros Hlt. apply lt_IZR. nra.
  - intros Hlt. apply IZR_lt in Hlt. nra.
Qed.

Lemma F2R_le_scale m1 e1 m2 e2 k :
  F2R m1 e1 <= F2R m2 e2 -> F2R m1 (e1 + k) <= F2R m2 (e2 + k).
Proof.
  unfold F2R. rewrite !bpow_add. pose proof (bpow_pos k). intros. nra.
Qed.

Lemma F2R_bpow k e : (0 <= k)%Z -> F2R (2 ^ k) e = bpow (k + e).
Proof. intros Hk. unfold F2R. rewrite <- bpow_Z, bpow_add by exact Hk. reflexivity. Qed.

Lemma F2R_bounds m e :
  (0 < m)%Z -> bpow (Zdigits2 m - 1 + e) <= F2R m e < bpow (Zdigits2 m + e).
Proof.
  intros Hm. pose proof (Zdigits2_bounds m Hm) as [Hlo Hhi].
  pose proof (Zdigits2_pos m Hm) as Hd.
  rewrite <- !F2R_bpow by lia. split.
  - now apply F2R_le_same.
  - now apply F2R_lt_same.
Qed.

Lemma F2R_rounded mz ez :
  let e1 := fexp64 (Zdigits2 mz + ez) in
  F2R (rounded mz ez).1 (rounded mz ez).2 = F2R (rne mz (e1 - ez)) e1.
Proof.
  intros e1. unfold rounded. fold e1.
  destruct (Z.eqb_spec (rne mz (e1 - ez)) (2 ^ 53)) as [-> | _]; [| reflexivity].
  cbn [fst snd]. rewrite !F2R_bpow by lia. f_equal. lia.
Qed.

Lemma rne_normal mz ez :
  (0 < mz)%Z -> (ez <= fexp64 (Zdigits2 mz + ez))%Z ->
  (-1074 < fexp64 (Zdigits2 mz + ez))%Z ->
  (2 ^ 52 <= rne mz (fexp64 (Zdigits2 mz + ez) - ez))%Z.
Proof.
  intros Hm Hez Hn. pose proof (Zdigits2_bounds mz Hm) as [Hlo _].
  rewrite fexp64_eq in *.
  apply rne_ge_grid; try lia.
  rewrite <- Z.pow_add_r by lia.
  replace (52 + (Z.max (Zdigits2 mz + ez - 53) (-1074) - ez))%Z
    with (Zdigits2 mz - 1)%Z by lia.
  exact Hlo.
Qed.

Lemma rounded_mono mz1 ez1 mz2 ez2 :
  (0 < mz1)%Z -> (0 < mz2)%Z ->
  (ez1 <= fexp64 (Zdigits2 mz1 + ez1))%Z -> (ez2 <= fexp64 (Zdigits2 mz2 + ez2))%Z ->
  F2R mz1 ez1 <= F2R mz2 ez2 ->
  F2R (rounded mz1 ez1).1 (rounded mz1 ez1).2 <= F2R (rounded mz2 ez2).1 (rounded mz2 ez2).2.
Proof.
  intros Hm1 Hm2 He1 He2 Hle. rewrite !F2R_rounded.
  set (g1 := (Zdigits2 mz1 + ez1)%Z) in *. set (g2 := (Zdigits2 mz2 + ez2)%Z) in *.
  pose proof (F2R_bounds mz1 ez1 Hm1) as [Hlo1 Hhi1].
  pose proof (F2R_bounds mz2 ez2 Hm2) as [Hlo2 Hhi2].
  fold g1 in Hhi1. fold g2 in Hhi2.
  assert (Hg : (g1 <= g2)%Z).
  { assert (H : bpow (Zdigits2 mz1 - 1 + ez1) < bpow g2) by lra.
    apply bpow_lt_inv in H. unfold g1. lia. }
  assert (Hf : (fexp64 g1 <= fexp64 g2)%Z) by (rewrite !fexp64_eq; lia).
  destruct (Z.eq_dec (fexp64 g1) (fexp64 g2)) as [Heq | Hne].
  - rewrite Heq. apply F2R_le_same. apply rne_mono; try lia.
    apply (F2R_le_scale _ _ _ _ (fexp64 g2 - ez1 - ez2)) in Hle.
    replace (ez1 + (fexp64 g2 - ez1 - ez2))%Z with (fexp64 g2 - ez2)%Z in Hle by lia.
    replace (ez2 + (fexp64 g2 - ez1 - ez2))%Z with (fexp64 g2 - ez1)%Z in Hle by lia.
    rewrite !F2R_Z in Hle by lia. now apply le_IZR in Hle.
  - assert (Hlt : (fexp64 g1 < fexp64 g2)%Z) by lia.
    assert (Hg2 : fexp64 g2 = (g2 - 53)%Z) by (rewrite !fexp64_eq in *; lia).
    assert (Hg12 : (g1 <= g2 - 1)%Z) by (rewrite !fexp64_eq in *; lia).
    assert (Hf1 : (-1074 <= fexp64 g1)%Z) by (rewrite fexp64_eq; lia).
    pose proof (Zdigits2_bounds mz1 Hm1) as [_ Hhi].
    pose proof (Zdigits2_pos mz1 Hm1) as Hd1.
    assert (Hr1 : (rne mz1 (fexp64 g1 - ez1) <= 2 ^ (g2 - 1 - fexp64 g1))%Z).
    { apply rne_le_grid; try lia. rewrite <- Z.pow_add_r by lia.
      apply Z.lt_le_incl. eapply Z.lt_le_trans; [exact Hhi |].
      apply Z.pow_le_mono_r; unfold g1 in *; lia. }
    assert (Hr2 : (2 ^ 52 <= rne mz2 (fexp64 g2 - ez2))%Z)
      by (apply rne_normal; fold g2; lia).
    apply (proj2 (F2R_le_same _ _ (fexp64 g1))) in Hr1.
    apply (proj2 (F2R_le_same _ _ (fexp64 g2))) in Hr2.
    rewrite F2R_bpow in Hr1, Hr2 by lia.
    replace (g2 - 1 - fexp64 g1 + fexp64 g1)%Z with (52 + fexp64 g2)%Z in Hr1 by lia.
    lra.
Qed.

Lemma F2R_aligned mx ex :
  (0 < mx)%Z -> F2R (aligned mx ex).1 (aligned mx ex).2 = F2R mx ex.
Proof.
  intros Hm. pose proof (aligned_spec mx ex Hm) as H.
  destruct (aligned mx ex) as [mz ez]. destruct H as (_ & Hez & -> & _).
  cbn [fst snd]. rewrite F2R_shift by lia. f_equal. lia.
Qed.

Lemma round_mag_mono mx1 ex1 mx2 ex2 :
  (0 < mx1)%Z -> (0 < mx2)%Z -> F2R mx1 ex1 <= F2R mx2 ex2 ->
  F2R (round_mag mx1 ex1).1 (round_mag mx1 ex1).2
  <= F2R (round_mag mx2 ex2).1 (round_mag mx2 ex2).2.
Proof.
  intros H1 H2 Hle. unfold round_mag.
  rewrite <- (F2R_aligned mx1 ex1 H1), <- (F2R_aligned mx2 ex2 H2) in Hle.
  pose proof (aligned_spec mx1 ex1 H1) as Ha1. pose proof (aligned_spec mx2 ex2 H2) as Ha2.
  destruct (aligned mx1 ex1) as [mz1 ez1]. destruct (aligned mx2 ex2) as [mz2 ez2].
  destruct Ha1 as (? & _ & _ & _ & ? & _). destruct Ha2 as (? & _ & _ & _ & ? & _).
  now apply rounded_mono.
Qed.

(** ** Floating-point numbers as extended reals *)

Lemma bounded_spec m e :
  SpecFloat.bounded prec emax m e = true ->
  fexp64 (Zdigits2 (Z.pos m) + e) = e /\ (e <= 971)%Z /\ (-1074 <= e)%Z /\
  (Zdigits2 (Z.pos m) <= 53)%Z /\ ((-1074 < e)%Z -> Zdigits2 (Z.pos m) = 53%Z).
Proof.
  unfold SpecFloat.bounded, canonical_mantissa. intros H.
  apply andb_true_iff in H as [Hc He].
  apply Z.eqb_eq in Hc. apply Z.leb_le in He.
  change (fexp prec emax ?x) with (fexp64 x) in Hc.
  change (Z.pos (digits2_pos m)) with (Zdigits2 (Z.pos m)) in Hc.
  change (emax - prec)%Z with 971%Z in He.
  split; [exact Hc |]. rewrite fexp64_eq in Hc. lia.
Qed.

Lemma F2R_opp m e : F2R (- m) e = - F2R m e.
Proof. unfold F2R. rewrite opp_IZR. ring. Qed.

Lemma F2R_pos m e : (0 < m)%Z -> 0 < F2R m e.
Proof.
  intros Hm. unfold F2R. apply IZR_lt in Hm. pose proof (bpow_pos e). nra.
Qed.

Lemma bounded_F2R m e :
  SpecFloat.bounded prec emax m e = true -> 0 < F2R (Z.pos m) e < bpow 1024.
Proof.
  intros Hb. apply bounded_spec in Hb as (_ & He & _ & Hd & _).
  split; [apply F2R_pos; lia |].
  pose proof (F2R_bounds (Z.pos m) e ltac:(lia)) as [_ Hhi].
  eapply Rlt_le_trans; [exact Hhi |]. apply bpow_le. lia.
Qed.

Lemma bounded_compare m1 e1 m2 e2 :
  SpecFloat.bounded prec emax m1 e1 = true -> SpecFloat.bounded prec emax m2 e2 = true ->
  match (e1 ?= e2)%Z with
  | Lt => F2R (Z.pos m1) e1 < F2R (Z.pos m2) e2
  | Gt => F2R (Z.pos m2) e2 < F2R (Z.pos m1) e1
  | Eq => match Pos.compare_cont Eq m1 m2 with
          | Lt => F2R (Z.pos m1) e1 < F2R (Z.pos m2) e2
          | Gt => F2R (Z.pos m2) e2 < F2R (Z.pos m1) e1
          | Eq => F2R (Z.pos m1) e1 = F2R (Z.pos m2) e2
          end
  end.
Proof.
  intros Hb1 Hb2.
  apply bounded_spec in Hb1 as (_ & _ & Hmin1 & Hd1 & Hn1).
  apply bounded_spec in Hb2 as (_ & _ & Hmin2 & Hd2 & Hn2).
  pose proof (F2R_bounds (Z.pos m1) e1 ltac:(lia)) as [Hlo1 Hhi1].
  pose proof (F2R_bounds (Z.pos m2) e2 ltac:(lia)) as [Hlo2 Hhi2].
  destruct (Z.compare_spec e1 e2) as [-> | Hlt | Hgt].
  - change (Pos.compare_cont Eq m1 m2) with (Z.pos m1 ?= Z.pos m2)%Z.
    destruct (Z.compare_spec (Z.pos m1) (Z.pos m2)) as [Heq | Hlt | Hgt].
    + now rewrite Heq.
    + now apply F2R_lt_same.
    + now apply F2R_lt_same.
  - rewrite Hn2 in Hlo2 by lia.
    eapply Rlt_le_trans; [exact Hhi1 |]. eapply Rle_trans; [| exact Hlo2].
    apply bpow_le. lia.
  - rewrite Hn1 in Hlo1 by lia.
    eapply Rlt_le_trans; [exact Hhi2 |]. eapply Rle_trans; [| exact Hlo1].
    apply bpow_le. lia.
Qed.

Lemma xval_finite s m e :
  xval (S754_finite s m e) = if s then - F2R (Z.pos m) e else F2R (Z.pos m) e.
Proof. destruct s; [apply (F2R_opp (Z.pos m)) | reflexivity]. Qed.

Lemma SFcompare_xval x y :
  valid_binary x = true -> valid_binary y = true ->
  is_nan_SF x = false -> is_nan_SF y = false ->
  match SFcompare x y with
  | Some Lt => xval x < xval y
  | Some Eq => xval x = xval y
  | Some Gt => xval y < xval x
  | None => False
  end.
Proof.
  intros Hx Hy Hnx Hny. pose proof (bpow_pos 1024) as HB.
  destruct x as [sx | sx | | sx mx ex]; try discriminate;
    destruct y as [sy | sy | | sy my ey]; try discriminate;
    cbn [SpecFloat.valid_binary] in Hx, Hy;
    try (pose proof (bounded_F2R _ _ Hx) as Hvx);
    try (pose proof (bounded_F2R _ _ Hy) as Hvy);
    rewrite ?xval_finite; cbn [xval SFcompare].
  - reflexivity.
  - destruct sy; lra.
  - destruct sy; lra.
  - destruct sx; lra.
  - destruct sx, sy; lra.
  - destruct sx, sy; lra.
  - destruct sx; lra.
  - destruct sx, sy; lra.
  - pose proof (bounded_compare mx ex my ey Hx Hy) as Hc.
    destruct sx, sy; try lra;
      destruct (ex ?= ey)%Z; try lra;
      destruct (Pos.compare_cont Eq mx my); cbn [CompOpp]; lra.
Qed.

Lemma SFle_xval x y :
  valid_binary x = true -> valid_binary y = true ->
  is_nan_SF x = false -> is_nan_SF y = false ->
  (SFleb x y = true <-> xval x <= xval y).
Proof.
  intros Hx Hy Hnx Hny. pose proof (SFcompare_xval x y Hx Hy Hnx Hny) as H.
  unfold SFleb. destruct (SFcompare x y) as [[| |] |]; try contradiction;
    split; intros; try reflexivity; try discriminate; lra.
Qed.

Lemma SFlt_xval x y :
  valid_binary x = true -> valid_binary y = true ->
  is_nan_SF x = false -> is_nan_SF y = false ->
  (SFltb x y = true <-> xval x < xval y).
Proof.
  intros Hx Hy Hnx Hny. pose proof (SFcompare_xval x y Hx Hy Hnx Hny) as H.
  unfold SFltb. destruct (SFcompare x y) as [[| |] |]; try contradiction;
    split; intros; try reflexivity; try discriminate; lra.
Qed.

(** ** Rounding, as a function on values *)

Lemma saturate_mono v w : v <= w -> saturate v <= saturate w.
Proof. intros H. unfold saturate. apply Rle_min_compat_r. exact H. Qed.

Lemma saturate_nonneg v : 0 <= v -> 0 <= saturate v.
Proof. intros H. unfold saturate. pose proof (bpow_pos 1024). apply Rmin_glb; lra. Qed.

Lemma xval_overflow_check sx m e :
  (0 <= m < 2 ^ 53)%Z -> ((-1074 < e)%Z -> (2 ^ 52 <= m)%Z) ->
  xval (overflow_check sx m e)
  = if sx then - saturate (F2R m e) else saturate (F2R m e).
Proof.
  intros Hm Hn. pose proof (bpow_pos 1024) as HB. unfold saturate.
  destruct m as [| p | p]; [| | lia].
  - cbn [overflow_check xval]. unfold F2R. rewrite Rmult_0_l, Rmin_left by lra.
    destruct sx; lra.
  - cbn [overflow_check]. change (emax - prec)%Z with 971%Z.
    destruct (Z.leb_spec e 971) as [Hle | Hgt].
    + rewrite xval_finite, Rmin_left; [reflexivity |].
      apply Rlt_le. apply Rlt_le_trans with (F2R (2 ^ 53) e).
      * apply F2R_lt_same. lia.
      * rewrite F2R_bpow by lia. apply bpow_le. lia.
    + cbn [xval]. rewrite Rmin_right; [reflexivity |].
      apply Rle_trans with (F2R (2 ^ 52) e).
      * rewrite F2R_bpow by lia. apply bpow_le. lia.
      * apply F2R_le_same. apply Hn. lia.
Qed.

Lemma xval_binary_round sx mx ex :
  xval (binary_round prec emax sx mx ex)
  = if sx then - xround_mag (Z.pos mx) ex else xround_mag (Z.pos mx) ex.
Proof.
  rewrite binary_round_spec.
  pose proof (round_mag_range (Z.pos mx) ex ltac:(lia)) as H.
  unfold xround_mag. destruct (round_mag (Z.pos mx) ex) as [m e].
  destruct H as (H1 & _ & H3 & _). cbn [fst snd]. now apply xval_overflow_check.
Qed.

Lemma xval_binary_normalize M e szero :
  xval (binary_normalize prec emax M e szero) = xround M e.
Proof.
  destruct M as [| p | p]; cbn [binary_normalize xround];
    [reflexivity | apply (xval_binary_round false) | apply (xval_binary_round true)].
Qed.

Lemma xround_mag_nonneg mx ex : (0 < mx)%Z -> 0 <= xround_mag mx ex.
Proof.
  intros Hm. unfold xround_mag. apply saturate_nonneg.
  pose proof (round_mag_range mx ex Hm) as H.
  destruct (round_mag mx ex) as [m e]. destruct H as ([H _] & _). cbn [fst snd].
  unfold F2R. apply IZR_le in H. pose proof (bpow_pos e). nra.
Qed.

Lemma xround_mag_mono mx1 ex1 mx2 ex2 :
  (0 < mx1)%Z -> (0 < mx2)%Z -> F2R mx1 ex1 <= F2R mx2 ex2 ->
  xround_mag mx1 ex1 <= xround_mag mx2 ex2.
Proof. intros. unfold xround_mag. apply saturate_mono. now apply round_mag_mono. Qed.

Lemma F2R_sign M e :
  match M with
  | Z0 => F2R M e = 0
  | Zpos _ => 0 < F2R M e
  | Zneg p => F2R M e = - F2R (Z.pos p) e /\ 0 < F2R (Z.pos p) e
  end.
Proof.
  destruct M as [| p | p].
  - unfold F2R. ring.
  - apply F2R_pos. lia.
  - split; [apply (F2R_opp (Z.pos p)) | apply F2R_pos; lia].
Qed.

Lemma xround_mono M1 e1 M2 e2 :
  F2R M1 e1 <= F2R M2 e2 -> xround M1 e1 <= xround M2 e2.
Proof.
  intros Hle. pose proof (F2R_sign M1 e1) as H1. pose proof (F2R_sign M2 e2) as H2.
  destruct M1 as [| p1 | p1]; destruct M2 as [| p2 | p2]; cbn [xround];
    try (pose proof (xround_mag_nonneg (Z.pos p1) e1 ltac:(lia)));
    try (pose proof (xround_mag_nonneg (Z.pos p2) e2 ltac:(lia)));
    try lra.
  - apply xround_mag_mono; try lia. exact Hle.
  - destruct H1 as [H1 ?], H2 as [H2 ?].
    assert (xround_mag (Z.pos p2) e2 <= xround_mag (Z.pos p1) e1)
      by (apply xround_mag_mono; try lia; lra).
    lra.
Qed.

(** Rounding a number of the format gives the number back. *)
Lemma round_mag_bounded m e :
  SpecFloat.bounded prec emax m e = true -> round_mag (Z.pos m) e = (Z.pos m, e).
Proof.
  intros Hb. apply bounded_spec in Hb as (Hc & _ & _ & Hd & _).
  unfold round_mag, aligned. rewrite Hc, Z.min_id, Z.sub_diag, Z.pow_0_r, Z.mul_1_r.
  cbn [fst snd]. unfold rounded. rewrite Hc, Z.sub_diag.
  assert (Hr : rne (Z.pos m) 0 = Z.pos m).
  { unfold rne. rewrite Z.pow_0_r, Z.div_1_r, Z.mod_1_r. reflexivity. }
  rewrite Hr.
  pose proof (Zdigits2_bounds (Z.pos m) ltac:(lia)) as [_ Hhi].
  assert (2 ^ Zdigits2 (Z.pos m) <= 2 ^ 53)%Z by (apply Z.pow_le_mono_r; lia).
  destruct (Z.eqb_spec (Z.pos m) (2 ^ 53)); [lia | reflexivity].
Qed.

Lemma xround_bounded s m e :
  SpecFloat.bounded prec emax m e = true ->
  xround (cond_Zopp s (Z.pos m)) e = xval (S754_finite s m e).
Proof.
  intros Hb. rewrite xval_finite.
  assert (Hm : xround_mag (Z.pos m) e = F2R (Z.pos m) e).
  { unfold xround_mag. rewrite (round_mag_bounded m e Hb). cbn [fst snd].
    unfold saturate. apply Rmin_left. pose proof (bounded_F2R m e Hb). lra. }
  destruct s.
  - change (cond_Zopp true (Z.pos m)) with (Z.neg m). cbn [xround]. now rewrite Hm.
  - change (cond_Zopp false (Z.pos m)) with (Z.pos m). cbn [xround]. now rewrite Hm.
Qed.

(** ** Addition and subtraction *)

Lemma F2R_add a b e : F2R (a + b) e = F2R a e + F2R b e.
Proof. unfold F2R. rewrite plus_IZR. ring. Qed.

Lemma F2R_cond_Zopp s m e : F2R (cond_Zopp s m) e = if s then - F2R m e else F2R m e.
Proof. destruct s; [apply F2R_opp | reflexivity]. Qed.

Lemma F2R_shl_align mx ex ez :
  (ez <= ex)%Z -> F2R (Z.pos (shl_align mx ex ez).1) ez = F2R (Z.pos mx) ex.
Proof.
  intros Hez. pose proof (shl_align_spec mx ex ez) as H.
  destruct (shl_align mx ex ez) as [mz ez']. cbn [fst]. destruct H as [Hez' ->].
  assert (ez' = ez) by lia. subst ez'.
  rewrite F2R_shift by lia. f_equal. lia.
Qed.

Lemma binary_normalize_not_nan M e szero :
  is_nan_SF (binary_normalize prec emax M e szero) = false.
Proof.
  assert (H : forall s p, is_nan_SF (binary_round prec emax s p e) = false).
  { intros s p. rewrite binary_round_spec.
    pose proof (round_mag_range (Z.pos p) e ltac:(lia)) as Hr.
    destruct (round_mag (Z.pos p) e) as [m e']. destruct Hr as ([Hm _] & _).
    cbn [fst snd]. destruct m as [| q | q]; [reflexivity | | lia].
    cbn [overflow_check]. now destruct (_ <=? _)%Z. }
  destruct M; cbn [binary_normalize]; [reflexivity | apply H | apply H].
Qed.

Lemma SFadd_real x y :
  valid_binary x = true -> valid_binary y = true ->
  is_real x = true -> is_real y = true ->
  is_nan_SF (SFadd prec emax x y) = false /\
  exists M e, F2R M e = xval x + xval y /\ xval (SFadd prec emax x y) = xround M e.
Proof.
  intros Hx Hy Hrx Hry.
  destruct x as [sx | sx | | sx mx ex]; try discriminate;
    destruct y as [sy | sy | | sy my ey]; try discriminate;
    cbn [SpecFloat.valid_binary] in Hx, Hy.
  - split; [now destruct sx, sy |].
    exists 0%Z, 0%Z. split; [cbn [xval]; unfold F2R; ring | now destruct sx, sy].
  - cbn [SFadd]. split; [reflexivity |].
    exists (cond_Zopp sy (Z.pos my)), ey. rewrite xround_bounded by exact Hy.
    split; [cbn [xval]; ring | reflexivity].
  - cbn [SFadd]. split; [reflexivity |].
    exists (cond_Zopp sx (Z.pos mx)), ex. rewrite xround_bounded by exact Hx.
    split; [cbn [xval]; ring | reflexivity].
  - cbn [SFadd]. split; [apply binary_normalize_not_nan |].
    eexists _, _. split; [| apply xval_binary_normalize].
    rewrite F2R_add, !F2R_cond_Zopp, !F2R_shl_align by lia.
    rewrite !xval_finite. reflexivity.
Qed.

Lemma xval_real_lt x :
  valid_binary x = true -> is_real x = true -> - bpow 1024 < xval x < bpow 1024.
Proof.
  intros Hx Hr. pose proof (bpow_pos 1024).
  destruct x as [s | s | | s m e]; try discriminate; cbn [xval]; try lra.
  cbn [SpecFloat.valid_binary] in Hx. apply bounded_F2R in Hx.
  rewrite F2R_cond_Zopp. destruct s; lra.
Qed.

(** For a number [x] with a real value, [x + y] is monotone in [y]. *)
Lemma SFadd_mono_r x y1 y2 :
  valid_binary x = true -> valid_binary y1 = true -> valid_binary y2 = true ->
  is_real x = true -> SFleb y1 y2 = true ->
  is_nan_SF (SFadd prec emax x y1) = false /\
  is_nan_SF (SFadd prec emax x y2) = false /\
  xval (SFadd prec emax x y1) <= xval (SFadd prec emax x y2).
Proof.
  intros Hx Hy1 Hy2 Hrx Hle.
  assert (Hn1 : is_nan_SF y1 = false) by (now destruct y1 as [| | |]; try destruct y2).
  assert (Hn2 : is_nan_SF y2 = false).
  { destruct y2; try reflexivity. unfold SFleb in Hle. now destruct y1. }
  apply SFle_xval in Hle; try assumption.
  pose proof (bpow_pos 1024) as HB.
  destruct (is_real y1) eqn:Hr1; destruct (is_real y2) eqn:Hr2.
  - destruct (SFadd_real x y1 Hx Hy1 Hrx Hr1) as (Hnan1 & M1 & e1 & Hv1 & ->).
    destruct (SFadd_real x y2 Hx Hy2 Hrx Hr2) as (Hnan2 & M2 & e2 & Hv2 & ->).
    repeat split; try assumption. apply xround_mono. lra.
  - destruct (SFadd_real x y1 Hx Hy1 Hrx Hr1) as (Hnan1 & M1 & e1 & Hv1 & Hs1).
    pose proof (xval_real_lt y1 Hy1 Hr1) as Hlt1.
    destruct y2 as [| s2 | |]; try discriminate.
    destruct s2; [cbn [xval] in Hle; lra |].
    assert (Ha : SFadd prec emax x (S754_infinity false) = S754_infinity false)
      by (now destruct x).
    rewrite Ha. repeat split; try assumption.
    rewrite Hs1. cbn [xval].
    destruct M1 as [| p | p]; cbn [xround]; unfold xround_mag, saturate.
    + lra.
    + apply Rmin_r.
    + pose proof (xround_mag_nonneg (Z.pos p) e1 ltac:(lia)) as Hnn.
      unfold xround_mag, saturate in Hnn. lra.
  - destruct (SFadd_real x y2 Hx Hy2 Hrx Hr2) as (Hnan2 & M2 & e2 & Hv2 & Hs2).
    pose proof (xval_real_lt y2 Hy2 Hr2) as Hlt2.
    destruct y1 as [| s1 | |]; try discriminate.
    destruct s1; [| cbn [xval] in Hle; lra].
    assert (Ha : SFadd prec emax x (S754_infinity true) = S754_infinity true)
      by (now destruct x).
    rewrite Ha. repeat split; try assumption.
    rewrite Hs2. cbn [xval].
    destruct M2 as [| p | p]; cbn [xround]; unfold xround_mag, saturate.
    + lra.
    + pose proof (xround_mag_nonneg (Z.pos p) e2 ltac:(lia)) as Hnn.
      unfold xround_mag, saturate in Hnn. lra.
    + pose proof (Rmin_r (F2R (round_mag (Z.pos p) e2).1 (round_mag (Z.pos p) e2).2)
                    (bpow 1024)). lra.
  - destruct y1 as [| s1 | |]; try discriminate.
    destruct y2 as [| s2 | |]; try discriminate.
    assert (Ha : forall s, SFadd prec emax x (S754_infinity s) = S754_infinity s)
      by (intros s; now destruct x).
    rewrite !Ha. repeat split; try reflexivity. exact Hle.
Qed.

Lemma SFsub_SFadd x y : SFsub prec emax x y = SFadd prec emax x (SFopp y).
Proof.
  destruct x as [sx | sx | | sx mx ex]; destruct y as [sy | sy | | sy my ey];
    try reflexivity; now destruct sx, sy.
Qed.

Lemma xval_SFopp x : xval (SFopp x) = - xval x.
Proof.
  destruct x as [s | s | | s m e]; cbn [SFopp xval]; try lra.
  - destruct s; cbn [negb]; lra.
  - rewrite !F2R_cond_Zopp. destruct s; cbn [negb]; lra.
Qed.

Lemma valid_SFopp x : valid_binary (SFopp x) = valid_binary x.
Proof. now destruct x. Qed.

Lemma is_nan_SFopp x : is_nan_SF (SFopp x) = is_nan_SF x.
Proof. now destruct x. Qed.

Lemma SFleb_not_nan x y :
  SFleb x y = true -> is_nan_SF x = false /\ is_nan_SF y = false.
Proof.
  unfold SFleb. destruct x as [| | |]; destruct y as [| | |]; try discriminate; auto.
Qed.

Lemma SFleb_SFopp x y :
  valid_binary x = true -> valid_binary y = true ->
  SFleb x y = true -> SFleb (SFopp y) (SFopp x) = true.
Proof.
  intros Hx Hy Hle. destruct (SFleb_not_nan x y Hle) as [Hnx Hny].
  apply SFle_xval in Hle; try assumption.
  apply SFle_xval; rewrite ?valid_SFopp, ?is_nan_SFopp; try assumption.
  rewrite !xval_SFopp. lra.
Qed.

(** ** Multiplication *)

Lemma Zdigits2_mul m1 m2 :
  (0 < m1)%Z -> (0 < m2)%Z -> (Zdigits2 m1 + Zdigits2 m2 - 1 <= Zdigits2 (m1 * m2))%Z.
Proof.
  intros H1 H2.
  pose proof (Zdigits2_bounds m1 H1) as [Hlo1 _].
  pose proof (Zdigits2_bounds m2 H2) as [Hlo2 _].
  pose proof (Zdigits2_pos m1 H1). pose proof (Zdigits2_pos m2 H2).
  assert (Hp : (2 ^ (Zdigits2 m1 + Zdigits2 m2 - 2) <= m1 * m2)%Z).
  { replace (Zdigits2 m1 + Zdigits2 m2 - 2)%Z
      with ((Zdigits2 m1 - 1) + (Zdigits2 m2 - 1))%Z by lia.
    rewrite Z.pow_add_r by lia.
    assert (0 < 2 ^ (Zdigits2 m1 - 1))%Z by (apply Z.pow_pos_nonneg; lia).
    assert (0 < 2 ^ (Zdigits2 m2 - 1))%Z by (apply Z.pow_pos_nonneg; lia).
    nia. }
  assert (Hd : Zdigits2 (2 ^ (Zdigits2 m1 + Zdigits2 m2 - 2))
               = (Zdigits2 m1 + Zdigits2 m2 - 1)%Z).
  { apply Zdigits2_unique; [| lia]. split.
    - apply Z.pow_le_mono_r; lia.
    - apply Z.pow_lt_mono_r; lia. }
  rewrite <- Hd. apply Zdigits2_le; [apply Z.pow_pos_nonneg; lia | exact Hp].
Qed.

Lemma aligned_id mx ex :
  (ex <= fexp64 (Zdigits2 mx + ex))%Z -> aligned mx ex = (mx, ex).
Proof.
  intros H. unfold aligned. rewrite Z.min_l by exact H.
  now rewrite Z.sub_diag, Z.pow_0_r, Z.mul_1_r.
Qed.

Lemma SFmul_real x y :
  valid_binary x = true -> valid_binary y = true ->
  is_real x = true -> is_real y = true ->
  is_nan_SF (SFmul prec emax x y) = false /\
  exists M e, F2R M e = xval x * xval y /\ xval (SFmul prec emax x y) = xround M e.
Proof.
  intros Hx Hy Hrx Hry.
  destruct x as [sx | sx | | sx mx ex]; try discriminate;
    destruct y as [sy | sy | | sy my ey]; try discriminate;
    cbn [SpecFloat.valid_binary] in Hx, Hy;
    try (split; [reflexivity |]; exists 0%Z, 0%Z; cbn [SFmul xval xround];
         split; [unfold F2R; ring | reflexivity]).
  cbn [SFmul].
  pose proof (bounded_spec mx ex Hx) as (Hcx & _ & Hminx & Hdx & Hnx).
  pose proof (bounded_spec my ey Hy) as (Hcy & _ & Hminy & Hdy & Hny).
  pose proof (Zdigits2_mul (Z.pos mx) (Z.pos my) ltac:(lia) ltac:(lia)) as Hd.
  pose proof (Zdigits2_pos (Z.pos mx) ltac:(lia)) as Hpx.
  pose proof (Zdigits2_pos (Z.pos my) ltac:(lia)) as Hpy.
  assert (Hal : (ex + ey <= fexp64 (Zdigits2 (Z.pos mx * Z.pos my) + (ex + ey)))%Z).
  { rewrite fexp64_eq.
    destruct (Z_lt_le_dec (-1074) ex) as [Hx1 | Hx1];
      destruct (Z_lt_le_dec (-1074) ey) as [Hy1 | Hy1];
      try rewrite (Hnx Hx1) in *; try rewrite (Hny Hy1) in *; lia. }
  change (Z.pos (mx * my)) with (Z.pos mx * Z.pos my)%Z.
  rewrite binary_round_aux_exact by (try exact Hal; lia).
  pose proof (round_mag_range (Z.pos mx * Z.pos my) (ex + ey) ltac:(lia)) as Hr.
  assert (Hrm : round_mag (Z.pos mx * Z.pos my) (ex + ey)
                = rounded (Z.pos mx * Z.pos my) (ex + ey))
    by (unfold round_mag; now rewrite aligned_id).
  rewrite Hrm in Hr.
  destruct (rounded (Z.pos mx * Z.pos my) (ex + ey)) as [m e] eqn:Hrd.
  destruct Hr as (Hm & _ & Hn & _). cbn [fst snd].
  split.
  - destruct m as [| q | q]; [reflexivity | | lia].
    cbn [overflow_check]. now destruct (_ <=? _)%Z.
  - exists (cond_Zopp (xorb sx sy) (Z.pos mx * Z.pos my)), (ex + ey)%Z. split.
    + rewrite !xval_finite, F2R_cond_Zopp. unfold F2R.
      rewrite mult_IZR, bpow_add. destruct sx, sy; cbn [xorb]; ring.
    + rewrite xval_overflow_check by assumption.
      assert (Hxm : xround_mag (Z.pos mx * Z.pos my) (ex + ey) = saturate (F2R m e))
        by (unfold xround_mag; now rewrite Hrm).
      destruct (xorb sx sy).
      * change (cond_Zopp true (Z.pos mx * Z.pos my)) with (Z.neg (mx * my)).
        cbn [xround]. change (Z.pos (mx * my)) with (Z.pos mx * Z.pos my)%Z.
        now rewrite Hxm.
      * change (cond_Zopp false (Z.pos mx * Z.pos my)) with (Z.pos (mx * my)).
        cbn [xround]. change (Z.pos (mx * my)) with (Z.pos mx * Z.pos my)%Z.
        now rewrite Hxm.
Qed.

Lemma xround_exact M e x :
  valid_binary x = true -> is_real x = true -> F2R M e = xval x -> xround M e = xval x.
Proof.
  intros Hx Hr Hv.
  destruct x as [s | s | | s m ex]; try discriminate; cbn [SpecFloat.valid_binary] in Hx.
  - cbn [xval] in *. pose proof (F2R_sign M e) as Hs.
    destruct M as [| p | p]; [reflexivity | lra | lra].
  - rewrite <- (xround_bounded s m ex Hx). cbn [xval] in Hv.
    apply Rle_antisym; apply xround_mono; lra.
Qed.

(** ** float64 *)

Local Open Scope float_scope.

Lemma finite64_not_nan x : finite64 x = true -> not_nan x = true.
Proof. unfold finite64, not_nan. now destruct (Prim2SF x). Qed.

Lemma leb_fval x y :
  (x <=? y) = true <-> not_nan x = true /\ not_nan y = true /\ (fval x <= fval y)%R.
Proof.
  rewrite FloatAxioms.leb_spec. unfold not_nan, fval. split.
  - intros H. destruct (SFleb_not_nan _ _ H) as [Hx Hy]. rewrite Hx, Hy.
    repeat split. now apply SFle_xval; try apply Prim2SF_valid.
  - intros (Hx & Hy & H). apply negb_true_iff in Hx, Hy.
    now apply SFle_xval; try apply Prim2SF_valid.
Qed.

Lemma ltb_fval x y :
  (x <? y) = true <-> not_nan x = true /\ not_nan y = true /\ (fval x < fval y)%R.
Proof.
  rewrite FloatAxioms.ltb_spec. unfold not_nan, fval. split.
  - intros H.
    assert (Hn : is_nan_SF (Prim2SF x) = false /\ is_nan_SF (Prim2SF y) = false).
    { unfold SFltb in H. destruct (Prim2SF x) as [| | |]; destruct (Prim2SF y) as [| | |];
        try discriminate; auto. }
    destruct Hn as [Hx Hy]. rewrite Hx, Hy.
    repeat split. now apply SFlt_xval; try apply Prim2SF_valid.
  - intros (Hx & Hy & H). apply negb_true_iff in Hx, Hy.
    now apply SFlt_xval; try apply Prim2SF_valid.
Qed.

Lemma add_mono_r x y1 y2 :
  finite64 x = true -> (y1 <=? y2) = true -> (x + y1 <=? x + y2) = true.
Proof.
  intros Hx Hle. rewrite FloatAxioms.leb_spec in Hle.
  apply leb_fval. unfold not_nan, fval. rewrite !FloatAxioms.add_spec.
  destruct (SFadd_mono_r (Prim2SF x) (Prim2SF y1) (Prim2SF y2)) as (H1 & H2 & H);
    try apply Prim2SF_valid; try assumption.
  unfold SF64add. now rewrite H1, H2.
Qed.

Lemma opp_mono x y : (x <=? y) = true -> (- y <=? - x) = true.
Proof.
  rewrite !FloatAxioms.leb_spec, !FloatAxioms.opp_spec.
  apply SFleb_SFopp; apply Prim2SF_valid.
Qed.

Lemma sub_add_opp x y : x - y = x + - y.
Proof.
  apply Prim2SF_inj.
  rewrite FloatAxioms.sub_spec, FloatAxioms.add_spec, FloatAxioms.opp_spec.
  apply SFsub_SFadd.
Qed.

Lemma sub_mono_r x y1 y2 :
  finite64 x = true -> (y1 <=? y2) = true -> (x - y2 <=? x - y1) = true.
Proof.
  intros Hx Hle. rewrite !sub_add_opp. apply add_mono_r; [exact Hx |].
  now apply opp_mono.
Qed.

Lemma mul_mono_l t1 t2 s :
  finite64 t1 = true -> finite64 t2 = true -> finite64 s = true ->
  (0 <=? s) = true -> (t1 <=? t2) = true -> (t1 * s <=? t2 * s) = true.
Proof.
  intros H1 H2 Hs Hs0 Hle.
  apply leb_fval in Hs0 as (_ & _ & Hs0). apply leb_fval in Hle as (_ & _ & Hle).
  change (fval 0) with 0%R in Hs0.
  apply leb_fval. unfold not_nan, fval in *. rewrite !FloatAxioms.mul_spec.
  destruct (SFmul_real (Prim2SF t1) (Prim2SF s)) as (Hn1 & M1 & e1 & Hv1 & Hr1);
    try apply Prim2SF_valid; try assumption.
  destruct (SFmul_real (Prim2SF t2) (Prim2SF s)) as (Hn2 & M2 & e2 & Hv2 & Hr2);
    try apply Prim2SF_valid; try assumption.
  unfold SF64mul. rewrite Hn1, Hn2, Hr1, Hr2. repeat split.
  apply xround_mono. nra.
Qed.

Lemma fval_add_zero x : finite64 x = true -> fval (x + 0) = fval x.
Proof.
  intros Hx. unfold fval. rewrite FloatAxioms.add_spec. unfold SF64add.
  destruct (SFadd_real (Prim2SF x) (Prim2SF 0)) as (_ & M & e & Hv & ->);
    try apply Prim2SF_valid; try assumption; [reflexivity |].
  apply xround_exact; [apply Prim2SF_valid | exact Hx |].
  rewrite Hv. change (xval (Prim2SF 0)) with 0%R. lra.
Qed.

(** A margin that is not negative leaves the centre inside the interval. *)
Lemma centre_in_interval x g :
  finite64 x = true -> (0 <=? g) = true ->
  (x - g <=? x) = true /\ (x <=? x + g) = true.
Proof.
  intros Hx Hg.
  pose proof (add_mono_r x 0 g Hx Hg) as Hadd.
  pose proof (sub_mono_r x 0 g Hx Hg) as Hsub.
  apply leb_fval in Hadd as (_ & Hn2 & Hadd).
  apply leb_fval in Hsub as (Hn1 & _ & Hsub).
  assert (Hz : fval (x - 0) = fval x).
  { rewrite sub_add_opp. change (- 0) with (-0)%float.
    unfold fval. rewrite FloatAxioms.add_spec. unfold SF64add.
    destruct (SFadd_real (Prim2SF x) (Prim2SF (-0))) as (_ & M & e & Hv & ->);
      try apply Prim2SF_valid; try assumption; [reflexivity |].
    apply xround_exact; [apply Prim2SF_valid | exact Hx |].
    rewrite Hv. change (xval (Prim2SF (-0))) with 0%R. lra. }
  rewrite fval_add_zero in Hadd by exact Hx. rewrite Hz in Hsub.
  pose proof (finite64_not_nan x Hx) as Hnx.
  split; apply leb_fval; auto.
Qed.

End Values.

(** ** Running a program *)

Section Run.
Context {A B : Type}.
Implicit Types (h : handler) (p : Prog A) (f : A -> Prog B).

Lemma run_bind h p f : run h (p ≫= f) = run h p ≫= (fun a => run h (f a)).
Proof.
  unfold mbind at 1, Prog_bind.
  induction p as [a | c k IH]; simpl; [reflexivity |].
  destruct (h c); simpl; [apply IH | reflexivity].
Qed.

Lemma run_bind_Some h p f b :
  run h (p ≫= f) = Some b <-> exists a, run h p = Some a /\ run h (f a) = Some b.
Proof.
  rewrite run_bind. destruct (run h p) as [a |]; simpl.
  - split; [eauto | intros (a' & [= <-] & ?); assumption].
  - split; [discriminate | intros (? & [=] & _)].
Qed.

Lemma calls_bind h p f :
  calls h (p ≫= f) =
  calls h p ++ match run h p with Some a => calls h (f a) | None => [] end.
Proof.
  unfold mbind, Prog_bind.
  induction p as [a | c k IH]; simpl; [reflexivity |].
  destruct (h c); simpl; [now rewrite IH | reflexivity].
Qed.

End Run.

Lemma run_invoke h c : run h (invoke c) = h c.
Proof. unfold invoke; simpl. now destruct (h c). Qed.

(** A library that answers every call lets every program finish. *)
Lemma run_total {A} h (p : Prog A) :
  (forall c, is_Some (h c)) -> is_Some (run h p).
Proof.
  intros Hh. induction p as [a | c k IH]; simpl; [eauto |].
  destruct (Hh c) as [v ->]. apply IH.
Qed.

(** ** float64: comparisons with NaN *)

Lemma SFcompare_refl x : x <> S754_nan -> SFcompare x x = Some Eq.
Proof.
  destruct x as [s | s | | s m e]; intros Hx; simpl; try congruence.
  - now destruct s.
  - rewrite Z.compare_refl. rewrite Pos.compare_cont_refl. now destruct s.
Qed.

Lemma is_nan_true x : is_nan x = true -> x = nan.
Proof.
  unfold is_nan. rewrite FloatAxioms.eqb_spec. unfold SFeqb. intros H.
  apply Prim2SF_inj.
  destruct (Prim2SF x) eqn:Hx; [| | reflexivity |];
    rewrite SFcompare_refl in H; discriminate.
Qed.

Lemma ltb_nan_l x : (nan <? x)%float = false.
Proof. rewrite FloatAxioms.ltb_spec. reflexivity. Qed.

Lemma ltb_nan_r x : (x <? nan)%float = false.
Proof. rewrite FloatAxioms.ltb_spec. unfold SFltb. now destruct (Prim2SF x). Qed.

Lemma leb_nan_l x : (nan <=? x)%float = false.
Proof. rewrite FloatAxioms.leb_spec. reflexivity. Qed.

Lemma leb_nan_r x : (x <=? nan)%float = false.
Proof. rewrite FloatAxioms.leb_spec. unfold SFleb. now destruct (Prim2SF x). Qed.

Lemma mul_nan_r x : (x * nan)%float = nan.
Proof.
  apply Prim2SF_inj. rewrite FloatAxioms.mul_spec. unfold SF64mul.
  now destruct (Prim2SF x).
Qed.

Lemma sub_nan_r x : (x - nan)%float = nan.
Proof.
  apply Prim2SF_inj. rewrite FloatAxioms.sub_spec. unfold SF64sub.
  now destruct (Prim2SF x).
Qed.

Lemma add_nan_r x : (x + nan)%float = nan.
Proof.
  apply Prim2SF_inj. rewrite FloatAxioms.add_spec. unfold SF64add.
  now destruct (Prim2SF x).
Qed.

(** ** analyzeSegment: how the result is assembled *)

Lemma run_analyzeSegment h benchmark experiment confidenceLevel r :
  run h (analyzeSegment benchmark experiment confidenceLevel) = Some r <->
  exists t p benchCI expCI,
    run h (welchTTest (values benchmark) (values experiment)) = Some (t, p) /\
    run h (confidenceInterval (values benchmark) confidenceLevel) = Some benchCI /\
    run h (confidenceInterval (values experiment) confidenceLevel) = Some expCI /\
    r = {| TimeSegmentAnalysis.Benchmark :=
             {| AnalysisResult.Mean := stat.Mean (values benchmark);
                AnalysisResult.Count := len (values benchmark);
                AnalysisResult.StdDev := stat.StdDev (values benchmark);
                AnalysisResult.ConfidenceInterval := benchCI |};
           TimeSegmentAnalysis.Experiment :=
             {| AnalysisResult.Mean := stat.Mean (values experiment);
                AnalysisResult.Count := len (values experiment);
                AnalysisResult.StdDev := stat.StdDev (values experiment);
                AnalysisResult.ConfidenceInterval := expCI |};
           TimeSegmentAnalysis.Difference :=
             ((stat.Mean (values experiment) - stat.Mean (values benchmark))
              / stat.Mean (values benchmark) * 100)%float;
           TimeSegmentAnalysis.PValue := p;
           TimeSegmentAnalysis.Significant := (p <? 1 - confidenceLevel)%float |}.
Proof.
  unfold analyzeSegment, values. rewrite run_bind_Some. split.
  - intros ([t p] & Hw & H). apply run_bind_Some in H as (benchCI & Hb & H).
    apply run_bind_Some in H as (expCI & He & H). simpl in H.
    exists t, p, benchCI, expCI. repeat split; congruence.
  - intros (t & p & benchCI & expCI & Hw & Hb & He & ->).
    exists (t, p). split; [assumption |].
    apply run_bind_Some. exists benchCI. split; [assumption |].
    apply run_bind_Some. exists expCI. split; [assumption | reflexivity].
Qed.

(** The only call [confidenceInterval] makes is the quantile, and it makes
    it whatever the size of the sample. *)
Lemma confidenceInterval_eq vals confidenceLevel :
  confidenceInterval vals confidenceLevel =
  Call (Quantile (StudentsT.withNu (float64_of_int (len vals - 1)))
                 ((1 + confidenceLevel) / 2)%float)
       (fun tValue =>
          let margin := (tValue * (stat.StdDev vals
                                   / math.Sqrt (float64_of_int (len vals))))%float in
          Ret ((stat.Mean vals - margin)%float, (stat.Mean vals + margin)%float)).
Proof. reflexivity. Qed.

Lemma run_confidenceInterval h vals confidenceLevel :
  run h (confidenceInterval vals confidenceLevel) =
  tValue ← h (Quantile (StudentsT.withNu (float64_of_int (len vals - 1)))
                       ((1 + confidenceLevel) / 2)%float);
  let margin := (tValue * (stat.StdDev vals
                           / math.Sqrt (float64_of_int (len vals))))%float in
  Some ((stat.Mean vals - margin)%float, (stat.Mean vals + margin)%float).
Proof. rewrite confidenceInterval_eq. cbn [run]. now destruct (h _). Qed.

Lemma calls_confidenceInterval h vals confidenceLevel :
  calls h (confidenceInterval vals confidenceLevel) =
  [Quantile (StudentsT.withNu (float64_of_int (len vals - 1)))
            ((1 + confidenceLevel) / 2)%float].
Proof. rewrite confidenceInterval_eq. cbn [calls]. now destruct (h _). Qed.

(** ** C3: samples with fewer than two observations *)

(** A p-value of 1 is below no threshold [1 - c] with [c >= 0]. *)
Lemma one_not_below_threshold c :
  (0 <=? c)%float = true -> (1 <? 1 - c)%float = false.
Proof.
  intros Hc. pose proof (sub_mono_r 1%float 0%float c eq_refl Hc) as Hle.
  change (1 - 0)%float with 1%float in Hle.
  apply leb_fval in Hle as (_ & _ & Hle).
  destruct (1 <? 1 - c)%float eqn:Hlt; [| reflexivity].
  apply ltb_fval in Hlt as (_ & _ & Hlt). lra.
Qed.

Lemma welchTTest_guard x y :
  (length x < 2)%nat \/ (length y < 2)%nat ->
  welchTTest x y = Ret (0%float, 1%float).
Proof.
  intros H. unfold welchTTest.
  assert (Hg : ((float64_of_int (len x) <? 2)%float
                || (float64_of_int (len y) <? 2)%float) = true).
  { apply orb_true_iff. destruct H as [H | H]; [left | right].
    - destruct x as [| ? [| ? ?]]; [reflexivity .. | simpl in H; lia].
    - destruct y as [| ? [| ? ?]]; [reflexivity .. | simpl in H; lia]. }
  now rewrite Hg.
Qed.

Lemma run_small_sample_segment h benchmark experiment confidenceLevel r :
  (length benchmark < 2)%nat \/ (length experiment < 2)%nat ->
  run h (analyzeSegment benchmark experiment confidenceLevel) = Some r ->
  TimeSegmentAnalysis.PValue r = 1%float /\
  TimeSegmentAnalysis.Significant r = (1 <? 1 - confidenceLevel)%float.
Proof.
  intros Hn Hr. apply run_analyzeSegment in Hr as (t & p & bCI & eCI & Hw & _ & _ & ->).
  rewrite welchTTest_guard in Hw
    by (unfold values, measurementsToValues; now rewrite !length_map).
  simpl in Hw. injection Hw as <- <-. split; reflexivity.
Qed.

(** The quantiles a segment analysis asks for. *)

Lemma refuses_sampleLibrary p : refuses sampleLibrary p.
Proof. intros dist Hd. unfold sampleLibrary. now rewrite Hd. Qed.

Lemma degenerate_small (vals : list float64) :
  (length vals < 2)%nat -> degenerate (intervalDist vals) = true.
Proof.
  destruct vals as [| v [| v' vals]]; [reflexivity | reflexivity | cbn; lia].
Qed.


Lemma run_confidenceInterval_Some h vals confidenceLevel ci :
  run h (confidenceInterval vals confidenceLevel) = Some ci ->
  is_Some (h (Quantile (intervalDist vals) ((1 + confidenceLevel) / 2)%float)).
Proof.
  rewrite run_confidenceInterval. unfold intervalDist.
  destruct (h _) as [q |]; [eauto | discriminate].
Qed.

Lemma run_analyzeSegment_quantiles h benchmark experiment confidenceLevel r :
  run h (analyzeSegment benchmark experiment confidenceLevel) = Some r ->
  is_Some (h (Quantile (intervalDist (values benchmark))
                       ((1 + confidenceLevel) / 2)%float)) /\
  is_Some (h (Quantile (intervalDist (values experiment))
                       ((1 + confidenceLevel) / 2)%float)).
Proof.
  intros Hr. apply run_analyzeSegment in Hr as (t & p & bCI & eCI & _ & Hb & He & _).
  split; eapply run_confidenceInterval_Some; eassumption.
Qed.

Lemma refused_segment h benchmark experiment confidenceLevel :
  (length (values benchmark) < 2)%nat \/ (length (values experiment) < 2)%nat ->
  refuses h ((1 + confidenceLevel) / 2)%float ->
  run h (analyzeSegment benchmark experiment confidenceLevel) = None.
Proof.
  intros Hn Hh.
  destruct (run h (analyzeSegment benchmark experiment confidenceLevel)) as [r |] eqn:Hr;
    [| reflexivity].
  apply run_analyzeSegment_quantiles in Hr as [[qb Hb] [qe He]].
  destruct Hn as [Hn | Hn]; apply degenerate_small, Hh in Hn; congruence.
Qed.

(** C3 (fails on the code).  [welchTTest] returns exactly [(0, 1)] as soon
    as one of the two samples has fewer than two observations, and makes
    no library call.  The segment analysis of such samples, however, goes
    on to their confidence intervals, and so to the quantile of a
    distribution whose degrees of freedom are not positive: under a
    library that panics on that call no segment is returned, hence no
    [Significant] flag either; the scenario baseline [100], experiment
    [90, 110] is an instance.  A segment is returned only when the library
    answers such a call, and it then carries [PValue = 1] and a
    [Significant] flag that is false at every confidence level that is not
    negative. *)
Theorem welchTTest_fewer_than_two (h : handler) (x y : list float64) :
  (length x < 2)%nat \/ (length y < 2)%nat ->
  welchTTest x y = Ret (0%float, 1%float) /\
  run h (welchTTest x y) = Some (0%float, 1%float) /\
  calls h (welchTTest x y) = [] /\
  (forall benchmark experiment confidenceLevel,
      values benchmark = x -> values experiment = y ->
      (refuses h ((1 + confidenceLevel) / 2)%float ->
       run h (analyzeSegment benchmark experiment confidenceLevel) = None) /\
      (forall r,
          run h (analyzeSegment benchmark experiment confidenceLevel) = Some r ->
          (exists dist,
              degenerate dist = true /\
              is_Some (h (Quantile dist ((1 + confidenceLevel) / 2)%float))) /\
          TimeSegmentAnalysis.PValue r = 1%float /\
          TimeSegmentAnalysis.Significant r = (1 <? 1 - confidenceLevel)%float /\
          ((0 <=? confidenceLevel)%float = true ->
           TimeSegmentAnalysis.Significant r = false))).
Proof.
  intros Hn. pose proof (welchTTest_guard x y Hn) as Hw.
  rewrite Hw. split; [reflexivity |]. split; [reflexivity |]. split; [reflexivity |].
  intros benchmark experiment confidenceLevel Hb He. subst x y. split.
  - now apply refused_segment.
  - intros r Hr. split.
    + destruct (run_analyzeSegment_quantiles _ _ _ _ _ Hr) as [Hqb Hqe].
      destruct Hn as [Hn | Hn]; apply degenerate_small in Hn; eauto.
    + assert (Hseg : TimeSegmentAnalysis.PValue r = 1%float /\
                     TimeSegmentAnalysis.Significant r = (1 <? 1 - confidenceLevel)%float).
      { eapply run_small_sample_segment; [| exact Hr].
        unfold values, measurementsToValues in Hn. now rewrite !length_map in Hn. }
      destruct Hseg as [Hp Hs]. split; [exact Hp | split; [exact Hs |]].
      intros Hc. rewrite Hs. now apply one_not_below_threshold.
Qed.

Lemma welchTTest_fewer_than_two_witness :
  run sampleLibrary (welchTTest [100%float] [90%float; 110%float])
  = Some (0%float, 1%float) /\
  run sampleLibrary (analyzeSegment oneMeasurement twoMeasurements 0.95%float) = None.
Proof.
  pose proof (welchTTest_fewer_than_two sampleLibrary
                [100%float] [90%float; 110%float]
                (or_introl (Nat.lt_succ_diag_r 1))) as (_ & Hrun & _ & Hseg).
  split; [exact Hrun |].
  exact (proj1 (Hseg oneMeasurement twoMeasurements 0.95%float eq_refl eq_refl)
           (refuses_sampleLibrary _)).
Defined.

(** ** C5: the confidence interval of a sample with fewer than two values *)

(** C5 (fails on the code).  [confidenceInterval] has no guard on the size
    of the sample: for an empty sample it invokes the quantile with
    [Nu = -1], for a single value with [Nu = 0]; when the library panics on
    that call so does [confidenceInterval]; and when the library answers,
    the interval of the sample [100] is [(NaN, NaN)] whatever the answer,
    not an interval collapsed to the mean. *)
Theorem confidenceInterval_small_sample_invokes_Quantile
    (h : handler) (confidenceLevel : float64) :
  calls h (confidenceInterval [] confidenceLevel)
  = [Quantile (StudentsT.withNu (-1)%float) ((1 + confidenceLevel) / 2)%float] /\
  (forall v, calls h (confidenceInterval [v] confidenceLevel)
             = [Quantile (StudentsT.withNu 0%float) ((1 + confidenceLevel) / 2)%float]) /\
  (forall vals,
      (length vals < 2)%nat ->
      h (Quantile (StudentsT.withNu (float64_of_int (len vals - 1)))
                  ((1 + confidenceLevel) / 2)%float) = None ->
      run h (confidenceInterval vals confidenceLevel) = None) /\
  (forall q,
      h (Quantile (StudentsT.withNu 0%float) ((1 + confidenceLevel) / 2)%float) = Some q ->
      run h (confidenceInterval [100%float] confidenceLevel) = Some (nan, nan)).
Proof.
  repeat split.
  - apply calls_confidenceInterval.
  - intros v. apply calls_confidenceInterval.
  - intros vals _ Hq. rewrite run_confidenceInterval. now rewrite Hq.
  - intros q Hq. rewrite run_confidenceInterval.
    change (float64_of_int (len [100%float] - 1)) with 0%float.
    rewrite Hq. cbn [mbind option_bind].
    change (stat.StdDev [100%float] / math.Sqrt (float64_of_int (len [100%float])))%float
      with nan.
    change (stat.Mean [100%float]) with 100%float.
    cbv zeta. now rewrite mul_nan_r, sub_nan_r, add_nan_r.
Qed.

(** ** C10: a NaN p-value is never reported as significant *)

(** C10. Whenever [analyzeSegment] returns a segment whose p-value, the
    one [welchTTest] computed, is NaN, the [Significant] flag of the
    segment is false: the flag is [pValue < 1 - confidenceLevel], and a
    comparison with NaN is false. *)
Theorem analyzeSegment_nan_not_significant
    (h : handler) (benchmark experiment : list Measurement.t)
    (confidenceLevel : float64) (r : TimeSegmentAnalysis.t) :
  run h (analyzeSegment benchmark experiment confidenceLevel) = Some r ->
  is_nan (TimeSegmentAnalysis.PValue r) = true ->
  (exists t, run h (welchTTest (values benchmark) (values experiment))
             = Some (t, TimeSegmentAnalysis.PValue r)) /\
  TimeSegmentAnalysis.Significant r
  = (TimeSegmentAnalysis.PValue r <? 1 - confidenceLevel)%float /\
  TimeSegmentAnalysis.Significant r = false.
Proof.
  intros Hr Hnan.
  apply run_analyzeSegment in Hr as (t & p & bCI & eCI & Hw & _ & _ & ->).
  simpl in *. apply is_nan_true in Hnan. subst p.
  split; [eauto |]. split; [reflexivity | apply ltb_nan_l].
Qed.

Lemma analyzeSegment_nan_not_significant_witness :
  exists r,
    run (answering nan)
        (analyzeSegment [Measurement.mk 0 5%float "a"; Measurement.mk 1 5%float "a"]
                        [Measurement.mk 0 5%float "b"; Measurement.mk 1 5%float "b"]
                        0.95%float) = Some r /\
    is_nan (TimeSegmentAnalysis.PValue r) = true /\
    TimeSegmentAnalysis.Significant r = false.
Proof.
  eexists. split; [vm_compute; reflexivity |]. split; [reflexivity |].
  refine (proj2 (proj2 (analyzeSegment_nan_not_significant (answering nan)
            [Measurement.mk 0 5%float "a"; Measurement.mk 1 5%float "a"]
            [Measurement.mk 0 5%float "b"; Measurement.mk 1 5%float "b"]
            0.95%float _ _ _)));
    [vm_compute; reflexivity | reflexivity].
Defined.

(** ** C9: partitioning by label *)

Lemma filterByLabel_fold label data filtered minDate maxDate :
  (fold_left
     (fun '(filtered, minDate, maxDate) m =>
        if String.eqb (Measurement.Label m) label then
          (filtered ++ [m],
           if Before (Measurement.Date m) minDate then Measurement.Date m else minDate,
           if After (Measurement.Date m) maxDate then Measurement.Date m else maxDate)
        else (filtered, minDate, maxDate))
     data (filtered, minDate, maxDate)).1.1
  = filtered ++ filter (hasLabel label) data.
Proof.
  revert filtered minDate maxDate.
  induction data as [| m data IH]; intros filtered minDate maxDate; simpl.
  - now rewrite app_nil_r.
  - destruct (String.eqb_spec (Measurement.Label m) label) as [Heq | Hne].
    + rewrite IH, filter_cons_True by exact Heq. now rewrite <- app_assoc.
    + rewrite IH, filter_cons_False by exact Hne. reflexivity.
Qed.

Lemma filterByLabel_Measurements now data label :
  TimeSeries.Measurements (filterByLabel now data label) = filter (hasLabel label) data.
Proof.
  unfold filterByLabel.
  pose proof (filterByLabel_fold label data [] now zeroTime) as H.
  destruct (fold_left _ data _) as [[filtered minDate] maxDate].
  simpl in *. exact H.
Qed.

Lemma elem_of_labelMap_fold data (acc : gset string) label :
  label ∈ fold_left (fun labelMap m => {[ Measurement.Label m ]} ∪ labelMap) data acc
  <-> label ∈ acc \/ exists m, m ∈ data /\ Measurement.Label m = label.
Proof.
  revert acc. induction data as [| m data IH]; intros acc; simpl.
  - split; [auto | intros [? | (? & H & _)]; [assumption | inversion H]].
  - rewrite IH. split.
    + intros [H | (m' & Hin & Hl)].
      * apply elem_of_union in H as [H | H]; [| auto].
        apply elem_of_singleton in H. right. exists m. split; [left | congruence].
      * right. exists m'. split; [now right | assumption].
    + intros [H | (m' & Hin & Hl)].
      * left. apply elem_of_union. now right.
      * apply elem_of_cons in Hin as [-> | Hin].
        -- left. apply elem_of_union. left. now apply elem_of_singleton.
        -- right. eauto.
Qed.

Lemma elem_of_getUniqueLabels data label :
  label ∈ getUniqueLabels data <-> exists m, m ∈ data /\ Measurement.Label m = label.
Proof.
  unfold getUniqueLabels, labelMap.
  rewrite elem_of_elements, elem_of_labelMap_fold.
  split; [intros [H | H]; [now apply not_elem_of_empty in H | exact H] | auto].
Qed.

Lemma NoDup_getUniqueLabels data : NoDup (getUniqueLabels data).
Proof. unfold getUniqueLabels. apply NoDup_elements. Qed.

Lemma total_cons a l : total (a :: l) = a + total l.
Proof. reflexivity. Qed.

Lemma total_zeros {A} (l : list A) : total (map (fun _ => 0) l) = 0.
Proof. induction l as [| a l IH]; [reflexivity |]. rewrite map_cons, total_cons. lia. Qed.

Lemma total_indicator_absent (labels : list string) (label : string) :
  label ∉ labels ->
  total (map (fun l => if decide (label = l) then 1 else 0) labels) = 0.
Proof.
  induction labels as [| l labels IH]; intros Hnin; [reflexivity |].
  apply not_elem_of_cons in Hnin as [Hne Hnin].
  rewrite map_cons, total_cons, decide_False by assumption.
  now rewrite IH.
Qed.

Lemma total_indicator (labels : list string) (label : string) :
  NoDup labels -> label ∈ labels ->
  total (map (fun l => if decide (label = l) then 1 else 0) labels) = 1.
Proof.
  induction 1 as [| l labels Hnin Hnd IH]; intros Hin; [inversion Hin |].
  rewrite map_cons, total_cons.
  destruct (decide (label = l)) as [-> | Hne].
  - now rewrite total_indicator_absent.
  - apply elem_of_cons in Hin as [? | Hin]; [contradiction |].
    now rewrite IH.
Qed.

Lemma total_pointwise_add {A} (f g : A -> Z) (l : list A) :
  total (map (fun a => f a + g a) l) = total (map f l) + total (map g l).
Proof.
  induction l as [| a l IH]; [reflexivity |].
  rewrite !map_cons, !total_cons, IH. lia.
Qed.

Lemma len_cons {A} (a : A) (l : list A) : len (a :: l) = 1 + len l.
Proof. unfold len. rewrite length_cons. lia. Qed.

Lemma total_filter_counts (labels : list string) (data : list Measurement.t) :
  NoDup labels ->
  (forall m, m ∈ data -> Measurement.Label m ∈ labels) ->
  total (map (fun l => len (filter (hasLabel l) data)) labels) = len data.
Proof.
  intros Hnd. induction data as [| m data IH]; intros Hall.
  - apply total_zeros.
  - rewrite len_cons, <- IH by (intros m' H; apply Hall; now right).
    rewrite <- (total_indicator labels (Measurement.Label m) Hnd)
      by (apply Hall; left).
    rewrite <- total_pointwise_add.
    f_equal. apply map_ext. intros l.
    destruct (decide (Measurement.Label m = l)) as [Heq | Hne].
    + rewrite filter_cons_True by exact Heq. apply len_cons.
    + rewrite filter_cons_False by exact Hne. lia.
Qed.

(** C9. [filterByLabel] keeps exactly the records whose label equals the
    given one, in their input order; and over the distinct labels of the
    data (in whatever order [getUniqueLabels] lists them) the counts of
    the filtered series add up to the number of records. *)
Theorem filterByLabel_partition
    (now : Time) (data : list Measurement.t) (labels : list string) :
  labels ≡ₚ getUniqueLabels data ->
  (forall label,
      TimeSeries.Measurements (filterByLabel now data label)
      = filter (hasLabel label) data) /\
  NoDup labels /\
  (forall label, label ∈ labels <-> exists m, m ∈ data /\ Measurement.Label m = label) /\
  total (map (fun label => len (TimeSeries.Measurements (filterByLabel now data label)))
             labels)
  = len data.
Proof.
  intros Hperm.
  assert (Hnd : NoDup labels) by (rewrite Hperm; apply NoDup_getUniqueLabels).
  assert (Hin : forall label,
             label ∈ labels <-> exists m, m ∈ data /\ Measurement.Label m = label).
  { intros label. rewrite Hperm. apply elem_of_getUniqueLabels. }
  repeat split; try assumption; try apply Hin.
  - apply filterByLabel_Measurements.
  - rewrite <- (total_filter_counts labels data Hnd).
    + f_equal. apply map_ext. intros l. now rewrite filterByLabel_Measurements.
    + intros m Hm. apply Hin. eauto.
Qed.

Lemma filterByLabel_partition_witness :
  total (map (fun label =>
                len (TimeSeries.Measurements (filterByLabel 1000 sampleData label)))
             (getUniqueLabels sampleData))
  = 3.
Proof.
  exact (proj2 (proj2 (proj2
           (filterByLabel_partition 1000 sampleData (getUniqueLabels sampleData)
              (reflexivity _))))).
Defined.

(** ** C4: the keys of the analysis set *)

Lemma segment_keys_eq :
  segment_keys = "overall" :: map hourKey (seqZ 0 24) ++ map dayKey (seqZ 0 7).
Proof. reflexivity. Qed.

Lemma NoDup_segment_keys : NoDup segment_keys.
Proof. apply (bool_decide_unpack _). vm_compute. exact I. Qed.

Section Grouping.
Variable f : Time -> Z.

Lemma groupBy_lookup measurements acc i :
  groupBy f measurements acc !! i =
  match filter (inBucket f i) measurements with
  | [] => acc !! i
  | bucket => Some (default [] (acc !! i) ++ bucket)
  end.
Proof.
  revert acc. induction measurements as [| m ms IH]; intros acc; [reflexivity |].
  unfold groupBy in *. simpl. rewrite IH. unfold appendAt.
  destruct (decide (inBucket f i m)) as [Hin | Hout].
  - rewrite filter_cons_True by exact Hin. unfold inBucket in Hin. subst i.
    rewrite lookup_insert_eq. simpl.
    destruct (filter _ ms); [reflexivity | now rewrite <- app_assoc].
  - rewrite filter_cons_False by exact Hout.
    rewrite lookup_insert_ne by exact Hout. reflexivity.
Qed.

Lemma groupBy_is_Some measurements i :
  is_Some (groupBy f measurements ∅ !! i)
  <-> exists m, m ∈ measurements /\ f (Measurement.Date m) = i.
Proof.
  rewrite groupBy_lookup, lookup_empty.
  destruct (filter (inBucket f i) measurements) as [| m bucket] eqn:Hf.
  - split; [intros [? [=]] |].
    intros (m & Hin & Hm).
    assert (H : m ∈ filter (inBucket f i) measurements)
      by (apply list_elem_of_filter; split; assumption).
    rewrite Hf in H. inversion H.
  - split; [intros _ | eauto].
    assert (H : m ∈ filter (inBucket f i) measurements) by (rewrite Hf; left).
    apply list_elem_of_filter in H as [Hm Hin]. eauto.
Qed.

End Grouping.

Lemma groupByHour_is_Some measurements hour :
  is_Some (groupByHour measurements !! hour)
  <-> exists m, m ∈ measurements /\ Hour (Measurement.Date m) = hour.
Proof. apply (groupBy_is_Some Hour). Qed.

Lemma groupByDayOfWeek_is_Some measurements day :
  is_Some (groupByDayOfWeek measurements !! day)
  <-> exists m, m ∈ measurements /\ Weekday (Measurement.Date m) = day.
Proof. apply (groupBy_is_Some Weekday). Qed.

Section Buckets.
Variables (h : handler) (key : Z -> string).
Variables (benchBuckets expBuckets : gmap Z (list Measurement.t)).
Variable confidenceLevel : float64.

Lemma run_analyzeBucket i results m :
  run h (analyzeBucket key benchBuckets expBuckets confidenceLevel i results) = Some m ->
  (bothHave benchBuckets expBuckets i /\ exists r, m = <[ key i := r ]> results)
  \/ (~ bothHave benchBuckets expBuckets i /\ m = results).
Proof.
  unfold analyzeBucket, bothHave.
  destruct (benchBuckets !! i) as [b |]; [destruct (expBuckets !! i) as [e |] |].
  - intros H. apply run_bind_Some in H as (r & _ & [= <-]). left. eauto.
  - intros [= <-]. right. split; [intros [_ [? [=]]] | reflexivity].
  - intros [= <-]. right. split; [intros [[? [=]] _] | reflexivity].
Qed.

Lemma dom_forRange n : forall lo results m,
  run h (forRange lo n (analyzeBucket key benchBuckets expBuckets confidenceLevel) results)
  = Some m ->
  forall k, k ∈ dom m <->
            k ∈ dom results \/
            exists i, lo <= i < lo + Z.of_nat n /\ k = key i /\
                      bothHave benchBuckets expBuckets i.
Proof.
  set (both := bothHave benchBuckets expBuckets).
  induction n as [| n IH]; intros lo results m Hrun k.
  - injection Hrun as <-. split; [auto | intros [? | (i & ? & _)]; [assumption | lia]].
  - cbn [forRange] in Hrun. apply run_bind_Some in Hrun as (m1 & H1 & Hrest).
    rewrite (IH _ _ _ Hrest k).
    assert (Hshift : (exists i, lo + 1 <= i < lo + 1 + Z.of_nat n /\ k = key i /\ both i)
                     \/ (k = key lo /\ both lo)
                     <-> exists i, lo <= i < lo + Z.of_nat (S n) /\ k = key i /\ both i).
    { split.
      - intros [(i & Hi & Hk & Hb) | (Hk & Hb)];
          [exists i | exists lo]; (split; [lia | split; assumption]).
      - intros (i & Hi & Hk & Hb).
        destruct (decide (i = lo)) as [-> | Hne]; [now right | left].
        exists i. split; [lia | split; assumption]. }
    rewrite <- Hshift.
    apply run_analyzeBucket in H1 as [(Hb & r & ->) | (Hnb & ->)].
    + rewrite dom_insert, elem_of_union, elem_of_singleton. tauto.
    + tauto.
Qed.

End Buckets.

Lemma dom_analyzeTimeSeries h benchmark experiment confidenceLevel m :
  run h (analyzeTimeSeries benchmark experiment confidenceLevel) = Some m ->
  forall k, k ∈ dom m <->
    k = "overall" \/
    (exists hour, 0 <= hour < 24 /\ k = hourKey hour /\
                  hasHour benchmark hour /\ hasHour experiment hour) \/
    (exists day, 0 <= day < 7 /\ k = dayKey day /\
                 hasDay benchmark day /\ hasDay experiment day).
Proof.
  unfold analyzeTimeSeries. intros Hrun k.
  apply run_bind_Some in Hrun as (overall & _ & Hrun).
  apply run_bind_Some in Hrun as (m1 & Hhours & Hdays).
  rewrite (dom_forRange _ _ _ _ _ _ _ _ _ Hdays k).
  rewrite (dom_forRange _ _ _ _ _ _ _ _ _ Hhours k).
  rewrite dom_insert, dom_empty, elem_of_union, elem_of_singleton.
  unfold bothHave, hasHour, hasDay.
  setoid_rewrite groupByHour_is_Some. setoid_rewrite groupByDayOfWeek_is_Some.
  split.
  - intros [[[-> | H] | H] | H]; [now left | now apply not_elem_of_empty in H | |].
    + right; left. destruct H as (i & ? & ? & ?). exists i. auto with lia.
    + right; right. destruct H as (i & ? & ? & ?). exists i. auto with lia.
  - intros [-> | [H | H]]; [now left; left; left | |].
    + left; right. destruct H as (i & ? & ? & ? & ?). exists i. auto with lia.
    + right. destruct H as (i & ? & ? & ? & ?). exists i. auto with lia.
Qed.

Lemma NoDup_fmap_inj {A B} (f : A -> B) (l : list A) x y :
  NoDup (map f l) -> x ∈ l -> y ∈ l -> f x = f y -> x = y.
Proof.
  induction l as [| a l IH]; intros Hnd Hx Hy Hf; [inversion Hx |].
  rewrite map_cons in Hnd. apply NoDup_cons in Hnd as [Hnin Hnd].
  apply elem_of_cons in Hx as [-> | Hx]; apply elem_of_cons in Hy as [-> | Hy].
  - reflexivity.
  - exfalso. apply Hnin. rewrite Hf. now apply list_elem_of_fmap_2.
  - exfalso. apply Hnin. rewrite <- Hf. now apply list_elem_of_fmap_2.
  - now apply IH.
Qed.

Lemma segment_keys_parts :
  ("overall" ∉ map hourKey (seqZ 0 24) ++ map dayKey (seqZ 0 7)) /\
  NoDup (map hourKey (seqZ 0 24)) /\
  NoDup (map dayKey (seqZ 0 7)) /\
  (forall k, k ∈ map hourKey (seqZ 0 24) -> k ∉ map dayKey (seqZ 0 7)).
Proof.
  pose proof NoDup_segment_keys as Hnd. rewrite segment_keys_eq in Hnd.
  apply NoDup_cons in Hnd as [Ho Hnd]. apply NoDup_app in Hnd as (Hh & Hhd & Hd).
  auto.
Qed.

Lemma hourKey_in_range hour : 0 <= hour < 24 -> hourKey hour ∈ map hourKey (seqZ 0 24).
Proof. intros H. apply list_elem_of_fmap_2, elem_of_seqZ. lia. Qed.

Lemma dayKey_in_range day : 0 <= day < 7 -> dayKey day ∈ map dayKey (seqZ 0 7).
Proof. intros H. apply list_elem_of_fmap_2, elem_of_seqZ. lia. Qed.





(** ** float64(n) *)

Lemma Prim2SF_float64_of_int n :
  0 <= n < 2 ^ 63 ->
  Prim2SF (float64_of_int n) = binary_normalize prec emax n 0 false.
Proof.
  intros Hn. unfold float64_of_int.
  destruct (Z.ltb_spec n 0) as [Hlt | _]; [lia |].
  rewrite of_uint63_spec, Uint63.of_Z_spec. f_equal.
  apply Z.mod_small. exact Hn.
Qed.

Lemma fval_float64_of_int n :
  0 <= n < 2 ^ 63 -> fval (float64_of_int n) = xround n 0.
Proof.
  intros Hn. unfold fval. rewrite Prim2SF_float64_of_int by exact Hn.
  apply xval_binary_normalize.
Qed.

Lemma not_nan_float64_of_int n :
  0 <= n < 2 ^ 63 -> not_nan (float64_of_int n) = true.
Proof.
  intros Hn. unfold not_nan. rewrite Prim2SF_float64_of_int by exact Hn.
  now rewrite binary_normalize_not_nan.
Qed.

(** From two values on, the guard of [welchTTest] lets a sample through. *)
Lemma float64_of_int_ge_2 n :
  2 <= n < 2 ^ 63 -> (float64_of_int n <? 2)%float = false.
Proof.
  intros Hn. destruct (float64_of_int n <? 2)%float eqn:Hlt; [| reflexivity].
  apply ltb_fval in Hlt as (_ & _ & Hlt).
  change 2%float with (float64_of_int 2) in Hlt.
  rewrite !fval_float64_of_int in Hlt by lia.
  assert (Hle : (xround 2 0 <= xround n 0)%R).
  { apply xround_mono. apply F2R_le_same. lia. }
  lra.
Qed.

(** The conversion of a positive [int] is a positive number (or, were the
    format smaller, an infinity): never zero, never NaN. *)
Lemma float64_of_int_positive n :
  1 <= n < 2 ^ 63 ->
  is_positive_SF (Prim2SF (float64_of_int n)) = true.
Proof.
  intros Hn. rewrite Prim2SF_float64_of_int by lia.
  destruct n as [| p | p]; try lia. cbn [binary_normalize].
  rewrite binary_round_spec.
  pose proof (round_mag_range (Z.pos p) 0 ltac:(lia)) as Hr.
  destruct (round_mag (Z.pos p) 0) as [m e]. destruct Hr as (_ & _ & _ & Hpos).
  cbn [fst snd]. specialize (Hpos ltac:(lia)).
  destruct m as [| q | q]; try lia. cbn [overflow_check].
  now destruct (_ <=? _).
Qed.

(** ** Zero over zero *)

Lemma is_zero_SF_spec x :
  PrimFloat.is_zero x = true -> is_zero_SF (Prim2SF x) = true.
Proof.
  unfold PrimFloat.is_zero. rewrite FloatAxioms.eqb_spec.
  change (Prim2SF zero) with (S754_zero false). unfold SFeqb.
  destruct (Prim2SF x) as [s | s | | s m e]; cbn [SFcompare is_zero_SF]; try easy.
  - now destruct s.
  - now destruct s.
Qed.

Lemma div_zero_positive v n :
  is_zero_SF (Prim2SF v) = true -> is_positive_SF (Prim2SF n) = true ->
  is_zero_SF (Prim2SF (v / n)) = true.
Proof.
  rewrite FloatAxioms.div_spec. unfold SF64div.
  destruct (Prim2SF v) as [sv | | |]; try discriminate.
  destruct (Prim2SF n) as [| [|] | | [|] m e]; try discriminate; reflexivity.
Qed.

Lemma add_zero_zero v w :
  is_zero_SF (Prim2SF v) = true -> is_zero_SF (Prim2SF w) = true ->
  is_zero_SF (Prim2SF (v + w)) = true.
Proof.
  rewrite FloatAxioms.add_spec. unfold SF64add.
  destruct (Prim2SF v) as [sv | | |]; try discriminate.
  destruct (Prim2SF w) as [sw | | |]; try discriminate.
  now destruct sv, sw.
Qed.

Lemma sqrt_zero v :
  is_zero_SF (Prim2SF v) = true -> is_zero_SF (Prim2SF (math.Sqrt v)) = true.
Proof.
  unfold math.Sqrt. rewrite FloatAxioms.sqrt_spec. unfold SF64sqrt.
  now destruct (Prim2SF v) as [sv | | |].
Qed.

Lemma sub_diag_finite v :
  finite64 v = true -> is_zero_SF (Prim2SF (v - v)) = true.
Proof.
  unfold finite64. rewrite FloatAxioms.sub_spec. unfold SF64sub.
  destruct (Prim2SF v) as [s | | | s m e]; try discriminate; intros _.
  - now destruct s.
  - cbn [SFsub]. now rewrite Z.sub_diag.
Qed.

Lemma div_zero_zero v w :
  is_zero_SF (Prim2SF v) = true -> is_zero_SF (Prim2SF w) = true ->
  (v / w)%float = nan.
Proof.
  intros Hv Hw. apply Prim2SF_inj. rewrite FloatAxioms.div_spec. unfold SF64div.
  destruct (Prim2SF v) as [sv | | |]; try discriminate.
  destruct (Prim2SF w) as [sw | | |]; try discriminate. reflexivity.
Qed.

(** ** welchTTest past its guard *)

Lemma run_welchTTest h x y :
  bothPassGuard x y ->
  run h (welchTTest x y) =
  a ← h (math_Pow (stat.Variance x / float64_of_int (len x)
                   + stat.Variance y / float64_of_int (len y))%float 2%float);
  b ← h (math_Pow (stat.Variance x / float64_of_int (len x))%float 2%float);
  c ← h (math_Pow (stat.Variance y / float64_of_int (len y))%float 2%float);
  s ← h (Survival (StudentsT.withNu (degreesOfFreedom a b c x y))
                  (math.Abs (tStatistic x y)));
  Some (tStatistic x y, (2 * s)%float).
Proof.
  unfold bothPassGuard. intros Hg. unfold welchTTest. rewrite Hg.
  unfold degreesOfFreedom, tStatistic.
  cbn [mbind Prog_bind bind invoke run].
  repeat (match goal with
          | |- context [h ?c] => destruct (h c); cbn [mbind option_bind run bind]
          end; try reflexivity).
Qed.

Lemma bothPassGuard_lengths x y :
  2 <= len x < 2 ^ 63 -> 2 <= len y < 2 ^ 63 -> bothPassGuard x y.
Proof.
  intros Hx Hy. unfold bothPassGuard.
  now rewrite !float64_of_int_ge_2 by assumption.
Qed.

Lemma run_welchTTest_Some h x y t p :
  bothPassGuard x y ->
  run h (welchTTest x y) = Some (t, p) ->
  t = tStatistic x y /\
  exists a b c s,
    h (math_Pow (stat.Variance x / float64_of_int (len x)
                 + stat.Variance y / float64_of_int (len y))%float 2%float) = Some a /\
    h (math_Pow (stat.Variance x / float64_of_int (len x))%float 2%float) = Some b /\
    h (math_Pow (stat.Variance y / float64_of_int (len y))%float 2%float) = Some c /\
    h (Survival (StudentsT.withNu (degreesOfFreedom a b c x y))
                (math.Abs (tStatistic x y))) = Some s /\
    p = (2 * s)%float.
Proof.
  intros Hg Hrun. rewrite run_welchTTest in Hrun by exact Hg.
  apply bind_Some in Hrun as (a & Ha & Hrun).
  apply bind_Some in Hrun as (b & Hb & Hrun).
  apply bind_Some in Hrun as (c & Hc & Hrun).
  apply bind_Some in Hrun as (s & Hs & Hrun).
  injection Hrun as <- <-. split; [reflexivity |].
  exists a, b, c, s. auto.
Qed.

(** ** C2: constant, equal samples *)

Lemma tStatistic_zero_variance x y :
  1 <= len x < 2 ^ 63 -> 1 <= len y < 2 ^ 63 ->
  PrimFloat.is_zero (stat.Variance x) = true ->
  PrimFloat.is_zero (stat.Variance y) = true ->
  finite64 (stat.Mean x) = true -> stat.Mean x = stat.Mean y ->
  tStatistic x y = nan.
Proof.
  intros Hx Hy Hvx Hvy Hfin Hmean. unfold tStatistic. rewrite <- Hmean.
  apply div_zero_zero.
  - now apply sub_diag_finite.
  - apply sqrt_zero, add_zero_zero; apply div_zero_positive;
      auto using is_zero_SF_spec, float64_of_int_positive.
Qed.

(** C2, as the code has it.  For two samples of at least two values whose
    variances are zero and whose means are equal and finite, the t
    statistic of [welchTTest] is NaN, the [0 / 0] the code computes, and
    not 0; the p-value is twice what the library answers for the survival
    function at NaN. *)
Theorem welchTTest_zero_variance
    (h : handler) (x y : list float64) (t p : float64) :
  2 <= len x < 2 ^ 63 -> 2 <= len y < 2 ^ 63 ->
  PrimFloat.is_zero (stat.Variance x) = true ->
  PrimFloat.is_zero (stat.Variance y) = true ->
  finite64 (stat.Mean x) = true -> stat.Mean x = stat.Mean y ->
  run h (welchTTest x y) = Some (t, p) ->
  t = nan /\
  exists a b c s,
    h (Survival (StudentsT.withNu (degreesOfFreedom a b c x y)) nan) = Some s /\
    p = (2 * s)%float.
Proof.
  intros Hx Hy Hvx Hvy Hfin Hmean Hrun.
  apply run_welchTTest_Some in Hrun as (-> & a & b & c & s & _ & _ & _ & Hs & ->);
    [| now apply bothPassGuard_lengths].
  rewrite tStatistic_zero_variance in * by (assumption || lia).
  split; [reflexivity |]. exists a, b, c, s. auto.
Qed.

Lemma welchTTest_zero_variance_witness :
  run (answering nan) (welchTTest fives fives) = Some (nan, nan).
Proof.
  destruct (run (answering nan) (welchTTest fives fives)) as [[t p] |] eqn:Hrun;
    [| discriminate Hrun].
  destruct (welchTTest_zero_variance (answering nan) fives fives t p) as (-> & a & b & c & s & Hs & ->);
    try reflexivity; try exact Hrun; try (vm_compute; split; [discriminate | reflexivity]).
  injection Hs as <-. reflexivity.
Defined.

(** C2 as stated fails: for the constant samples [5, 5] and [5, 5] the t
    statistic is NaN under every library, not 0. *)
Lemma welchTTest_constant_equal_is_nan :
  (forall h t p, run h (welchTTest fives fives) = Some (t, p) -> t = nan) /\
  stat.Variance fives = 0%float /\
  run (answering nan) (welchTTest fives fives) = Some (nan, nan).
Proof.
  split; [| split; reflexivity].
  intros h t p Hrun.
  apply run_welchTTest_Some in Hrun as (-> & _); reflexivity.
Qed.

(** ** C6 and C7: the confidence interval *)

Lemma run_confidenceInterval_margin h vals confidenceLevel tValue :
  h (quantileCall vals confidenceLevel) = Some tValue ->
  run h (confidenceInterval vals confidenceLevel)
  = Some ((stat.Mean vals - specMargin tValue vals)%float,
          (stat.Mean vals + specMargin tValue vals)%float).
Proof.
  unfold quantileCall. intros Hq. rewrite run_confidenceInterval, Hq. reflexivity.
Qed.

Lemma fval_zero_mul s : finite64 s = true -> fval (0 * s)%float = 0%R.
Proof.
  unfold finite64, fval. rewrite FloatAxioms.mul_spec. unfold SF64mul.
  change (Prim2SF 0) with (S754_zero false).
  now destruct (Prim2SF s) as [ss | | | ss m e].
Qed.

Lemma mul_nonneg t s :
  finite64 t = true -> finite64 s = true ->
  (0 <=? t)%float = true -> (0 <=? s)%float = true -> (0 <=? t * s)%float = true.
Proof.
  intros Ht Hs Ht0 Hs0.
  pose proof (mul_mono_l 0%float t s eq_refl Ht Hs Hs0 Ht0) as H.
  apply leb_fval in H as (_ & Hn & H). rewrite fval_zero_mul in H by exact Hs.
  apply leb_fval. repeat split; [exact Hn | exact H].
Qed.

(** *** A quantile scaled by zero *)

Lemma is_zero_SF_iff x :
  PrimFloat.is_zero x = true <-> is_zero_SF (Prim2SF x) = true.
Proof.
  split; [apply is_zero_SF_spec |].
  unfold PrimFloat.is_zero. rewrite FloatAxioms.eqb_spec.
  change (Prim2SF zero) with (S754_zero false). unfold SFeqb.
  destruct (Prim2SF x) as [s | s | | s m e]; try discriminate. now destruct s.
Qed.

Lemma mul_finite_zero v w :
  finite64 v = true -> is_zero_SF (Prim2SF w) = true ->
  is_zero_SF (Prim2SF (v * w)%float) = true.
Proof.
  unfold finite64. rewrite FloatAxioms.mul_spec. unfold SF64mul.
  destruct (Prim2SF w) as [sw | | |]; try discriminate.
  destruct (Prim2SF v) as [| | | s m e]; try discriminate; reflexivity.
Qed.

Lemma mul_zero_finite v w :
  is_zero_SF (Prim2SF v) = true -> finite64 w = true ->
  is_zero_SF (Prim2SF (v * w)%float) = true.
Proof.
  unfold finite64. rewrite FloatAxioms.mul_spec. unfold SF64mul.
  destruct (Prim2SF v) as [sv | | |]; try discriminate.
  destruct (Prim2SF w) as [| | | s m e]; try discriminate; reflexivity.
Qed.

(** With [Sigma] and [Mu] at zero, every finite standard quantile is
    scaled to zero, and so is the margin. *)
Lemma scaled_intervalDist vals y :
  finite64 y = true -> is_zero_SF (Prim2SF (scaled (intervalDist vals) y)) = true.
Proof.
  intros Hy. unfold scaled, intervalDist, StudentsT.withNu.
  cbn [StudentsT.Sigma StudentsT.Mu].
  apply add_zero_zero; [| reflexivity]. now apply mul_finite_zero.
Qed.

Lemma specMargin_scaled vals y :
  finite64 y = true -> finite64 (stdErr vals) = true ->
  is_zero_SF (Prim2SF (specMargin (scaled (intervalDist vals) y) vals)) = true.
Proof.
  intros Hy Hse. unfold specMargin.
  apply mul_zero_finite; [now apply scaled_intervalDist | exact Hse].
Qed.

Lemma eqb_sub_zero x z :
  finite64 x = true -> is_zero_SF (Prim2SF z) = true -> (x - z =? x)%float = true.
Proof.
  unfold finite64. intros Hx Hz.
  rewrite FloatAxioms.eqb_spec, FloatAxioms.sub_spec. unfold SF64sub, SFeqb.
  destruct (Prim2SF z) as [sz | | |]; try discriminate.
  destruct (Prim2SF x) as [sx | | | sx mx ex]; try discriminate.
  - now destruct sx, sz.
  - cbn [SFsub]. now rewrite SFcompare_refl.
Qed.

Lemma eqb_add_zero x z :
  finite64 x = true -> is_zero_SF (Prim2SF z) = true -> (x + z =? x)%float = true.
Proof.
  unfold finite64. intros Hx Hz.
  rewrite FloatAxioms.eqb_spec, FloatAxioms.add_spec. unfold SF64add, SFeqb.
  destruct (Prim2SF z) as [sz | | |]; try discriminate.
  destruct (Prim2SF x) as [sx | | | sx mx ex]; try discriminate.
  - now destruct sx, sz.
  - cbn [SFadd]. now rewrite SFcompare_refl.
Qed.

Lemma leb_sub_zeros x z z' :
  finite64 x = true -> is_zero_SF (Prim2SF z) = true -> is_zero_SF (Prim2SF z') = true ->
  (x - z <=? x - z')%float = true.
Proof.
  unfold finite64. intros Hx Hz Hz'.
  rewrite FloatAxioms.leb_spec, !FloatAxioms.sub_spec. unfold SF64sub, SFleb.
  destruct (Prim2SF z) as [sz | | |]; try discriminate.
  destruct (Prim2SF z') as [sz' | | |]; try discriminate.
  destruct (Prim2SF x) as [sx | | | sx mx ex]; try discriminate.
  - now destruct sx, sz, sz'.
  - cbn [SFsub]. now rewrite SFcompare_refl.
Qed.

Lemma leb_add_zeros x z z' :
  finite64 x = true -> is_zero_SF (Prim2SF z) = true -> is_zero_SF (Prim2SF z') = true ->
  (x + z <=? x + z')%float = true.
Proof.
  unfold finite64. intros Hx Hz Hz'.
  rewrite FloatAxioms.leb_spec, !FloatAxioms.add_spec. unfold SF64add, SFleb.
  destruct (Prim2SF z) as [sz | | |]; try discriminate.
  destruct (Prim2SF z') as [sz' | | |]; try discriminate.
  destruct (Prim2SF x) as [sx | | | sx mx ex]; try discriminate.
  - now destruct sx, sz, sz'.
  - cbn [SFadd]. now rewrite SFcompare_refl.
Qed.

Lemma leb_sub_zero x z :
  finite64 x = true -> is_zero_SF (Prim2SF z) = true -> (x - z <=? x)%float = true.
Proof.
  unfold finite64. intros Hx Hz.
  rewrite FloatAxioms.leb_spec, FloatAxioms.sub_spec. unfold SF64sub, SFleb.
  destruct (Prim2SF z) as [sz | | |]; try discriminate.
  destruct (Prim2SF x) as [sx | | | sx mx ex]; try discriminate.
  - now destruct sx, sz.
  - cbn [SFsub]. now rewrite SFcompare_refl.
Qed.

Lemma leb_add_zero x z :
  finite64 x = true -> is_zero_SF (Prim2SF z) = true -> (x <=? x + z)%float = true.
Proof.
  unfold finite64. intros Hx Hz.
  rewrite FloatAxioms.leb_spec, FloatAxioms.add_spec. unfold SF64add, SFleb.
  destruct (Prim2SF z) as [sz | | |]; try discriminate.
  destruct (Prim2SF x) as [sx | | | sx mx ex]; try discriminate.
  - now destruct sx, sz.
  - cbn [SFadd]. now rewrite SFcompare_refl.
Qed.

(** C6 (fails on the code).  [confidenceInterval] asks the library for the
    quantile at [(1 + confidence_level) / 2] of the distribution
    [StudentsT{Nu: n - 1}], whose [Sigma] and [Mu] the literal leaves at
    zero, and returns [(mean - margin, mean + margin)] for the margin it
    computes from the answer [tValue] and the standard error.  The answer
    of a library that scales the quantile [y] of the standard distribution
    by [Sigma] and shifts it by [Mu] is then zero, and not the critical
    value [y]: the margin is zero and both bounds equal the mean whenever
    the mean and the standard error are finite. *)
Theorem confidenceInterval_formula
    (h : handler) (vals : list float64) (confidenceLevel tValue : float64) :
  h (Quantile (StudentsT.withNu (float64_of_int (len vals - 1)))
              ((1 + confidenceLevel) / 2)%float) = Some tValue ->
  StudentsT.withNu (float64_of_int (len vals - 1))
  = {| StudentsT.Mu := 0%float; StudentsT.Sigma := 0%float;
       StudentsT.Nu := float64_of_int (len vals - 1) |} /\
  run h (confidenceInterval vals confidenceLevel)
  = Some ((stat.Mean vals - specMargin tValue vals)%float,
          (stat.Mean vals + specMargin tValue vals)%float) /\
  (forall y,
      tValue = scaled (intervalDist vals) y -> finite64 y = true ->
      finite64 (stdErr vals) = true -> finite64 (stat.Mean vals) = true ->
      PrimFloat.is_zero tValue = true /\
      PrimFloat.is_zero (specMargin tValue vals) = true /\
      (stat.Mean vals - specMargin tValue vals =? stat.Mean vals)%float = true /\
      (stat.Mean vals + specMargin tValue vals =? stat.Mean vals)%float = true /\
      (stat.Mean vals - specMargin tValue vals <=? stat.Mean vals)%float = true /\
      (stat.Mean vals <=? stat.Mean vals + specMargin tValue vals)%float = true).
Proof.
  intros Hq. split; [reflexivity |].
  split; [now apply run_confidenceInterval_margin |].
  intros y -> Hy Hse Hmean.
  pose proof (specMargin_scaled vals y Hy Hse) as Hmargin.
  split; [now apply is_zero_SF_iff, scaled_intervalDist |].
  split; [now apply is_zero_SF_iff |].
  split; [now apply eqb_sub_zero |]. split; [now apply eqb_add_zero |].
  split; [now apply leb_sub_zero | now apply leb_add_zero].
Qed.

Lemma confidenceInterval_formula_witness :
  run sampleLibrary (confidenceInterval [5; 6; 7]%float 0.95%float)
  = Some (6%float, 6%float) /\
  PrimFloat.is_zero
    (specMargin (scaled (intervalDist [5; 6; 7]%float) 4.302652729911275%float)
                [5; 6; 7]%float) = true /\
  (0 <? specMargin 4.302652729911275%float [5; 6; 7]%float)%float = true.
Proof.
  destruct (confidenceInterval_formula sampleLibrary [5; 6; 7]%float 0.95%float
              (scaled (intervalDist [5; 6; 7]%float) 4.302652729911275%float) eq_refl)
    as (_ & Hrun & Hzero).
  split; [exact Hrun |].
  destruct (Hzero 4.302652729911275%float eq_refl eq_refl eq_refl eq_refl)
    as (_ & Hmargin & _).
  split; [exact Hmargin | reflexivity].
Defined.

(** The bounds of a sample whose sum overflows: the two values of
    [hugeSample] add up to an infinity, the standard deviation is NaN, and
    so are both bounds, whatever the library answers; [low <= mean] is
    then false. *)
Lemma confidenceInterval_of_huge_sample :
  len hugeSample = 2 /\
  (forall h lo hi,
      run h (confidenceInterval hugeSample 0.95%float) = Some (lo, hi) ->
      lo = nan /\ hi = nan /\ (lo <=? stat.Mean hugeSample)%float = false) /\
  run sampleLibrary (confidenceInterval hugeSample 0.95%float) = Some (nan, nan).
Proof.
  split; [reflexivity |]. split; [| reflexivity].
  intros h lo hi Hrun. rewrite run_confidenceInterval in Hrun.
  apply bind_Some in Hrun as (q & _ & Hrun). cbv zeta in Hrun.
  change (stat.StdDev hugeSample / math.Sqrt (float64_of_int (len hugeSample)))%float
    with nan in Hrun.
  rewrite mul_nan_r, sub_nan_r, add_nan_r in Hrun. injection Hrun as <- <-.
  split; [reflexivity | split; [reflexivity | apply leb_nan_l]].
Qed.

(** C7, as the code has it.  For a sample whose mean and standard error
    are finite, and two confidence levels [c1 <= c2] at which the library
    answers with a finite standard quantile, scaled by [Sigma] and shifted
    by [Mu], [confidenceInterval] returns at both levels and the interval
    of the second level contains the interval of the first: with [Sigma]
    and [Mu] at zero, the bounds of both equal the mean. *)
Theorem confidenceInterval_widens
    (h : handler) (vals : list float64) (c1 c2 y1 y2 : float64) :
  (c1 <=? c2)%float = true ->
  h (Quantile (StudentsT.withNu (float64_of_int (len vals - 1)))
              ((1 + c1) / 2)%float) = Some (scaled (intervalDist vals) y1) ->
  h (Quantile (StudentsT.withNu (float64_of_int (len vals - 1)))
              ((1 + c2) / 2)%float) = Some (scaled (intervalDist vals) y2) ->
  finite64 y1 = true -> finite64 y2 = true ->
  finite64 (stat.Mean vals) = true -> finite64 (stdErr vals) = true ->
  exists lo1 hi1 lo2 hi2,
    run h (confidenceInterval vals c1) = Some (lo1, hi1) /\
    run h (confidenceInterval vals c2) = Some (lo2, hi2) /\
    (lo2 <=? lo1)%float = true /\ (hi1 <=? hi2)%float = true /\
    (lo1 =? stat.Mean vals)%float = true /\ (hi1 =? stat.Mean vals)%float = true /\
    (lo2 =? stat.Mean vals)%float = true /\ (hi2 =? stat.Mean vals)%float = true.
Proof.
  intros _ Hq1 Hq2 Hy1 Hy2 Hmean Hse.
  pose proof (specMargin_scaled vals y1 Hy1 Hse) as Hm1.
  pose proof (specMargin_scaled vals y2 Hy2 Hse) as Hm2.
  do 4 eexists.
  split; [exact (run_confidenceInterval_margin h vals c1 _ Hq1) |].
  split; [exact (run_confidenceInterval_margin h vals c2 _ Hq2) |].
  split; [now apply leb_sub_zeros |]. split; [now apply leb_add_zeros |].
  split; [now apply eqb_sub_zero |]. split; [now apply eqb_add_zero |].
  split; [now apply eqb_sub_zero | now apply eqb_add_zero].
Qed.

Lemma confidenceInterval_widens_witness :
  exists lo1 hi1 lo2 hi2,
    run sampleLibrary (confidenceInterval [5; 6; 7]%float 0.90%float) = Some (lo1, hi1) /\
    run sampleLibrary (confidenceInterval [5; 6; 7]%float 0.99%float) = Some (lo2, hi2) /\
    (lo2 <=? lo1)%float = true /\ (hi1 <=? hi2)%float = true.
Proof.
  destruct (confidenceInterval_widens sampleLibrary [5; 6; 7]%float
              0.90%float 0.99%float 2.919985580355516%float 9.92484320091807%float
              eq_refl eq_refl eq_refl eq_refl eq_refl eq_refl eq_refl)
    as (lo1 & hi1 & lo2 & hi2 & H1 & H2 & Hlo & Hhi & _).
  exists lo1, hi1, lo2, hi2. auto.
Defined.

(** C7 as stated fails: for [hugeSample] the bounds are NaN at every
    level, and no comparison with NaN holds. *)
Lemma confidenceInterval_huge_sample_not_contained :
  len hugeSample = 2 /\
  (forall h lo1 hi1 lo2 hi2,
      run h (confidenceInterval hugeSample 0.90%float) = Some (lo1, hi1) ->
      run h (confidenceInterval hugeSample 0.99%float) = Some (lo2, hi2) ->
      (lo2 <=? lo1)%float = false /\ (hi1 <=? hi2)%float = false) /\
  run sampleLibrary (confidenceInterval hugeSample 0.90%float) = Some (nan, nan) /\
  run sampleLibrary (confidenceInterval hugeSample 0.99%float) = Some (nan, nan).
Proof.
  split; [reflexivity |]. split; [| split; reflexivity].
  intros h lo1 hi1 lo2 hi2 Hrun1 Hrun2.
  rewrite run_confidenceInterval in Hrun1, Hrun2.
  apply bind_Some in Hrun1 as (q1 & _ & Hrun1). cbv zeta in Hrun1.
  apply bind_Some in Hrun2 as (q2 & _ & Hrun2). cbv zeta in Hrun2.
  change (stat.StdDev hugeSample / math.Sqrt (float64_of_int (len hugeSample)))%float
    with nan in Hrun1, Hrun2.
  rewrite mul_nan_r, sub_nan_r, add_nan_r in Hrun1, Hrun2.
  injection Hrun1 as <- <-. injection Hrun2 as <- <-.
  split; apply leb_nan_l.
Qed.

(** ** C8: one convention for the variance *)

Lemma variance_loop (mean : float64) (l : list float64) : forall ss compensation,
  fold_left (fun '(ss, compensation) v =>
               let d := (v - mean)%float in
               ((ss + d * d)%float, (compensation + d)%float))
            l (ss, compensation)
  = (fold_left PrimFloat.add (squares (map (fun v => (v - mean)%float) l)) ss,
     fold_left PrimFloat.add (map (fun v => (v - mean)%float) l) compensation).
Proof.
  induction l as [| v l IH]; intros ss compensation; [reflexivity |].
  cbn [fold_left map squares]. rewrite IH. reflexivity.
Qed.

Lemma Variance_unbiased x : stat.Variance x = unbiasedVariance x.
Proof.
  unfold stat.Variance, unbiasedVariance, deviations, floats.Sum.
  now rewrite variance_loop.
Qed.

(** C8, as the code has it.  The mean is the sum over [n]; the variance is
    the sum of the squared deviations, corrected by the square of the sum
    of the deviations over [n], over [n - 1]; the standard deviation is
    its square root; and this one variance is the one in the t statistic
    of [welchTTest], in the margin of [confidenceInterval] and in the
    standard deviations [analyzeSegment] reports. *)
Theorem variance_convention :
  (forall x, stat.Mean x = (floats.Sum x / float64_of_int (len x))%float) /\
  (forall x, stat.Variance x = unbiasedVariance x) /\
  (forall x, stat.StdDev x = math.Sqrt (unbiasedVariance x)) /\
  (forall h x y t p,
      bothPassGuard x y -> run h (welchTTest x y) = Some (t, p) ->
      t = ((stat.Mean x - stat.Mean y)
           / math.Sqrt (unbiasedVariance x / float64_of_int (len x)
                        + unbiasedVariance y / float64_of_int (len y)))%float) /\
  (forall h vals confidenceLevel lo hi,
      run h (confidenceInterval vals confidenceLevel) = Some (lo, hi) ->
      exists tValue,
        h (quantileCall vals confidenceLevel) = Some tValue /\
        lo = (stat.Mean vals
              - tValue * (math.Sqrt (unbiasedVariance vals)
                          / math.Sqrt (float64_of_int (len vals))))%float /\
        hi = (stat.Mean vals
              + tValue * (math.Sqrt (unbiasedVariance vals)
                          / math.Sqrt (float64_of_int (len vals))))%float) /\
  (forall h benchmark experiment confidenceLevel r,
      run h (analyzeSegment benchmark experiment confidenceLevel) = Some r ->
      AnalysisResult.StdDev (TimeSegmentAnalysis.Benchmark r)
      = math.Sqrt (unbiasedVariance (values benchmark)) /\
      AnalysisResult.StdDev (TimeSegmentAnalysis.Experiment r)
      = math.Sqrt (unbiasedVariance (values experiment))).
Proof.
  split; [reflexivity |]. split; [exact Variance_unbiased |].
  split; [intros x; unfold stat.StdDev; now rewrite Variance_unbiased |].
  split; [| split].
  - intros h x y t p Hg Hrun.
    apply run_welchTTest_Some in Hrun as (-> & _); [| exact Hg].
    unfold tStatistic. now rewrite !Variance_unbiased.
  - intros h vals confidenceLevel lo hi Hrun.
    rewrite run_confidenceInterval in Hrun.
    apply bind_Some in Hrun as (tValue & Hq & Hrun). cbv zeta in Hrun.
    injection Hrun as <- <-. exists tValue.
    unfold stat.StdDev. rewrite Variance_unbiased. auto.
  - intros h benchmark experiment confidenceLevel r Hrun.
    apply run_analyzeSegment in Hrun as (t & p & bCI & eCI & _ & _ & _ & ->).
    cbn. unfold stat.StdDev. now rewrite !Variance_unbiased.
Qed.

(** C8 as stated fails: the variance of the sample [1, 3] is 2, its sum
    of squared deviations over [n - 1 = 1], where the denominator [n]
    gives 1; the standard deviations differ accordingly. *)
Lemma variance_denominator_is_not_n :
  stat.Variance [1; 3]%float = 2%float /\
  varianceOverN [1; 3]%float = 1%float /\
  (stat.StdDev [1; 3]%float =? stdDevOverN [1; 3]%float)%float = false.
Proof. repeat split. Qed.

(** ** C1: constant samples with different means *)

(** What the code fixes of the scenario baseline [10, 10, 10, 10],
    experiment [11, 11, 11, 11] at the level 0.95: the difference is 10
    per cent, the t statistic is the negative infinity, the degrees of
    freedom are built from the three squares of zero that [math.Pow]
    returns (NaN when that square is zero), and the p-value is twice the
    survival function of the library at the positive infinity;
    [welchTTest] has no branch for zero variances, so whether the segment
    is significant is the library's answer. *)
Lemma segment_of_tens_and_elevens h benchmark experiment r :
  values benchmark = tens -> values experiment = elevens ->
  run h (analyzeSegment benchmark experiment 0.95%float) = Some r ->
  TimeSegmentAnalysis.Difference r = 10%float /\
  tStatistic tens elevens = neg_infinity /\
  (0 / (0 / 3 + 0 / 3))%float = nan /\
  exists a s,
    h (math_Pow 0%float 2%float) = Some a /\
    h (Survival (StudentsT.withNu (a / (a / 3 + a / 3))%float) infinity) = Some s /\
    TimeSegmentAnalysis.PValue r = (2 * s)%float /\
    TimeSegmentAnalysis.Significant r = (2 * s <? 1 - 0.95)%float.
Proof.
  intros Hb He Hrun.
  apply run_analyzeSegment in Hrun as (t & p & bCI & eCI & Hw & _ & _ & ->).
  rewrite Hb, He in *. cbn [TimeSegmentAnalysis.Difference TimeSegmentAnalysis.PValue
                             TimeSegmentAnalysis.Significant].
  split; [reflexivity |]. split; [reflexivity |]. split; [reflexivity |].
  apply run_welchTTest_Some in Hw as (-> & a & b & c & s & Ha & Hb' & Hc & Hs & ->);
    [| reflexivity].
  change (stat.Variance tens / float64_of_int (len tens)
          + stat.Variance elevens / float64_of_int (len elevens))%float
    with 0%float in Ha.
  change (stat.Variance tens / float64_of_int (len tens))%float with 0%float in Hb'.
  change (stat.Variance elevens / float64_of_int (len elevens))%float with 0%float in Hc.
  rewrite Ha in Hb', Hc. injection Hb' as <-. injection Hc as <-.
  exists a, s. repeat split; [exact Ha | exact Hs].
Qed.

(** * Further properties of the program *)

(** ** filterByLabel: the span of a series, and filtering twice *)

Lemma filterByLabel_fold_dates label data filtered minDate maxDate :
  fold_left
     (fun '(filtered, minDate, maxDate) m =>
        if String.eqb (Measurement.Label m) label then
          (filtered ++ [m],
           if Before (Measurement.Date m) minDate then Measurement.Date m else minDate,
           if After (Measurement.Date m) maxDate then Measurement.Date m else maxDate)
        else (filtered, minDate, maxDate))
     data (filtered, minDate, maxDate)
  = (filtered ++ filter (hasLabel label) data,
     earliest minDate (dates (filter (hasLabel label) data)),
     latest maxDate (dates (filter (hasLabel label) data))).
Proof.
  revert filtered minDate maxDate.
  induction data as [| m data IH]; intros filtered minDate maxDate; simpl.
  - now rewrite app_nil_r.
  - destruct (String.eqb_spec (Measurement.Label m) label) as [Heq | Hne].
    + rewrite IH, filter_cons_True by exact Heq. rewrite <- app_assoc. simpl.
      unfold Before, After.
      f_equal; [f_equal |]; unfold earliest, latest; simpl; f_equal.
      * destruct (Z.ltb_spec (Measurement.Date m) minDate); lia.
      * destruct (Z.ltb_spec maxDate (Measurement.Date m)); lia.
    + rewrite IH, filter_cons_False by exact Hne. reflexivity.
Qed.

Lemma filterByLabel_eq now data label :
  filterByLabel now data label =
  {| TimeSeries.Label := label;
     TimeSeries.Measurements := filter (hasLabel label) data;
     TimeSeries.MinDate := earliest now (dates (filter (hasLabel label) data));
     TimeSeries.MaxDate := latest zeroTime (dates (filter (hasLabel label) data)) |}.
Proof. unfold filterByLabel. now rewrite filterByLabel_fold_dates. Qed.

Lemma earliest_le t l : earliest t l <= t /\ forall d, d ∈ l -> earliest t l <= d.
Proof.
  revert t. induction l as [| a l IH]; intros t; unfold earliest in *; simpl.
  - split; [lia | intros d H; inversion H].
  - destruct (IH (Z.min t a)) as [H1 H2]. split; [lia |].
    intros d Hd. apply elem_of_cons in Hd as [-> | Hd]; [lia | auto].
Qed.

Lemma earliest_attained t l : earliest t l = t \/ earliest t l ∈ l.
Proof.
  revert t. induction l as [| a l IH]; intros t; unfold earliest in *; simpl.
  - now left.
  - destruct (IH (Z.min t a)) as [H | H].
    + rewrite H. destruct (Z.min_spec t a) as [[_ ->] | [_ ->]]; [now left | right; left].
    + right. now right.
Qed.

Lemma latest_ge t l : t <= latest t l /\ forall d, d ∈ l -> d <= latest t l.
Proof.
  revert t. induction l as [| a l IH]; intros t; unfold latest in *; simpl.
  - split; [lia | intros d H; inversion H].
  - destruct (IH (Z.max t a)) as [H1 H2]. split; [lia |].
    intros d Hd. apply elem_of_cons in Hd as [-> | Hd]; [lia | auto].
Qed.

Lemma latest_attained t l : latest t l = t \/ latest t l ∈ l.
Proof.
  revert t. induction l as [| a l IH]; intros t; unfold latest in *; simpl.
  - now left.
  - destruct (IH (Z.max t a)) as [H | H].
    + rewrite H. destruct (Z.max_spec t a) as [[_ ->] | [_ ->]]; [right; left | now left].
    + right. now right.
Qed.

Lemma elem_of_dates d ms : d ∈ dates ms <-> exists m, m ∈ ms /\ Measurement.Date m = d.
Proof.
  unfold dates. rewrite list_elem_of_fmap. split; intros (m & H1 & H2); eauto.
Qed.

(** X1. The series [filterByLabel] returns spans its measurements:
    [MinDate] is not after any of their dates nor after the call's
    [time.Now()], [MaxDate] is not before any of them nor before the zero
    time, and each bound is the date of a measurement of the series unless
    it still is its initial value. *)
Theorem filterByLabel_dates (now : Time) (data : list Measurement.t) (label : string) :
  let series := filterByLabel now data label in
  (forall m, m ∈ TimeSeries.Measurements series ->
     Before (Measurement.Date m) (TimeSeries.MinDate series) = false /\
     After (Measurement.Date m) (TimeSeries.MaxDate series) = false) /\
  After (TimeSeries.MinDate series) now = false /\
  Before (TimeSeries.MaxDate series) zeroTime = false /\
  (TimeSeries.MinDate series = now \/
   exists m, m ∈ TimeSeries.Measurements series /\
             Measurement.Date m = TimeSeries.MinDate series) /\
  (TimeSeries.MaxDate series = zeroTime \/
   exists m, m ∈ TimeSeries.Measurements series /\
             Measurement.Date m = TimeSeries.MaxDate series).
Proof.
  intros series. subst series. rewrite filterByLabel_eq. simpl.
  set (ms := filter (hasLabel label) data).
  destruct (earliest_le now (dates ms)) as [Hn Hmin].
  destruct (latest_ge zeroTime (dates ms)) as [Hz Hmax].
  unfold Before, After.
  split; [| split; [| split; [| split]]].
  - intros m Hm.
    assert (Hd : Measurement.Date m ∈ dates ms) by (apply elem_of_dates; eauto).
    specialize (Hmin _ Hd). specialize (Hmax _ Hd).
    split; apply Z.ltb_ge; assumption.
  - apply Z.ltb_ge; assumption.
  - apply Z.ltb_ge; assumption.
  - destruct (earliest_attained now (dates ms)) as [H | H]; [now left | right].
    apply elem_of_dates in H. exact H.
  - destruct (latest_attained zeroTime (dates ms)) as [H | H]; [now left | right].
    apply elem_of_dates in H. exact H.
Qed.

Lemma containsLabel_elem_of labels target :
  containsLabel labels target = true <-> target ∈ labels.
Proof.
  induction labels as [| label rest IH]; simpl.
  - split; [discriminate | intros H; inversion H].
  - rewrite elem_of_cons. destruct (String.eqb_spec label target) as [-> | Hne].
    + split; auto.
    + rewrite IH. split; [auto | intros [H | H]; [congruence | exact H]].
Qed.

Lemma filter_hasLabel_nil label (data : list Measurement.t) :
  filter (hasLabel label) data = [] <-> ~ exists m, m ∈ data /\ Measurement.Label m = label.
Proof.
  split.
  - intros Hnil (m & Hin & Hl).
    assert (H : m ∈ filter (hasLabel label) data) by (apply list_elem_of_filter; auto).
    rewrite Hnil in H. inversion H.
  - intros Hno. destruct (filter (hasLabel label) data) as [| m ms] eqn:Hf; [reflexivity |].
    exfalso. apply Hno. exists m.
    assert (H : m ∈ filter (hasLabel label) data) by (rewrite Hf; left).
    apply list_elem_of_filter in H as [H1 H2]. auto.
Qed.

Lemma containsLabel_occurs (data : list Measurement.t) (labels : list string) label :
  labels ≡ₚ getUniqueLabels data ->
  containsLabel labels label = true <-> exists m, m ∈ data /\ Measurement.Label m = label.
Proof.
  intros Hperm. rewrite containsLabel_elem_of, Hperm. apply elem_of_getUniqueLabels.
Qed.

Lemma containsLabel_iff_nonempty now data labels label :
  labels ≡ₚ getUniqueLabels data ->
  containsLabel labels label = true <->
  TimeSeries.Measurements (filterByLabel now data label) <> [].
Proof.
  intros Hperm.
  rewrite filterByLabel_Measurements, filter_hasLabel_nil, (containsLabel_occurs data) by exact Hperm.
  split; [tauto |]. intros H.
  destruct (containsLabel labels label) eqn:Hc; [now apply (containsLabel_occurs data labels) |].
  exfalso. apply H. intros Hex. apply (containsLabel_occurs data labels) in Hex; congruence.
Qed.

(** X2. Over the labels of the data, in whatever order they are listed,
    a label passes [containsLabel] exactly when [filterByLabel] finds a
    measurement for it; for a label that does not pass, [filterByLabel]
    returns the empty series, with [MinDate] the call's [time.Now()] and
    [MaxDate] the zero time. *)
Theorem containsLabel_iff_series_not_empty
    (now : Time) (data : list Measurement.t) (labels : list string) (label : string) :
  labels ≡ₚ getUniqueLabels data ->
  (containsLabel labels label = true <->
   TimeSeries.Measurements (filterByLabel now data label) <> []) /\
  (containsLabel labels label = false ->
   filterByLabel now data label =
   {| TimeSeries.Label := label; TimeSeries.Measurements := [];
      TimeSeries.MinDate := now; TimeSeries.MaxDate := zeroTime |}).
Proof.
  intros Hperm. split; [now apply containsLabel_iff_nonempty |].
  intros Hc. rewrite filterByLabel_eq.
  assert (Hnil : filter (hasLabel label) data = []).
  { apply filter_hasLabel_nil. intros Hex.
    apply (containsLabel_occurs data labels) in Hex; congruence. }
  now rewrite Hnil.
Qed.

Lemma containsLabel_iff_series_not_empty_witness :
  containsLabel (getUniqueLabels sampleData) "base" = true <->
  TimeSeries.Measurements (filterByLabel 1000 sampleData "base") <> [].
Proof.
  exact (proj1 (containsLabel_iff_series_not_empty 1000 sampleData
                  (getUniqueLabels sampleData) "base" (reflexivity _))).
Defined.

Lemma filter_hasLabel_idemp label (data : list Measurement.t) :
  filter (hasLabel label) (filter (hasLabel label) data) = filter (hasLabel label) data.
Proof.
  induction data as [| m data IH]; [reflexivity |].
  destruct (decide (hasLabel label m)) as [H | H].
  - rewrite !filter_cons_True by exact H. now rewrite IH.
  - rewrite filter_cons_False by exact H. exact IH.
Qed.

Lemma filter_hasLabel_other label label' (data : list Measurement.t) :
  label <> label' ->
  filter (hasLabel label') (filter (hasLabel label) data) = [].
Proof.
  intros Hne. induction data as [| m data IH]; [reflexivity |].
  destruct (decide (hasLabel label m)) as [H | H].
  - rewrite filter_cons_True by exact H. rewrite filter_cons_False; [exact IH |].
    unfold hasLabel in *. congruence.
  - rewrite filter_cons_False by exact H. exact IH.
Qed.

(** X3. Filtering the measurements of a filtered series by the same
    label changes nothing, every measurement of the series carries the
    label, and filtering them by another label leaves none. *)
Theorem filterByLabel_again (now : Time) (data : list Measurement.t) (label label' : string) :
  filterByLabel now (TimeSeries.Measurements (filterByLabel now data label)) label
  = filterByLabel now data label /\
  (forall m, m ∈ TimeSeries.Measurements (filterByLabel now data label) ->
             Measurement.Label m = label) /\
  (label <> label' ->
   TimeSeries.Measurements
     (filterByLabel now (TimeSeries.Measurements (filterByLabel now data label)) label')
   = []).
Proof.
  split; [| split].
  - rewrite !filterByLabel_eq. cbn [TimeSeries.Measurements].
    now rewrite filter_hasLabel_idemp.
  - rewrite filterByLabel_Measurements. intros m Hm.
    apply list_elem_of_filter in Hm as [Hm _]. exact Hm.
  - intros Hne. rewrite !filterByLabel_Measurements.
    now apply filter_hasLabel_other.
Qed.

Lemma Hour_range t : 0 <= Hour t < 24.
Proof.
  unfold Hour, nanosPerDay.
  assert (H : 0 < nanosPerHour) by reflexivity.
  pose proof (Z.mod_pos_bound t (24 * nanosPerHour) ltac:(lia)) as Hm.
  split.
  - apply Z.div_pos; lia.
  - apply Z.div_lt_upper_bound; lia.
Qed.

Lemma Weekday_range t : 0 <= Weekday t < 7.
Proof. unfold Weekday. apply Z.mod_pos_bound. lia. Qed.

(** ** groupByHour and groupByDayOfWeek *)

Section Counting.
Variable f : Time -> Z.

Lemma total_bucket_absent (keys : list Z) (m : Measurement.t) :
  f (Measurement.Date m) ∉ keys ->
  total (map (fun i => if decide (inBucket f i m) then 1 else 0) keys) = 0.
Proof.
  induction keys as [| k keys IH]; intros Hnin; [reflexivity |].
  apply not_elem_of_cons in Hnin as [Hne Hnin].
  rewrite map_cons, total_cons, decide_False by exact Hne.
  now rewrite IH.
Qed.

Lemma total_bucket_present (keys : list Z) (m : Measurement.t) :
  NoDup keys -> f (Measurement.Date m) ∈ keys ->
  total (map (fun i => if decide (inBucket f i m) then 1 else 0) keys) = 1.
Proof.
  induction 1 as [| k keys Hnin Hnd IH]; intros Hin; [inversion Hin |].
  rewrite map_cons, total_cons.
  destruct (decide (inBucket f k m)) as [Heq | Hne].
  - unfold inBucket in Heq. subst k. now rewrite total_bucket_absent.
  - apply elem_of_cons in Hin as [Heq | Hin]; [now unfold inBucket in Hne |].
    now rewrite IH.
Qed.

Lemma total_bucket_counts (keys : list Z) (measurements : list Measurement.t) :
  NoDup keys ->
  (forall m, m ∈ measurements -> f (Measurement.Date m) ∈ keys) ->
  total (map (fun i => len (filter (inBucket f i) measurements)) keys) = len measurements.
Proof.
  intros Hnd. induction measurements as [| m ms IH]; intros Hall.
  - apply total_zeros.
  - rewrite len_cons, <- IH by (intros m' H; apply Hall; now right).
    rewrite <- (total_bucket_present keys m Hnd) by (apply Hall; left).
    rewrite <- total_pointwise_add.
    f_equal. apply map_ext. intros i.
    destruct (decide (inBucket f i m)) as [Heq | Hne].
    + rewrite filter_cons_True by exact Heq. apply len_cons.
    + rewrite filter_cons_False by exact Hne. lia.
Qed.

Lemma groupBy_bucket measurements i :
  groupBy f measurements ∅ !! i =
  match filter (inBucket f i) measurements with
  | [] => None
  | bucket => Some bucket
  end.
Proof.
  rewrite groupBy_lookup, lookup_empty.
  now destruct (filter (inBucket f i) measurements).
Qed.

Lemma groupBy_default measurements i :
  default [] (groupBy f measurements ∅ !! i) = filter (inBucket f i) measurements.
Proof. rewrite groupBy_bucket. now destruct (filter (inBucket f i) measurements). Qed.

Lemma groupBy_Some measurements i bucket :
  groupBy f measurements ∅ !! i = Some bucket ->
  bucket = filter (inBucket f i) measurements /\ bucket <> [] /\
  exists m, m ∈ measurements /\ f (Measurement.Date m) = i.
Proof.
  intros H.
  assert (Hs : is_Some (groupBy f measurements ∅ !! i)) by eauto.
  apply groupBy_is_Some in Hs.
  rewrite groupBy_bucket in H.
  destruct (filter (inBucket f i) measurements); [discriminate |].
  injection H as <-. auto.
Qed.

End Counting.

(** X4. [groupByHour] has a bucket for an hour exactly when a
    measurement falls in it; the bucket holds the measurements of that
    hour in their input order, its key is in 0..23, and the sizes of the
    buckets of the hours 0..23 add up to the number of measurements. *)
Theorem groupByHour_buckets (measurements : list Measurement.t) :
  (forall hour,
      groupByHour measurements !! hour =
      match filter (inBucket Hour hour) measurements with
      | [] => None
      | bucket => Some bucket
      end) /\
  (forall hour bucket,
      groupByHour measurements !! hour = Some bucket -> 0 <= hour < 24 /\ bucket <> []) /\
  total (map (fun hour => len (default [] (groupByHour measurements !! hour))) (seqZ 0 24))
  = len measurements.
Proof.
  split; [| split].
  - intros hour. apply (groupBy_bucket Hour).
  - intros hour bucket H. apply (groupBy_Some Hour) in H as (_ & Hne & m & _ & <-).
    split; [apply Hour_range | exact Hne].
  - rewrite <- (total_bucket_counts Hour (seqZ 0 24) measurements).
    + f_equal. apply map_ext. intros hour. f_equal. apply (groupBy_default Hour).
    + apply NoDup_seqZ.
    + intros m _. apply elem_of_seqZ. pose proof (Hour_range (Measurement.Date m)). lia.
Qed.

(** X5. [groupByDayOfWeek] has a bucket for a day of the week exactly
    when a measurement falls on it; the bucket holds the measurements of
    that day in their input order, its key is in 0..6, and the sizes of
    the buckets of the days 0..6 add up to the number of measurements. *)
Theorem groupByDayOfWeek_buckets (measurements : list Measurement.t) :
  (forall day,
      groupByDayOfWeek measurements !! day =
      match filter (inBucket Weekday day) measurements with
      | [] => None
      | bucket => Some bucket
      end) /\
  (forall day bucket,
      groupByDayOfWeek measurements !! day = Some bucket -> 0 <= day < 7 /\ bucket <> []) /\
  total (map (fun day => len (default [] (groupByDayOfWeek measurements !! day))) (seqZ 0 7))
  = len measurements.
Proof.
  split; [| split].
  - intros day. apply (groupBy_bucket Weekday).
  - intros day bucket H. apply (groupBy_Some Weekday) in H as (_ & Hne & m & _ & <-).
    split; [apply Weekday_range | exact Hne].
  - rewrite <- (total_bucket_counts Weekday (seqZ 0 7) measurements).
    + f_equal. apply map_ext. intros day. f_equal. apply (groupBy_default Weekday).
    + apply NoDup_seqZ.
    + intros m _. apply elem_of_seqZ. pose proof (Weekday_range (Measurement.Date m)). lia.
Qed.

(** ** analyzeTimeSeries: what is stored under a key *)

Section Lookup.
Variables (h : handler) (key : Z -> string).
Variables (benchBuckets expBuckets : gmap Z (list Measurement.t)).
Variable confidenceLevel : float64.

Lemma run_analyzeBucket_lookup i results m :
  run h (analyzeBucket key benchBuckets expBuckets confidenceLevel i results) = Some m ->
  (forall k, k <> key i -> m !! k = results !! k) /\
  match benchBuckets !! i, expBuckets !! i with
  | Some b, Some e => exists r, run h (analyzeSegment b e confidenceLevel) = Some r /\
                                m !! key i = Some r
  | _, _ => m = results
  end.
Proof.
  unfold analyzeBucket.
  destruct (benchBuckets !! i) as [b |]; [destruct (expBuckets !! i) as [e |] |].
  - intros H. apply run_bind_Some in H as (r & Hr & [= <-]). split.
    + intros k Hk. now rewrite lookup_insert_ne.
    + exists r. split; [exact Hr | apply lookup_insert_eq].
  - intros [= <-]. auto.
  - intros [= <-]. auto.
Qed.

Lemma lookup_forRange n : forall lo results m,
  run h (forRange lo n (analyzeBucket key benchBuckets expBuckets confidenceLevel) results)
  = Some m ->
  (forall i j, lo <= i < lo + Z.of_nat n -> lo <= j < lo + Z.of_nat n ->
               key i = key j -> i = j) ->
  (forall k, (forall i, lo <= i < lo + Z.of_nat n -> k <> key i) -> m !! k = results !! k) /\
  (forall i, lo <= i < lo + Z.of_nat n ->
     match benchBuckets !! i, expBuckets !! i with
     | Some b, Some e => exists r, run h (analyzeSegment b e confidenceLevel) = Some r /\
                                   m !! key i = Some r
     | _, _ => m !! key i = results !! key i
     end).
Proof.
  induction n as [| n IH]; intros lo results m Hrun Hinj.
  - injection Hrun as <-. split; [reflexivity | intros i Hi; lia].
  - cbn [forRange] in Hrun. apply run_bind_Some in Hrun as (m1 & H1 & Hrest).
    apply run_analyzeBucket_lookup in H1 as [Hother Hhere].
    destruct (IH _ _ _ Hrest) as [IHother IHin].
    { intros i j Hi Hj. apply Hinj; lia. }
    split.
    + intros k Hk. rewrite IHother by (intros i Hi; apply Hk; lia).
      apply Hother, Hk. lia.
    + intros i Hi. destruct (decide (i = lo)) as [-> | Hne].
      * assert (Hm : m !! key lo = m1 !! key lo).
        { apply IHother. intros i Hi' Hk. apply Hinj in Hk; lia. }
        rewrite Hm.
        destruct (benchBuckets !! lo) as [b |]; [destruct (expBuckets !! lo) as [e |] |];
          [exact Hhere | now subst m1 ..].
      * specialize (IHin i ltac:(lia)).
        assert (Hm1 : m1 !! key i = results !! key i).
        { apply Hother. intros Hk. apply Hinj in Hk; lia. }
        rewrite <- Hm1.
        exact IHin.
Qed.

End Lookup.

Lemma hourKey_inj i j : 0 <= i < 24 -> 0 <= j < 24 -> hourKey i = hourKey j -> i = j.
Proof.
  destruct segment_keys_parts as (_ & Hh & _).
  intros Hi Hj. apply (NoDup_fmap_inj hourKey (seqZ 0 24)); auto; apply elem_of_seqZ; lia.
Qed.

Lemma dayKey_inj i j : 0 <= i < 7 -> 0 <= j < 7 -> dayKey i = dayKey j -> i = j.
Proof.
  destruct segment_keys_parts as (_ & _ & Hd & _).
  intros Hi Hj. apply (NoDup_fmap_inj dayKey (seqZ 0 7)); auto; apply elem_of_seqZ; lia.
Qed.

Lemma hourKey_not_dayKey i j : 0 <= i < 24 -> 0 <= j < 7 -> hourKey i <> dayKey j.
Proof.
  destruct segment_keys_parts as (_ & _ & _ & Hhd).
  intros Hi Hj Hk. apply (Hhd (hourKey i)); [now apply hourKey_in_range |].
  rewrite Hk. now apply dayKey_in_range.
Qed.

Lemma overall_not_hourKey i : 0 <= i < 24 -> "overall" <> hourKey i.
Proof.
  destruct segment_keys_parts as (Ho & _).
  intros Hi Hk. apply Ho. rewrite Hk. apply elem_of_app. left. now apply hourKey_in_range.
Qed.

Lemma overall_not_dayKey i : 0 <= i < 7 -> "overall" <> dayKey i.
Proof.
  destruct segment_keys_parts as (Ho & _).
  intros Hi Hk. apply Ho. rewrite Hk. apply elem_of_app. right. now apply dayKey_in_range.
Qed.

Lemma len_nonempty {A} (l : list A) : l <> [] -> 1 <= len l.
Proof. unfold len. destruct l; [congruence | cbn; lia]. Qed.

Lemma run_analyzeSegment_counts h benchmark experiment confidenceLevel r :
  run h (analyzeSegment benchmark experiment confidenceLevel) = Some r ->
  AnalysisResult.Count (TimeSegmentAnalysis.Benchmark r) = len benchmark /\
  AnalysisResult.Count (TimeSegmentAnalysis.Experiment r) = len experiment.
Proof.
  intros H. apply run_analyzeSegment in H as (t & p & bCI & eCI & _ & _ & _ & ->).
  cbn. unfold values, measurementsToValues, len. now rewrite !length_map.
Qed.

Lemma lookup_analyzeTimeSeries h benchmark experiment confidenceLevel m :
  run h (analyzeTimeSeries benchmark experiment confidenceLevel) = Some m ->
  (exists r, m !! "overall" = Some r /\
             run h (analyzeSegment (TimeSeries.Measurements benchmark)
                                   (TimeSeries.Measurements experiment) confidenceLevel)
             = Some r) /\
  (forall hour r, 0 <= hour < 24 -> m !! hourKey hour = Some r ->
     bucketOf Hour hour benchmark <> [] /\ bucketOf Hour hour experiment <> [] /\
     run h (analyzeSegment (bucketOf Hour hour benchmark) (bucketOf Hour hour experiment)
                           confidenceLevel) = Some r) /\
  (forall day r, 0 <= day < 7 -> m !! dayKey day = Some r ->
     bucketOf Weekday day benchmark <> [] /\ bucketOf Weekday day experiment <> [] /\
     run h (analyzeSegment (bucketOf Weekday day benchmark) (bucketOf Weekday day experiment)
                           confidenceLevel) = Some r).
Proof.
  unfold analyzeTimeSeries. intros Hrun.
  apply run_bind_Some in Hrun as (overall & Hoverall & Hrun).
  apply run_bind_Some in Hrun as (m1 & Hhours & Hdays).
  apply lookup_forRange in Hhours as [Hho Hhi];
    [| intros i j Hi Hj; apply hourKey_inj; lia].
  apply lookup_forRange in Hdays as [Hdo Hdi];
    [| intros i j Hi Hj; apply dayKey_inj; lia].
  split; [| split].
  - exists overall. split; [| exact Hoverall].
    rewrite Hdo by (intros i Hi; apply overall_not_dayKey; lia).
    rewrite Hho by (intros i Hi; apply overall_not_hourKey; lia).
    apply lookup_insert_eq.
  - intros hour r Hhour Hr.
    rewrite Hdo in Hr by (intros i Hi; apply hourKey_not_dayKey; lia).
    specialize (Hhi hour ltac:(lia)). unfold bucketOf.
    unfold groupByHour in Hhi. fold (groupBy Hour (TimeSeries.Measurements benchmark) ∅) in Hhi.
    fold (groupBy Hour (TimeSeries.Measurements experiment) ∅) in Hhi.
    rewrite !groupBy_bucket in Hhi.
    destruct (filter (inBucket Hour hour) (TimeSeries.Measurements benchmark)) as [| b bs].
    { rewrite Hhi, lookup_insert_ne, lookup_empty in Hr;
        [discriminate | apply overall_not_hourKey; lia]. }
    destruct (filter (inBucket Hour hour) (TimeSeries.Measurements experiment)) as [| e es].
    { rewrite Hhi, lookup_insert_ne, lookup_empty in Hr;
        [discriminate | apply overall_not_hourKey; lia]. }
    destruct Hhi as (r' & Hrun & Hr'). rewrite Hr' in Hr. injection Hr as <-.
    split; [discriminate | split; [discriminate | exact Hrun]].
  - intros day r Hday Hr.
    specialize (Hdi day ltac:(lia)). unfold bucketOf.
    unfold groupByDayOfWeek in Hdi.
    fold (groupBy Weekday (TimeSeries.Measurements benchmark) ∅) in Hdi.
    fold (groupBy Weekday (TimeSeries.Measurements experiment) ∅) in Hdi.
    rewrite !groupBy_bucket in Hdi.
    destruct (filter (inBucket Weekday day) (TimeSeries.Measurements benchmark)) as [| b bs].
    { rewrite Hdi, Hho, lookup_insert_ne, lookup_empty in Hr;
        [discriminate | apply overall_not_dayKey; lia |].
      intros i Hi Hk. symmetry in Hk. apply hourKey_not_dayKey in Hk; lia. }
    destruct (filter (inBucket Weekday day) (TimeSeries.Measurements experiment)) as [| e es].
    { rewrite Hdi, Hho, lookup_insert_ne, lookup_empty in Hr;
        [discriminate | apply overall_not_dayKey; lia |].
      intros i Hi Hk. symmetry in Hk. apply hourKey_not_dayKey in Hk; lia. }
    destruct Hdi as (r' & Hrun & Hr'). rewrite Hr' in Hr. injection Hr as <-.
    split; [discriminate | split; [discriminate | exact Hrun]].
Qed.

(** X6. In a map [analyzeTimeSeries] returns, ["overall"] holds the
    analysis of the two whole series, and the key of an hour, or of a day
    of the week, holds the analysis of exactly the measurements of the two
    series in that hour, or on that day: no segment is overwritten by
    another, and each side of an hourly or daily segment counts at least
    one measurement. *)
Theorem analyzeTimeSeries_segments
    (h : handler) (benchmark experiment : TimeSeries.t) (confidenceLevel : float64)
    (m : gmap string TimeSegmentAnalysis.t) :
  run h (analyzeTimeSeries benchmark experiment confidenceLevel) = Some m ->
  (exists r, m !! "overall" = Some r /\
             run h (analyzeSegment (TimeSeries.Measurements benchmark)
                                   (TimeSeries.Measurements experiment) confidenceLevel)
             = Some r) /\
  (forall hour r, 0 <= hour < 24 -> m !! hourKey hour = Some r ->
     run h (analyzeSegment (bucketOf Hour hour benchmark) (bucketOf Hour hour experiment)
                           confidenceLevel) = Some r /\
     AnalysisResult.Count (TimeSegmentAnalysis.Benchmark r)
     = len (bucketOf Hour hour benchmark) /\
     AnalysisResult.Count (TimeSegmentAnalysis.Experiment r)
     = len (bucketOf Hour hour experiment) /\
     1 <= AnalysisResult.Count (TimeSegmentAnalysis.Benchmark r) /\
     1 <= AnalysisResult.Count (TimeSegmentAnalysis.Experiment r)) /\
  (forall day r, 0 <= day < 7 -> m !! dayKey day = Some r ->
     run h (analyzeSegment (bucketOf Weekday day benchmark)
                           (bucketOf Weekday day experiment) confidenceLevel) = Some r /\
     AnalysisResult.Count (TimeSegmentAnalysis.Benchmark r)
     = len (bucketOf Weekday day benchmark) /\
     AnalysisResult.Count (TimeSegmentAnalysis.Experiment r)
     = len (bucketOf Weekday day experiment) /\
     1 <= AnalysisResult.Count (TimeSegmentAnalysis.Benchmark r) /\
     1 <= AnalysisResult.Count (TimeSegmentAnalysis.Experiment r)).
Proof.
  intros Hrun. destruct (lookup_analyzeTimeSeries _ _ _ _ _ Hrun) as (Ho & Hh & Hd).
  split; [exact Ho | split].
  - intros hour r Hhour Hr. destruct (Hh hour r Hhour Hr) as (Hb & He & Hseg).
    destruct (run_analyzeSegment_counts _ _ _ _ _ Hseg) as [Hcb Hce].
    rewrite Hcb, Hce. split; [exact Hseg |]. split; [reflexivity |]. split; [reflexivity |].
    split; apply len_nonempty; assumption.
  - intros day r Hday Hr. destruct (Hd day r Hday Hr) as (Hb & He & Hseg).
    destruct (run_analyzeSegment_counts _ _ _ _ _ Hseg) as [Hcb Hce].
    rewrite Hcb, Hce. split; [exact Hseg |]. split; [reflexivity |]. split; [reflexivity |].
    split; apply len_nonempty; assumption.
Qed.

Lemma analyzeTimeSeries_segments_witness :
  exists m r,
    run sampleLibrary (analyzeTimeSeries sampleBaseline sampleBaseline 0.95%float)
    = Some m /\
    m !! hourKey 0 = Some r /\
    AnalysisResult.Count (TimeSegmentAnalysis.Benchmark r) = 2.
Proof.
  destruct (run sampleLibrary (analyzeTimeSeries sampleBaseline sampleBaseline 0.95%float))
    as [m |] eqn:Hm; [| vm_compute in Hm; discriminate Hm].
  assert (Hr : is_Some (m !! hourKey 0)).
  { vm_compute in Hm. injection Hm as <-. vm_compute. eauto. }
  destruct Hr as [r Hr]. exists m, r. split; [reflexivity | split; [exact Hr |]].
  destruct (analyzeTimeSeries_segments _ _ _ _ m Hm) as (_ & Hhour & _).
  destruct (Hhour 0 r ltac:(lia) Hr) as (_ & -> & _). reflexivity.
Defined.

(** ** analyzeSegment: the difference, the p-value and the two sides *)

Lemma div_by_zero_not_finite v z :
  is_zero_SF (Prim2SF z) = true -> finite64 (v / z)%float = false.
Proof.
  unfold finite64. rewrite FloatAxioms.div_spec. unfold SF64div.
  destruct (Prim2SF z) as [sz | | |]; try discriminate. intros _.
  now destruct (Prim2SF v).
Qed.

Lemma mul_not_finite_l v w : finite64 v = false -> finite64 (v * w)%float = false.
Proof.
  unfold finite64. rewrite FloatAxioms.mul_spec. unfold SF64mul.
  destruct (Prim2SF v) as [sv | sv | | sv mv ev]; try discriminate; intros _;
    now destruct (Prim2SF w).
Qed.

Lemma sub_zero_zero v w :
  is_zero_SF (Prim2SF v) = true -> is_zero_SF (Prim2SF w) = true ->
  is_zero_SF (Prim2SF (v - w)%float) = true.
Proof.
  rewrite FloatAxioms.sub_spec. unfold SF64sub.
  destruct (Prim2SF v) as [sv | | |]; try discriminate.
  destruct (Prim2SF w) as [sw | | |]; try discriminate.
  now destruct sv, sw.
Qed.

Lemma mul_nan_l x : (nan * x)%float = nan.
Proof. apply Prim2SF_inj. rewrite FloatAxioms.mul_spec. reflexivity. Qed.

(** X7. When the mean of the baseline is zero, the [Difference] of the
    segment is not a finite number: the code divides by that mean without
    a check.  It is NaN when the mean of the experiment is zero too. *)
Theorem analyzeSegment_zero_baseline_mean
    (h : handler) (benchmark experiment : list Measurement.t) (confidenceLevel : float64)
    (r : TimeSegmentAnalysis.t) :
  run h (analyzeSegment benchmark experiment confidenceLevel) = Some r ->
  PrimFloat.is_zero (stat.Mean (values benchmark)) = true ->
  finite64 (TimeSegmentAnalysis.Difference r) = false /\
  (PrimFloat.is_zero (stat.Mean (values experiment)) = true ->
   TimeSegmentAnalysis.Difference r = nan).
Proof.
  intros Hrun Hb. apply is_zero_SF_spec in Hb.
  apply run_analyzeSegment in Hrun as (t & p & bCI & eCI & _ & _ & _ & ->).
  cbn [TimeSegmentAnalysis.Difference]. split.
  - apply mul_not_finite_l, div_by_zero_not_finite, Hb.
  - intros He. apply is_zero_SF_spec in He.
    rewrite (div_zero_zero _ _ (sub_zero_zero _ _ He Hb) Hb). apply mul_nan_l.
Qed.

Lemma analyzeSegment_zero_baseline_mean_witness :
  exists r, run sampleLibrary (analyzeSegment zeros slower 0.95%float) = Some r /\
            finite64 (TimeSegmentAnalysis.Difference r) = false.
Proof.
  destruct (run sampleLibrary (analyzeSegment zeros slower 0.95%float))
    as [r |] eqn:Hr; [| vm_compute in Hr; discriminate Hr].
  exists r. split; [reflexivity |].
  exact (proj1 (analyzeSegment_zero_baseline_mean _ zeros slower _ r Hr eq_refl)).
Defined.


Lemma ltb_leb_trans x y z :
  (x <? y)%float = true -> (y <=? z)%float = true -> (x <? z)%float = true.
Proof.
  intros Hxy Hyz. apply ltb_fval in Hxy as (Hx & _ & Hxy).
  apply leb_fval in Hyz as (_ & Hz & Hyz).
  apply ltb_fval. split; [exact Hx | split; [exact Hz | lra]].
Qed.

(** X8. The p-value and the difference of a segment do not depend on
    the confidence level, and a segment that is significant at one level
    is significant at every lower level: raising the level never makes a
    segment significant. *)
Theorem analyzeSegment_confidence_monotone
    (h : handler) (benchmark experiment : list Measurement.t) (c1 c2 : float64)
    (r1 r2 : TimeSegmentAnalysis.t) :
  run h (analyzeSegment benchmark experiment c1) = Some r1 ->
  run h (analyzeSegment benchmark experiment c2) = Some r2 ->
  (c1 <=? c2)%float = true ->
  TimeSegmentAnalysis.PValue r1 = TimeSegmentAnalysis.PValue r2 /\
  TimeSegmentAnalysis.Difference r1 = TimeSegmentAnalysis.Difference r2 /\
  (TimeSegmentAnalysis.Significant r2 = true -> TimeSegmentAnalysis.Significant r1 = true).
Proof.
  intros H1 H2 Hc.
  apply run_analyzeSegment in H1 as (t1 & p1 & bCI1 & eCI1 & Hw1 & _ & _ & ->).
  apply run_analyzeSegment in H2 as (t2 & p2 & bCI2 & eCI2 & Hw2 & _ & _ & ->).
  rewrite Hw1 in Hw2. injection Hw2 as <- <-.
  cbn [TimeSegmentAnalysis.PValue TimeSegmentAnalysis.Difference
       TimeSegmentAnalysis.Significant].
  split; [reflexivity | split; [reflexivity |]].
  intros Hs. apply (ltb_leb_trans _ _ _ Hs).
  apply sub_mono_r; [reflexivity | exact Hc].
Qed.

Lemma analyzeSegment_confidence_monotone_witness :
  exists r1 r2,
    run sampleLibrary (analyzeSegment slower faster 0.5%float) = Some r1 /\
    run sampleLibrary (analyzeSegment slower faster 0.95%float) = Some r2 /\
    TimeSegmentAnalysis.Significant r2 = true /\
    TimeSegmentAnalysis.Significant r1 = true.
Proof.
  destruct (run sampleLibrary (analyzeSegment slower faster 0.5%float))
    as [r1 |] eqn:Hr1; [| vm_compute in Hr1; discriminate Hr1].
  destruct (run sampleLibrary (analyzeSegment slower faster 0.95%float))
    as [r2 |] eqn:Hr2; [| vm_compute in Hr2; discriminate Hr2].
  exists r1, r2.
  assert (Hs2 : TimeSegmentAnalysis.Significant r2 = true).
  { vm_compute in Hr2. injection Hr2 as <-. reflexivity. }
  split; [reflexivity | split; [reflexivity | split; [exact Hs2 |]]].
  exact (proj2 (proj2 (analyzeSegment_confidence_monotone _ slower faster _ _ r1 r2
                         Hr1 Hr2 eq_refl)) Hs2).
Defined.

Lemma SFabs_binary_round_aux s s' m e l :
  SFabs (binary_round_aux prec emax s m e l) = SFabs (binary_round_aux prec emax s' m e l).
Proof.
  unfold binary_round_aux.
  destruct (shr_fexp prec emax m e l) as [mrs' e'].
  destruct (shr_fexp prec emax _ e' loc_Exact) as [mrs'' e''].
  destruct (shr_m mrs''); [reflexivity | | reflexivity].
  now destruct (e'' <=? emax - prec).
Qed.

Lemma SFabs_binary_normalize M e :
  SFabs (binary_normalize prec emax (- M) e false) = SFabs (binary_normalize prec emax M e false).
Proof.
  destruct M as [| p | p]; [reflexivity | |].
  - change (- Z.pos p) with (Z.neg p). unfold binary_normalize, binary_round.
    destruct (shl_align _ _ _) as [mz ez]. apply SFabs_binary_round_aux.
  - change (- Z.neg p) with (Z.pos p). unfold binary_normalize, binary_round.
    destruct (shl_align _ _ _) as [mz ez]. apply SFabs_binary_round_aux.
Qed.

Lemma SFadd_comm x y : SFadd prec emax x y = SFadd prec emax y x.
Proof.
  destruct x as [sx | sx | | sx mx ex], y as [sy | sy | | sy my ey]; try reflexivity.
  - now destruct sx, sy.
  - now destruct sx, sy.
  - cbn [SFadd]. rewrite (Z.min_comm ey ex). f_equal. lia.
Qed.

Lemma add_commutes x y : (x + y)%float = (y + x)%float.
Proof.
  apply Prim2SF_inj. rewrite !FloatAxioms.add_spec. apply SFadd_comm.
Qed.

Lemma SFabs_SFsub_swap x y : SFabs (SFsub prec emax x y) = SFabs (SFsub prec emax y x).
Proof.
  destruct x as [sx | sx | | sx mx ex], y as [sy | sy | | sy my ey]; try reflexivity.
  - now destruct sx, sy.
  - now destruct sx, sy.
  - cbn [SFsub]. rewrite (Z.min_comm ey ex).
    rewrite <- SFabs_binary_normalize. f_equal. f_equal. lia.
Qed.

Lemma abs_sub_swap x y : abs (x - y) = abs (y - x).
Proof.
  apply Prim2SF_inj. rewrite !FloatAxioms.abs_spec, !FloatAxioms.sub_spec.
  apply SFabs_SFsub_swap.
Qed.

Lemma SFabs_SFdiv u u' s :
  SFabs u = SFabs u' -> SFabs (SFdiv prec emax u s) = SFabs (SFdiv prec emax u' s).
Proof.
  destruct u as [su | su | | su mu eu], u' as [su' | su' | | su' mu' eu'];
    try discriminate; intros H.
  - now destruct s.
  - now destruct s.
  - reflexivity.
  - injection H as -> ->. destruct s as [ss | ss | | ss ms es]; try reflexivity.
    cbn [SFdiv]. destruct (SFdiv_core_binary _ _ _ _ _ _) as [[mz ez] lz].
    apply SFabs_binary_round_aux.
Qed.

Lemma abs_div_congr u u' s : abs u = abs u' -> abs (u / s) = abs (u' / s).
Proof.
  intros H. apply Prim2SF_inj. rewrite !FloatAxioms.abs_spec, !FloatAxioms.div_spec.
  apply SFabs_SFdiv. rewrite <- !FloatAxioms.abs_spec. now rewrite H.
Qed.

Lemma tStatistic_swap x y : math.Abs (tStatistic y x) = math.Abs (tStatistic x y).
Proof.
  unfold tStatistic, math.Abs.
  rewrite (add_commutes (stat.Variance y / float64_of_int (len y))).
  apply abs_div_congr, abs_sub_swap.
Qed.

Lemma degreesOfFreedom_swap a b c x y :
  degreesOfFreedom a c b y x = degreesOfFreedom a b c x y.
Proof. unfold degreesOfFreedom. now rewrite add_commutes. Qed.

Lemma bothPassGuard_swap x y : bothPassGuard x y -> bothPassGuard y x.
Proof. unfold bothPassGuard. now rewrite orb_comm. Qed.

Lemma run_welchTTest_swap h x y t p :
  run h (welchTTest x y) = Some (t, p) ->
  exists t', run h (welchTTest y x) = Some (t', p) /\ math.Abs t' = math.Abs t.
Proof.
  intros Hrun.
  destruct ((float64_of_int (len x) <? 2)%float || (float64_of_int (len y) <? 2)%float)
    eqn:Hg.
  - unfold welchTTest in *. rewrite Hg in Hrun. rewrite orb_comm in Hg. rewrite Hg.
    simpl in *. injection Hrun as <- <-. eauto.
  - pose proof (run_welchTTest_Some h x y t p Hg Hrun)
      as (-> & a & b & c & s & Ha & Hb & Hc & Hs & ->).
    exists (tStatistic y x). split; [| apply tStatistic_swap].
    rewrite run_welchTTest by (apply bothPassGuard_swap; exact Hg).
    rewrite add_commutes, Ha. cbn [mbind option_bind]. rewrite Hc. cbn [mbind option_bind].
    rewrite Hb. cbn [mbind option_bind].
    rewrite degreesOfFreedom_swap, tStatistic_swap, Hs. reflexivity.
Qed.

(** X9. [welchTTest] does not depend on the order of its two samples
    but for the sign of the t statistic: with the samples swapped it
    returns the same p-value and a t statistic of the same magnitude. *)
Theorem welchTTest_swap
    (h : handler) (x y : list float64) (t p : float64) :
  run h (welchTTest x y) = Some (t, p) ->
  exists t', run h (welchTTest y x) = Some (t', p) /\ math.Abs t' = math.Abs t.
Proof.
  intros Hrun. destruct (run_welchTTest_swap h x y t p Hrun) as (t' & Ht' & Habs).
  exists t'. split; assumption.
Qed.

Lemma welchTTest_swap_witness :
  exists t',
    run sampleLibrary (welchTTest [1; 2; 4]%float [3; 5]%float) = Some (t', 0.02%float).
Proof.
  destruct (welchTTest_swap sampleLibrary [3; 5]%float [1; 2; 4]%float
              (tStatistic [3; 5]%float [1; 2; 4]%float) 0.02%float eq_refl) as (t' & H & _).
  exists t'. exact H.
Defined.

Lemma ltb_zero_positive x : (0 <? x)%float = true -> is_positive_SF (Prim2SF x) = true.
Proof.
  rewrite FloatAxioms.ltb_spec. change (Prim2SF 0) with (S754_zero false). unfold SFltb.
  destruct (Prim2SF x) as [s | [|] | | [|] m e]; cbn; try discriminate; reflexivity.
Qed.

Lemma sub_diag_zero v : finite64 v = true -> (v - v)%float = 0%float.
Proof.
  unfold finite64. intros Hv. apply Prim2SF_inj.
  rewrite FloatAxioms.sub_spec. unfold SF64sub. change (Prim2SF 0) with (S754_zero false).
  destruct (Prim2SF v) as [s | | | s m e]; try discriminate.
  - now destruct s.
  - cbn [SFsub]. now rewrite Z.sub_diag.
Qed.

Lemma zero_div_positive n : is_positive_SF (Prim2SF n) = true -> (0 / n)%float = 0%float.
Proof.
  intros Hn. apply Prim2SF_inj. rewrite FloatAxioms.div_spec. unfold SF64div.
  change (Prim2SF 0) with (S754_zero false).
  destruct (Prim2SF n) as [| [|] | | [|] m e]; try discriminate; reflexivity.
Qed.

Lemma div_zero_finite v n :
  is_zero_SF (Prim2SF v) = true -> finite64 n = true -> is_zero_SF (Prim2SF n) = false ->
  is_zero_SF (Prim2SF (v / n)%float) = true.
Proof.
  unfold finite64. rewrite FloatAxioms.div_spec. unfold SF64div.
  destruct (Prim2SF v) as [sv | | |]; try discriminate.
  destruct (Prim2SF n) as [| | | s m e]; try discriminate; reflexivity.
Qed.

Lemma tStatistic_same x :
  finite64 (stat.Mean x) = true -> (0 <? pooledError x x)%float = true ->
  tStatistic x x = 0%float.
Proof.
  intros Hm Hse. unfold tStatistic. rewrite sub_diag_zero by exact Hm.
  apply zero_div_positive, ltb_zero_positive. exact Hse.
Qed.

(** X11. A series analysed against itself, of at least two
    measurements, a finite mean that is not zero and a positive standard
    error of the difference: the two sides of the segment are the same,
    the difference is zero, and the p-value is twice what the library
    answers for the survival function at 0. *)
Theorem analyzeSegment_same_series
    (h : handler) (series : list Measurement.t) (confidenceLevel : float64)
    (r : TimeSegmentAnalysis.t) :
  run h (analyzeSegment series series confidenceLevel) = Some r ->
  2 <= len series < 2 ^ 63 ->
  finite64 (stat.Mean (values series)) = true ->
  PrimFloat.is_zero (stat.Mean (values series)) = false ->
  (0 <? pooledError (values series) (values series))%float = true ->
  TimeSegmentAnalysis.Benchmark r = TimeSegmentAnalysis.Experiment r /\
  PrimFloat.is_zero (TimeSegmentAnalysis.Difference r) = true /\
  exists df s, h (Survival (StudentsT.withNu df) 0%float) = Some s /\
               TimeSegmentAnalysis.PValue r = (2 * s)%float.
Proof.
  intros Hrun Hlen Hfin Hnz Hse.
  apply run_analyzeSegment in Hrun as (t & p & bCI & eCI & Hw & Hb & He & ->).
  rewrite Hb in He. injection He as <-.
  cbn [TimeSegmentAnalysis.Benchmark TimeSegmentAnalysis.Experiment
       TimeSegmentAnalysis.Difference TimeSegmentAnalysis.PValue].
  split; [reflexivity | split].
  - apply is_zero_SF_iff. apply mul_zero_finite; [| reflexivity].
    apply div_zero_finite; [apply sub_diag_finite; exact Hfin | exact Hfin |].
    destruct (is_zero_SF (Prim2SF (stat.Mean (values series)))) eqn:Hz; [| reflexivity].
    apply is_zero_SF_iff in Hz. congruence.
  - assert (Hn : 2 <= len (values series) < 2 ^ 63).
    { unfold values, measurementsToValues, len in *. now rewrite length_map. }
    apply run_welchTTest_Some in Hw as (_ & a & b & c & s & _ & _ & _ & Hs & ->);
      [| apply bothPassGuard_lengths; exact Hn].
    rewrite tStatistic_same in Hs by assumption.
    change (math.Abs 0%float) with 0%float in Hs. eauto.
Qed.

Lemma analyzeSegment_same_series_witness :
  exists r, run sampleLibrary (analyzeSegment slower slower 0.95%float) = Some r /\
            TimeSegmentAnalysis.Benchmark r = TimeSegmentAnalysis.Experiment r /\
            PrimFloat.is_zero (TimeSegmentAnalysis.Difference r) = true.
Proof.
  destruct (run sampleLibrary (analyzeSegment slower slower 0.95%float))
    as [r |] eqn:Hr; [| vm_compute in Hr; discriminate Hr].
  exists r. split; [reflexivity |].
  destruct (analyzeSegment_same_series _ slower _ r Hr) as (H1 & H2 & _);
    [vm_compute; split; [discriminate | reflexivity] | reflexivity ..|].
  split; assumption.
Defined.

(** X10. Analysing the two series the other way round swaps the two
    sides of the segment and keeps its p-value and its significance. *)
Theorem analyzeSegment_swap
    (h : handler) (benchmark experiment : list Measurement.t) (confidenceLevel : float64)
    (r r' : TimeSegmentAnalysis.t) :
  run h (analyzeSegment benchmark experiment confidenceLevel) = Some r ->
  run h (analyzeSegment experiment benchmark confidenceLevel) = Some r' ->
  TimeSegmentAnalysis.Benchmark r' = TimeSegmentAnalysis.Experiment r /\
  TimeSegmentAnalysis.Experiment r' = TimeSegmentAnalysis.Benchmark r /\
  TimeSegmentAnalysis.PValue r' = TimeSegmentAnalysis.PValue r /\
  TimeSegmentAnalysis.Significant r' = TimeSegmentAnalysis.Significant r.
Proof.
  intros Hr Hr'.
  apply run_analyzeSegment in Hr as (t & p & bCI & eCI & Hw & Hb & He & ->).
  apply run_analyzeSegment in Hr' as (t' & p' & bCI' & eCI' & Hw' & Hb' & He' & ->).
  rewrite Hb in He'. injection He' as <-. rewrite He in Hb'. injection Hb' as <-.
  apply run_welchTTest_swap in Hw as (t'' & Hw & _).
  rewrite Hw in Hw'. injection Hw' as <- <-.
  repeat split.
Qed.

Lemma analyzeSegment_swap_witness :
  exists r r',
    run sampleLibrary (analyzeSegment slower faster 0.95%float) = Some r /\
    run sampleLibrary (analyzeSegment faster slower 0.95%float) = Some r' /\
    TimeSegmentAnalysis.PValue r' = TimeSegmentAnalysis.PValue r.
Proof.
  destruct (run sampleLibrary (analyzeSegment slower faster 0.95%float))
    as [r |] eqn:Hr; [| vm_compute in Hr; discriminate Hr].
  destruct (run sampleLibrary (analyzeSegment faster slower 0.95%float))
    as [r' |] eqn:Hr'; [| vm_compute in Hr'; discriminate Hr'].
  exists r, r'. split; [reflexivity | split; [reflexivity |]].
  exact (proj1 (proj2 (proj2 (analyzeSegment_swap _ slower faster _ r r' Hr Hr')))).
Defined.


Lemma shr_1_m_nonneg mrs : 0 <= shr_m mrs -> 0 <= shr_m (shr_1 mrs).
Proof.
  destruct mrs as [m r s]. cbn [shr_m]. intros Hm.
  rewrite shr_1_nonneg by exact Hm. cbn [shr_m]. now apply Z.div_pos.
Qed.

Lemma shr_m_nonneg mrs e n : 0 <= shr_m mrs -> 0 <= shr_m (shr mrs e n).1.
Proof.
  intros Hm. destruct n as [| p | p]; cbn [shr fst]; try exact Hm.
  rewrite iter_pos_nat. induction (Pos.to_nat p) as [| k IH]; [exact Hm |].
  rewrite Nat.iter_succ. now apply shr_1_m_nonneg.
Qed.

Lemma shr_fexp_nonneg m e l : 0 <= m -> 0 <= shr_m (shr_fexp prec emax m e l).1.
Proof.
  intros Hm. unfold shr_fexp. apply shr_m_nonneg. now destruct l as [| []].
Qed.

Lemma round_nearest_even_nonneg m l : 0 <= m -> 0 <= round_nearest_even m l.
Proof.
  intros Hm. destruct l as [| []]; cbn [round_nearest_even]; try lia.
  destruct (IntDef.Z.even m); lia.
Qed.

Lemma binary_round_aux_sign s m e l :
  0 <= m -> has_sign s (binary_round_aux prec emax s m e l) = true.
Proof.
  intros Hm. unfold binary_round_aux.
  pose proof (shr_fexp_nonneg m e l Hm) as H1.
  destruct (shr_fexp prec emax m e l) as [mrs' e']. cbn [fst] in H1.
  pose proof (shr_fexp_nonneg _ e' loc_Exact
                (round_nearest_even_nonneg _ (loc_of_shr_record mrs') H1)) as H2.
  destruct (shr_fexp prec emax _ e' loc_Exact) as [mrs'' e'']. cbn [fst] in H2.
  destruct (shr_m mrs'') as [| p | p]; [reflexivity | | lia].
  destruct (e'' <=? emax - prec); cbn [has_sign]; now destruct s.
Qed.

Lemma SFdiv_core_nonneg m1 e1 m2 e2 :
  0 <= (SFdiv_core_binary prec emax (Z.pos m1) e1 (Z.pos m2) e2).1.1.
Proof.
  unfold SFdiv_core_binary.
  set (s := e1 - e2 - _).
  set (m' := match s with 0 => Z.pos m1 | Z.pos _ => Z.pos m1 ≪ s | Z.neg _ => 0 end).
  assert (Hm' : 0 <= m').
  { subst m'. destruct s; [lia | | lia]. apply Z.shiftl_nonneg. lia. }
  pose proof (Z_div_mod m' (Z.pos m2) ltac:(lia)) as Hdiv.
  change IntDef.Z.div_eucl with Z.div_eucl.
  destruct (Z.div_eucl m' (Z.pos m2)) as [q r]. cbn [fst]. nia.
Qed.

Lemma SFdiv_sign sx x sy my ey :
  has_sign sx x = true ->
  has_sign (xorb sx sy) (SFdiv prec emax x (S754_finite sy my ey)) = true.
Proof.
  destruct x as [s | s | | s m e]; cbn [has_sign SFdiv]; try discriminate.
  - reflexivity.
  - intros H. apply eqb_prop in H. subst s. apply eqb_reflx.
  - intros H. apply eqb_prop in H. subst s.
    pose proof (SFdiv_core_nonneg m e my ey) as Hq.
    destruct (SFdiv_core_binary _ _ _ _ _ _) as [[mz ez] lz]. cbn [fst] in Hq.
    now apply binary_round_aux_sign.
Qed.

Lemma SFmul_sign sx x sy my ey :
  has_sign sx x = true ->
  has_sign (xorb sx sy) (SFmul prec emax x (S754_finite sy my ey)) = true.
Proof.
  destruct x as [s | s | | s m e]; cbn [has_sign SFmul]; try discriminate.
  - reflexivity.
  - intros H. apply eqb_prop in H. subst s. apply eqb_reflx.
  - intros H. apply eqb_prop in H. subst s.
    apply binary_round_aux_sign. lia.
Qed.

Lemma leb_zero_sign x : (0 <=? x)%float = true <-> has_sign false (Prim2SF x) = true.
Proof.
  rewrite FloatAxioms.leb_spec. change (Prim2SF 0) with (S754_zero false). unfold SFleb.
  destruct (Prim2SF x) as [s | [|] | | [|] m e]; cbn; try tauto; try easy;
    now destruct s.
Qed.

Lemma leb_sign_zero x : (x <=? 0)%float = true <-> has_sign true (Prim2SF x) = true.
Proof.
  rewrite FloatAxioms.leb_spec. change (Prim2SF 0) with (S754_zero false). unfold SFleb.
  destruct (Prim2SF x) as [s | [|] | | [|] m e]; cbn; try tauto; try easy;
    now destruct s.
Qed.

Lemma ltb_zero_finite x :
  finite64 x = true -> (0 <? x)%float = true -> exists m e, Prim2SF x = S754_finite false m e.
Proof.
  unfold finite64. rewrite FloatAxioms.ltb_spec. change (Prim2SF 0) with (S754_zero false).
  unfold SFltb.
  destruct (Prim2SF x) as [s | [|] | | [|] m e]; cbn; try discriminate; eauto;
    now destruct s.
Qed.

Lemma ltb_finite_zero x :
  finite64 x = true -> (x <? 0)%float = true -> exists m e, Prim2SF x = S754_finite true m e.
Proof.
  unfold finite64. rewrite FloatAxioms.ltb_spec. change (Prim2SF 0) with (S754_zero false).
  unfold SFltb.
  destruct (Prim2SF x) as [s | [|] | | [|] m e]; cbn; try discriminate; eauto;
    now destruct s.
Qed.

Lemma sub_nonneg e b :
  finite64 e = true -> (b <=? e)%float = true -> (0 <=? e - b)%float = true.
Proof.
  intros He Hbe. rewrite <- (sub_diag_zero e He). now apply sub_mono_r.
Qed.

Lemma sub_nonpos e b :
  finite64 b = true -> (e <=? b)%float = true -> (e - b <=? 0)%float = true.
Proof.
  intros Hb Heb. rewrite <- (sub_diag_zero b Hb), !sub_add_opp.
  rewrite (add_commutes e), (add_commutes b). apply add_mono_r; [| exact Heb].
  unfold finite64 in *. rewrite FloatAxioms.opp_spec. now destruct (Prim2SF b).
Qed.

(** [d / b * 100] for a [d] that is zero or of sign [sd], and a finite
    [b] of sign [sb]. *)
Lemma percent_sign sd sb d b mb eb :
  has_sign sd (Prim2SF d) = true -> Prim2SF b = S754_finite sb mb eb ->
  has_sign (xorb sd sb) (Prim2SF (d / b * 100)%float) = true.
Proof.
  intros Hd Hb. rewrite FloatAxioms.mul_spec, FloatAxioms.div_spec, Hb.
  unfold SF64mul, SF64div.
  assert (H100 : exists m e, Prim2SF 100 = S754_finite false m e) by (vm_compute; eauto).
  destruct H100 as (m & e & ->).
  rewrite <- (xorb_false_r (xorb sd sb)). apply SFmul_sign, SFdiv_sign, Hd.
Qed.

(** X12. The sign of the [Difference] of a segment, for finite means:
    over a positive baseline mean it is not negative when the mean of the
    experiment is not below the baseline's and not positive when it is not
    above; over a negative baseline mean the signs are the other way
    round. *)
Theorem analyzeSegment_difference_sign
    (h : handler) (benchmark experiment : list Measurement.t) (confidenceLevel : float64)
    (r : TimeSegmentAnalysis.t) :
  run h (analyzeSegment benchmark experiment confidenceLevel) = Some r ->
  finite64 (stat.Mean (values benchmark)) = true ->
  finite64 (stat.Mean (values experiment)) = true ->
  let benchMean := stat.Mean (values benchmark) in
  let expMean := stat.Mean (values experiment) in
  let difference := TimeSegmentAnalysis.Difference r in
  ((0 <? benchMean)%float = true -> (benchMean <=? expMean)%float = true ->
   (0 <=? difference)%float = true) /\
  ((0 <? benchMean)%float = true -> (expMean <=? benchMean)%float = true ->
   (difference <=? 0)%float = true) /\
  ((benchMean <? 0)%float = true -> (benchMean <=? expMean)%float = true ->
   (difference <=? 0)%float = true) /\
  ((benchMean <? 0)%float = true -> (expMean <=? benchMean)%float = true ->
   (0 <=? difference)%float = true).
Proof.
  intros Hrun Hb He benchMean expMean difference.
  apply run_analyzeSegment in Hrun as (t & p & bCI & eCI & _ & _ & _ & ->).
  subst difference. cbn [TimeSegmentAnalysis.Difference]. fold benchMean expMean.
  split; [| split; [| split]]; intros Hsign Hle.
  - destruct (ltb_zero_finite _ Hb Hsign) as (m & e & Hbm).
    apply leb_zero_sign. eapply (percent_sign false false); [| exact Hbm].
    apply leb_zero_sign. now apply sub_nonneg.
  - destruct (ltb_zero_finite _ Hb Hsign) as (m & e & Hbm).
    apply leb_sign_zero. eapply (percent_sign true false); [| exact Hbm].
    apply leb_sign_zero. now apply sub_nonpos.
  - destruct (ltb_finite_zero _ Hb Hsign) as (m & e & Hbm).
    apply leb_sign_zero. eapply (percent_sign false true); [| exact Hbm].
    apply leb_zero_sign. now apply sub_nonneg.
  - destruct (ltb_finite_zero _ Hb Hsign) as (m & e & Hbm).
    apply leb_zero_sign. eapply (percent_sign true true); [| exact Hbm].
    apply leb_sign_zero. now apply sub_nonpos.
Qed.

Lemma analyzeSegment_difference_sign_witness :
  exists r, run sampleLibrary (analyzeSegment slower faster 0.95%float) = Some r /\
            (TimeSegmentAnalysis.Difference r <=? 0)%float = true.
Proof.
  destruct (run sampleLibrary (analyzeSegment slower faster 0.95%float))
    as [r |] eqn:Hr; [| vm_compute in Hr; discriminate Hr].
  exists r. split; [reflexivity |].
  exact (proj1 (proj2 (analyzeSegment_difference_sign _ slower faster _ r Hr eq_refl eq_refl))
           eq_refl eq_refl).
Defined.

(** ** readCSV *)

Lemma readRecords_parsed w good : forall data reader measurements,
  Forall2 (parsesTo w) good data ->
  readRecords w (map inl good ++ reader) measurements
  = readRecords w reader (measurements ++ data).
Proof.
  induction good as [| record good IH]; intros data reader measurements H.
  - apply Forall2_nil_inv_l in H as ->. now rewrite app_nil_r.
  - apply Forall2_cons_inv_l in H as (m & data' & Hm & H & ->).
    destruct Hm as (f0 & f1 & H0 & Hd & H1 & Hv & H2).
    cbn [map app readRecords]. unfold index. rewrite H0. cbn.
    fold dateLayout. rewrite Hd. cbn. rewrite H1. cbn. rewrite Hv. cbn. rewrite H2. cbn.
    rewrite (IH _ _ _ H). rewrite <- app_assoc. cbn [app].
    now destruct m.
Qed.

Lemma readRecords_atEOF w reader measurements :
  atEOF reader -> readRecords w reader measurements = Returned measurements.
Proof. destruct reader as [| [record | [| text]] rest]; cbn; tauto. Qed.

Lemma readRecords_Returned w reader : forall measurements data,
  readRecords w reader measurements = Returned data ->
  exists records rest more,
    reader = map inl records ++ rest /\ atEOF rest /\
    Forall2 (parsesTo w) records more /\ data = measurements ++ more.
Proof.
  induction reader as [| [record | err] reader IH]; intros measurements data H.
  - injection H as <-. exists [], [], [].
    split; [reflexivity |]. split; [exact I |].
    split; [now apply Forall2_nil | now rewrite app_nil_r].
  - cbn [readRecords] in H. unfold index in H.
    destruct (record !! 0%nat) as [f0 |] eqn:H0; [| discriminate]. cbn in H.
    fold dateLayout in H.
    destruct (time_Parse w dateLayout f0) as [date |] eqn:Hd; [| discriminate]. cbn in H.
    destruct (record !! 1%nat) as [f1 |] eqn:H1; [| discriminate]. cbn in H.
    destruct (strconv_ParseFloat w (strings_TrimSpace w f1) 64) as [value |] eqn:Hv;
      [| discriminate]. cbn in H.
    destruct (record !! 2%nat) as [f2 |] eqn:H2; [| discriminate]. cbn in H.
    apply IH in H as (records & rest & more & -> & Hend & Hall & ->).
    exists (record :: records), rest, (Measurement.mk date value f2 :: more).
    split; [reflexivity | split; [exact Hend | split]].
    + constructor; [| exact Hall]. exists f0, f1. cbn. auto.
    + now rewrite <- app_assoc.
  - destruct err as [| text]; [| discriminate]. injection H as <-.
    exists [], (inr io_EOF :: reader), [].
    split; [reflexivity |]. split; [exact I |].
    split; [now apply Forall2_nil | now rewrite app_nil_r].
Qed.

(** X13. [readCSV] returns measurements exactly when the file opens and
    yields a header, then records that all parse, then the end of the
    input: it returns one measurement for each record after the header, in
    the order of the file, with the label as the third field has it. *)
Theorem readCSV_Returned (w : World) (filename : string) (data : list Measurement.t) :
  readCSV w filename = Returned data <->
  exists header records rest,
    os_Open w filename = inl (inl header :: map inl records ++ rest) /\
    atEOF rest /\ Forall2 (parsesTo w) records data.
Proof.
  unfold readCSV. split.
  - destruct (os_Open w filename) as [reader | err]; [| discriminate]. cbn.
    destruct reader as [| [header | err] reader]; cbn; try discriminate.
    intros H. apply readRecords_Returned in H as (records & rest & more & -> & He & Ha & ->).
    exists header, records, rest. auto.
  - intros (header & records & rest & -> & He & Ha). cbn.
    rewrite (readRecords_parsed _ _ _ _ _ Ha). now apply readRecords_atEOF.
Qed.

(** X14. After a header and records that parse, a result of the reader
    that is an error other than the end of the input, or a record whose
    date or whose value does not parse, makes [readCSV] return that error
    and no measurement. *)
Theorem readCSV_first_error
    (w : World) (filename : string) (header : list string)
    (good : list (list string)) (data : list Measurement.t)
    (bad : list string + error) (rest : csv.Reader) (err : error) :
  os_Open w filename = inl (inl header :: map inl good ++ bad :: rest) ->
  Forall2 (parsesTo w) good data ->
  failsWith w bad err ->
  readCSV w filename = Failed err.
Proof.
  intros Hopen Hgood Hbad. unfold readCSV. rewrite Hopen. cbn.
  rewrite (readRecords_parsed _ _ _ _ _ Hgood). cbn [app readRecords].
  destruct bad as [record | e]; cbn [failsWith] in Hbad.
  - destruct Hbad as (f0 & H0 & Hbad). unfold index. rewrite H0. cbn.
    fold dateLayout. destruct (time_Parse w dateLayout f0) as [date | e]; cbn.
    + destruct Hbad as (f1 & H1 & Hv). rewrite H1. cbn. now rewrite Hv.
    + now subst e.
  - destruct Hbad as [-> Hne]. now destruct err.
Qed.

Lemma readCSV_first_error_witness :
  readCSV (sampleWorld "broken.csv") "broken.csv" = Failed (errorString "cannot parse").
Proof.
  apply (readCSV_first_error (sampleWorld "broken.csv") "broken.csv"
           ["date"; "value"; "label"] [["a"; "1"; "base"]]
           [Measurement.mk 1 1%float "base"] (inl ["?"; "1"; "exp"]) []).
  - vm_compute. reflexivity.
  - constructor; [| constructor]. exists "a", "1". vm_compute. auto.
  - exists "?". vm_compute. auto.
Defined.



(** X16. For a file that opens and is at its end before any header,
    [readCSV] returns the error [io.EOF], not an empty list. *)
Theorem readCSV_no_header (w : World) (filename : string) (reader : csv.Reader) :
  os_Open w filename = inl reader ->
  atEOF reader ->
  readCSV w filename = Failed io_EOF.
Proof.
  intros Hopen Hend. unfold readCSV. rewrite Hopen. cbn.
  destruct reader as [| [record | [| text]] rest]; cbn in *; tauto.
Qed.

Lemma readCSV_no_header_witness :
  readCSV (sampleWorld "empty.csv") "empty.csv" = Failed io_EOF.
Proof.
  apply (readCSV_no_header (sampleWorld "empty.csv") "empty.csv" []);
    [vm_compute; reflexivity | exact I].
Defined.


(** ** main *)

Lemma run_None {A} h (p : Prog A) : run h p = None -> exists c, h c = None.
Proof.
  induction p as [a | c k IH]; simpl; [discriminate |].
  destruct (h c) as [v |] eqn:Hc; [apply IH | eauto].
Qed.

Lemma len_2 {A} (l : list A) : len l = 2 -> exists a b, l = [a; b].
Proof.
  unfold len. destruct l as [| a [| b [| c l]]]; cbn; intros H; try lia. eauto.
Qed.

Lemma len_eqb_0 {A} (l : list A) : l <> [] -> (len l =? 0) = false.
Proof. intros H. apply Z.eqb_neq. unfold len. destruct l; [congruence | cbn; lia]. Qed.

Lemma eqb_empty s : String.eqb s "" = true <-> s = "".
Proof. apply String.eqb_eq. Qed.

(** The labels [selectLabels] returns, when [main] lets it run. *)
Lemma selectLabels_Returned opts labels :
  negb (len labels =? 2)
  && (String.eqb (Options.Baseline opts) "" || String.eqb (Options.Experiment opts) "")
  = false ->
  exists selected baselineLabel experimentLabel,
    selectLabels opts labels = Returned (selected, baselineLabel, experimentLabel) /\
    (Options.Baseline opts <> "" -> baselineLabel = Options.Baseline opts) /\
    (Options.Experiment opts <> "" -> experimentLabel = Options.Experiment opts) /\
    (Options.Baseline opts = "" \/ Options.Experiment opts = "" ->
     len labels = 2 /\ (NoDup labels -> baselineLabel <> experimentLabel)).
Proof.
  intros Hcheck. unfold selectLabels.
  destruct (String.eqb_spec (Options.Baseline opts) "") as [Hb | Hb];
    destruct (String.eqb_spec (Options.Experiment opts) "") as [He | He];
    cbn [andb orb negb] in *.
  - rewrite andb_true_r in Hcheck. apply negb_false_iff, Z.eqb_eq in Hcheck.
    destruct (len_2 _ Hcheck) as (a & b & ->). cbn.
    eexists _, a, b. split; [reflexivity |].
    split; [contradiction | split; [contradiction |]]. intros _. split; [exact Hcheck |].
    intros Hnd. apply NoDup_cons in Hnd as [Hnin _]. intros ->. apply Hnin. left.
  - rewrite andb_true_r in Hcheck. apply negb_false_iff, Z.eqb_eq in Hcheck.
    destruct (find _ labels) as [label |] eqn:Hfind.
    + apply find_some in Hfind as [_ Hne]. apply negb_true_iff, String.eqb_neq in Hne.
      eexists _, label, _. split; [reflexivity |].
      split; [contradiction | split; [reflexivity |]]. intros _. split; [exact Hcheck | auto].
    + eexists _, _, _. split; [reflexivity |].
      split; [reflexivity | split; [reflexivity |]]. intros _. split; [exact Hcheck |].
      intros _. congruence.
  - rewrite andb_true_r in Hcheck. apply negb_false_iff, Z.eqb_eq in Hcheck.
    destruct (find _ labels) as [label |] eqn:Hfind.
    + apply find_some in Hfind as [_ Hne]. apply negb_true_iff, String.eqb_neq in Hne.
      eexists _, _, label. split; [reflexivity |].
      split; [reflexivity | split; [contradiction |]]. intros _. split; [exact Hcheck | auto].
    + eexists _, _, _. split; [reflexivity |].
      split; [reflexivity | split; [reflexivity |]]. intros _. split; [exact Hcheck |].
      intros _. congruence.
  - eexists _, _, _. split; [reflexivity |].
    split; [reflexivity | split; [reflexivity |]]. intros [? | ?]; contradiction.
Qed.

(** X17. [main] ends in a panic only when [readCSV] panics or a call
    to a library does: the labels are indexed only when there are two of
    them. *)
Theorem main_panics (w : World) (out : list output) :
  main w = (out, panics) ->
  (exists opts, flags_Parse w = inl opts /\
                readCSV w (Options.InputFile opts) = Panicked) \/
  (exists c, library w c = None).
Proof.
  unfold main. destruct (flags_Parse w) as [opts | err]; [| discriminate].
  destruct (String.eqb (Options.InputFile opts) ""); [discriminate |].
  destruct (readCSV w (Options.InputFile opts)) as [data | err |] eqn:Hread;
    [| discriminate | left; eauto].
  set (labels := rangeOrder w (getUniqueLabels data)).
  destruct (negb (len labels =? 2) && _) eqn:Hcheck; [discriminate |].
  destruct (selectLabels_Returned opts labels Hcheck) as (sel & b & e & -> & _).
  destruct (negb (containsLabel labels b) || negb (containsLabel labels e));
    [discriminate |].
  destruct ((len _ =? 0) || (len _ =? 0)); [discriminate |].
  destruct (run (library w) _) eqn:Hrun; [discriminate |].
  intros _. right. exact (run_None _ _ Hrun).
Qed.

Lemma main_panics_witness :
  (exists opts, flags_Parse (sampleWorld "short.csv") = inl opts /\
                readCSV (sampleWorld "short.csv") (Options.InputFile opts) = Panicked) \/
  (exists c, library (sampleWorld "short.csv") c = None).
Proof.
  apply (main_panics (sampleWorld "short.csv") []). vm_compute. reflexivity.
Defined.

(** X18. Whatever the order in which the labels are listed, when
    [main] ends in [log.Fatalf] the message is that of the failed read,
    of the number of labels or of the labels not found: the last check,
    on series without data, never fires, because a label that passes
    [containsLabel] has measurements. *)
Theorem main_fatal (w : World) (out : list output) (format : string) (args : list arg) :
  (forall keys, rangeOrder w keys ≡ₚ keys) ->
  main w = (out, log_Fatalf format args) ->
  format ∈ reachableFatals /\ format <> "No data found for one or both labels".
Proof.
  intros Hperm. unfold main. destruct (flags_Parse w) as [opts | err]; [| discriminate].
  destruct (String.eqb (Options.InputFile opts) ""); [discriminate |].
  destruct (readCSV w (Options.InputFile opts)) as [data | err |];
    [| intros [= <- <- <-]; split; [left | discriminate] | discriminate].
  set (labels := rangeOrder w (getUniqueLabels data)).
  destruct (negb (len labels =? 2) && _) eqn:Hcheck;
    [intros [= <- <- <-]; split; [right; left | discriminate] |].
  destruct (selectLabels_Returned opts labels Hcheck) as (sel & b & e & -> & _).
  destruct (negb (containsLabel labels b) || negb (containsLabel labels e)) eqn:Hc;
    [intros [= <- <- <-]; split; [right; right; left | discriminate] |].
  apply orb_false_iff in Hc as [Hb He].
  apply negb_false_iff in Hb, He.
  pose proof (containsLabel_iff_nonempty (time_Now w 0) data labels b (Hperm _)) as Hb'.
  pose proof (containsLabel_iff_nonempty (time_Now w 1) data labels e (Hperm _)) as He'.
  apply Hb', len_eqb_0 in Hb. apply He', len_eqb_0 in He. rewrite Hb, He. cbn [orb].
  destruct (run _ _); discriminate.
Qed.

Lemma main_fatal_witness :
  "Error reading CSV: %v" ∈ reachableFatals /\
  "Error reading CSV: %v" <> "No data found for one or both labels".
Proof.
  apply (main_fatal (sampleWorld "missing.csv") []
           "Error reading CSV: %v" [a_error (errorString "no such file")]).
  - intros keys. reflexivity.
  - vm_compute. reflexivity.
Defined.




(** ** printResults *)

Lemma is_Some_hourKey h benchmark experiment confidenceLevel m hour :
  run h (analyzeTimeSeries benchmark experiment confidenceLevel) = Some m ->
  0 <= hour < 24 ->
  is_Some (m !! hourKey hour) <-> hasHour benchmark hour /\ hasHour experiment hour.
Proof.
  intros Hrun Hhour. rewrite <- elem_of_dom, (dom_analyzeTimeSeries _ _ _ _ _ Hrun).
  split.
  - intros [Hk | [(i & Hi & Hk & Hb) | (i & Hi & Hk & _)]].
    + symmetry in Hk. now apply overall_not_hourKey in Hk.
    + now rewrite (hourKey_inj hour i Hhour Hi Hk).
    + now apply hourKey_not_dayKey in Hk.
  - intros Hb. right; left. exists hour. auto.
Qed.

Lemma is_Some_dayKey h benchmark experiment confidenceLevel m day :
  run h (analyzeTimeSeries benchmark experiment confidenceLevel) = Some m ->
  0 <= day < 7 ->
  is_Some (m !! dayKey day) <-> hasDay benchmark day /\ hasDay experiment day.
Proof.
  intros Hrun Hday. rewrite <- elem_of_dom, (dom_analyzeTimeSeries _ _ _ _ _ Hrun).
  split.
  - intros [Hk | [(i & Hi & Hk & _) | (i & Hi & Hk & Hb)]].
    + symmetry in Hk. now apply overall_not_dayKey in Hk.
    + symmetry in Hk. now apply hourKey_not_dayKey in Hk.
    + now rewrite (dayKey_inj day i Hday Hi Hk).
  - intros Hb. right; right. exists day. auto.
Qed.

(** [absent H] closes a goal with [H : x ∈ l] for a list [l] written out
    whose elements all differ from [x] by a constructor. *)
Ltac absent H :=
  match type of H with
  | ?x ∈ ?l =>
      let F := fresh in
      assert (F : Forall (fun o => x <> o) l)
        by (repeat (constructor; [discriminate |]); constructor);
      exact (False_ind _ (proj1 (Forall_forall _ _) F _ H eq_refl))
  end.

Lemma hourLine_printed w results showHourly showDaily threshold useColor hour s :
  hourLine hour s ∈ printResults w results showHourly showDaily threshold useColor <->
  showHourly = true /\ 0 <= hour < 24 /\
  exists analysis,
    results !! hourKey hour = Some analysis /\
    s = formatDifference w threshold useColor (TimeSegmentAnalysis.Difference analysis).
Proof.
  unfold printResults, hourLine. rewrite !elem_of_app. split.
  - intros [H | [H | H]].
    + absent H.
    + destruct showHourly; [| inversion H]. split; [reflexivity |].
      apply elem_of_app in H as [H | H].
      { absent H. }
      apply list_elem_of_bind in H as (i & H & Hi). apply elem_of_seqZ in Hi.
      fold (hourKey i) in H.
      destruct (results !! hourKey i) as [analysis |] eqn:Hr; [| inversion H].
      apply list_elem_of_singleton in H. injection H as -> ->.
      split; [lia | eauto].
    + destruct showDaily; [| inversion H].
      apply elem_of_app in H as [H | H].
      { absent H. }
      apply list_elem_of_bind in H as (i & H & Hi).
      destruct (results !! _) as [analysis |]; [| inversion H].
      apply list_elem_of_singleton in H. discriminate.
  - intros (-> & Hhour & analysis & Hr & ->). right; left.
    apply elem_of_app. right. apply list_elem_of_bind. exists hour.
    split; [| apply elem_of_seqZ; lia]. fold (hourKey hour). rewrite Hr. left.
Qed.

Lemma days_lookup day name :
  days !! Z.to_nat day = Some name -> 0 <= day ->
  0 <= day < 7 /\ forall day', 0 <= day' -> days !! Z.to_nat day' = Some name -> day' = day.
Proof.
  intros Hd Hday.
  assert (Hlt : (Z.to_nat day < 7)%nat) by (apply lookup_lt_Some in Hd; exact Hd).
  split; [lia |]. intros day' Hday' Hd'.
  assert (Hlt' : (Z.to_nat day' < 7)%nat) by (apply lookup_lt_Some in Hd'; exact Hd').
  assert (Hnd : NoDup days) by (apply (bool_decide_unpack _); vm_compute; exact I).
  pose proof (NoDup_lookup _ _ _ _ Hnd Hd Hd'). lia.
Qed.

Lemma dayLine_printed w results showHourly showDaily threshold useColor day name s :
  days !! Z.to_nat day = Some name -> 0 <= day ->
  dayLine name s ∈ printResults w results showHourly showDaily threshold useColor <->
  showDaily = true /\
  exists analysis,
    results !! dayKey day = Some analysis /\
    s = formatDifference w threshold useColor (TimeSegmentAnalysis.Difference analysis).
Proof.
  intros Hname Hday. destruct (days_lookup _ _ Hname Hday) as [Hrange Huniq].
  unfold printResults, dayLine. rewrite !elem_of_app. split.
  - intros [H | [H | H]].
    + absent H.
    + destruct showHourly; [| inversion H].
      apply elem_of_app in H as [H | H].
      { absent H. }
      apply list_elem_of_bind in H as (i & H & Hi).
      destruct (results !! _) as [analysis |]; [| inversion H].
      apply list_elem_of_singleton in H. discriminate.
    + destruct showDaily; [| inversion H]. split; [reflexivity |].
      apply elem_of_app in H as [H | H].
      { absent H. }
      apply list_elem_of_bind in H as (i & H & Hi). apply elem_of_seqZ in Hi.
      fold (dayKey i) in H.
      destruct (results !! dayKey i) as [analysis |] eqn:Hr; [| inversion H].
      apply list_elem_of_singleton in H. injection H as Hn ->.
      assert (Hi' : (Z.to_nat i < 7)%nat) by lia.
      destruct (lookup_lt_is_Some_2 days (Z.to_nat i) Hi') as [name' Hname'].
      rewrite Hname' in Hn. cbn in Hn. subst name'.
      rewrite <- (Huniq i) by (lia || assumption). eauto.
  - intros (-> & analysis & Hr & ->). right; right.
    apply elem_of_app. right. apply list_elem_of_bind. exists day.
    split; [| apply elem_of_seqZ; lia]. fold (dayKey day). rewrite Hr, Hname. left.
Qed.

(** X20. Printed from a map [analyzeTimeSeries] returned: the hourly
    breakdown has a line for an hour exactly when it is shown and both
    series have a measurement in that hour, and the daily breakdown has
    the line of a day exactly when it is shown and both series have a
    measurement on that day. *)
Theorem printResults_breakdown
    (w : World) (h : handler) (benchmark experiment : TimeSeries.t)
    (confidenceLevel threshold : float64) (showHourly showDaily useColor : bool)
    (results : gmap string TimeSegmentAnalysis.t) :
  run h (analyzeTimeSeries benchmark experiment confidenceLevel) = Some results ->
  let out := printResults w results showHourly showDaily threshold useColor in
  (forall hour,
      (exists s, hourLine hour s ∈ out) <->
      showHourly = true /\ 0 <= hour < 24 /\
      hasHour benchmark hour /\ hasHour experiment hour) /\
  (forall day name, 0 <= day -> days !! Z.to_nat day = Some name ->
      (exists s, dayLine name s ∈ out) <->
      showDaily = true /\ hasDay benchmark day /\ hasDay experiment day).
Proof.
  intros Hrun out. subst out. split.
  - intros hour. setoid_rewrite hourLine_printed. split.
    + intros (s & Hshow & Hhour & analysis & Hr & _).
      split; [exact Hshow | split; [exact Hhour |]].
      apply (is_Some_hourKey _ _ _ _ _ _ Hrun Hhour). eauto.
    + intros (Hshow & Hhour & Hboth).
      apply (is_Some_hourKey _ _ _ _ _ _ Hrun Hhour) in Hboth as [analysis Hr]. eauto 10.
  - intros day name Hday Hname.
    destruct (days_lookup _ _ Hname Hday) as [Hrange _].
    setoid_rewrite (dayLine_printed _ _ _ _ _ _ _ _ _ Hname Hday). split.
    + intros (s & Hshow & analysis & Hr & _). split; [exact Hshow |].
      apply (is_Some_dayKey _ _ _ _ _ _ Hrun Hrange). eauto.
    + intros (Hshow & Hboth).
      apply (is_Some_dayKey _ _ _ _ _ _ Hrun Hrange) in Hboth as [analysis Hr]. eauto 10.
Qed.

Lemma printResults_breakdown_witness :
  exists results s,
    run sampleLibrary (analyzeTimeSeries sampleBaseline sampleBaseline 0.95%float)
    = Some results /\
    hourLine 0 s ∈ printResults (sampleWorld "data.csv") results true false 3%float false.
Proof.
  destruct (run sampleLibrary (analyzeTimeSeries sampleBaseline sampleBaseline 0.95%float))
    as [results |] eqn:Hrun; [| vm_compute in Hrun; discriminate Hrun].
  assert (Hhour : hasHour sampleBaseline 0).
  { exists (Measurement.mk 0 10%float "base"). split; [left | reflexivity]. }
  destruct (proj2 (proj1 (printResults_breakdown (sampleWorld "data.csv") _ _ _ _ 3%float
                            true false false results Hrun) 0))
    as [s Hs]; [split; [reflexivity | split; [lia | split; exact Hhour]] |].
  exists results, s. split; [reflexivity | exact Hs].
Defined.

(** X21. With colours on, a difference that is NaN is printed in red
    whatever the threshold, and against a threshold that is NaN every
    difference is coloured, green when negative and red otherwise;
    with colours off nothing is coloured. *)
Theorem formatDifference_nan (w : World) (threshold diff : float64) :
  formatDifference w threshold true nan = color_Sprintf w FgRed "%.2f%%" [ a_float nan ] /\
  formatDifference w nan true diff =
  color_Sprintf w (if (diff <? 0)%float then FgGreen else FgRed) "%.2f%%" [ a_float diff ] /\
  formatDifference w threshold false diff = fmt_Sprintf w "%.2f%%" [ a_float diff ].
Proof.
  unfold formatDifference. cbn [negb]. split; [| split; [| reflexivity]].
  - change (math.Abs nan) with nan. now rewrite leb_nan_l, ltb_nan_l.
  - rewrite leb_nan_r. now destruct (diff <? 0)%float.
Qed.
